(** * Dual-video comparison gallery: synchronisation engine

    A shallow embedding of the two gallery components of the project page,
    [src/components/VideoComparison.tsx] (the drift-correcting variant, module
    [Gallery]) and the loading-state-tracking variant (module
    [LoadingGallery]), and the properties of their natural-language
    specification that can be settled on them.

    Conventions of the embedding.
    - A DOM [double] (currentTime, playbackRate, performance.now()) is the
      rational number [Q] it denotes: these attributes are always finite.
      An unrestricted JavaScript number (the [duration] attribute, the
      [initialIndex] prop) is a [number], which adds NaN and the infinities.
    - The arithmetic of the component is that of IEEE 754 binary64.
      [double q] is the double nearest to the rational [q] (ties to even,
      gradual underflow): what the code computes by a subtraction, an
      addition or a multiplication is [double] of the exact result, and a
      decimal literal of the source denotes [double] of the decimal.
      Comparisons, [Math.abs], [Math.min], [Math.max] and [x || 0] are
      exact.  [double] has no largest value: where the code would see an
      infinity, the model sees a finite number beyond the threshold it is
      compared with, and the comparison decides the same way.  Two
      differences are written without [double]: [pairs.length - 1], which
      is exact, and [now - justLoopedAt.current], whose comparison with 200
      decides as on the exact difference (the stamp is -1, and a time below
      199 is still below 200 after 1 is added and the sum rounded, or it
      is the time of a restart, which is at least 199, and the difference
      of two such times is a double whenever it is below 256).
    - The component's functions mutate refs and DOM objects; they are written
      in a state monad [M] over a [World] that holds the React state, the
      refs, the media elements, the browser's callback queues and a log of
      every DOM call made.
    - An [async] function is cut at each [await]: the part after it is the
      continuation of a [Task] that an event of the browser resumes.
    - React is an event source like the browser: a state setter queues an
      update, the event [Render] commits the queue, mounts new [<video>]
      elements when the key of the slider has changed, and runs the cleanups
      and the effects whose dependencies changed, in source order.
    - Media elements are known by identity.  Video frame callbacks live in
      the element they were requested on, animation frame callbacks in the
      window. *)

From Stdlib Require Import String QArith Qabs Qminmax Qround Qpower Lqa Lia List
  Bool Arith ZArith.
Import ListNotations.

(** ** IEEE 754 binary64 on the rationals *)

Module Double.

Open Scope Q_scope.

(** [floor (log2 q)], for [q > 0]. *)
Definition ilog2 (q : Q) : Z :=
  let e := (Z.log2 (Qnum q) - Z.log2 (Zpos (Qden q)))%Z in
  if Qle_bool (2 ^ e) q then e else (e - 1)%Z.

(** The integer nearest to [m], the even one of the two on a tie. *)
Definition rne (m : Q) : Z :=
  let f := Qfloor m in
  match Qcompare (m - inject_Z f) (1 # 2) with
  | Lt => f
  | Gt => (f + 1)%Z
  | Eq => if Z.even f then f else (f + 1)%Z
  end.

(** The exponent of the unit in the last place at [a > 0]: 53 significant
    bits, and no unit below [2 ^ -1074]. *)
Definition ulpExp (a : Q) : Z := Z.max (ilog2 a - 52) (-1074).

Definition roundPos (a : Q) : Q :=
  inject_Z (rne (a / 2 ^ ulpExp a)) * 2 ^ ulpExp a.

(** The double nearest to [q]. *)
Definition double (q : Q) : Q :=
  if Qeq_bool q 0 then 0
  else if Qle_bool 0 q then roundPos q else - roundPos (- q).

End Double.

Import Double.

(** ** JavaScript numbers *)

Module JsNumber.

Inductive number : Type :=
| NaN
| PosInf
| NegInf
| Fin (q : Q).

Definition isFinite (x : number) : bool :=
  match x with Fin _ => true | _ => false end.

(** [x <= y] and [x < y] of JavaScript: false as soon as one side is NaN. *)
Definition leb (x y : number) : bool :=
  match x, y with
  | NaN, _ | _, NaN => false
  | NegInf, _ => true
  | _, PosInf => true
  | PosInf, _ => false
  | _, NegInf => false
  | Fin p, Fin q => Qle_bool p q
  end.

Definition ltb (x y : number) : bool :=
  match x, y with
  | NaN, _ | _, NaN => false
  | _, NegInf => false
  | PosInf, _ => false
  | NegInf, _ => true
  | _, PosInf => true
  | Fin p, Fin q => negb (Qle_bool q p)
  end.

(** [x - y] where the difference of two finite numbers is exact, as it is
    for an array length and 1. *)
Definition sub (x y : number) : number :=
  match x, y with
  | NaN, _ | _, NaN => NaN
  | PosInf, PosInf | NegInf, NegInf => NaN
  | PosInf, _ => PosInf
  | NegInf, _ => NegInf
  | Fin _, PosInf => NegInf
  | Fin _, NegInf => PosInf
  | Fin p, Fin q => Fin (p - q)
  end.

(** [x - y]. *)
Definition minus (x y : number) : number :=
  match sub x y with
  | Fin q => Fin (double q)
  | z => z
  end.

(** [Math.max(x, y)] and [Math.min(x, y)]: NaN as soon as one argument is. *)
Definition max (x y : number) : number :=
  match x, y with
  | NaN, _ | _, NaN => NaN
  | _, _ => if leb x y then y else x
  end.

Definition min (x y : number) : number :=
  match x, y with
  | NaN, _ | _, NaN => NaN
  | _, _ => if leb x y then x else y
  end.

Definition ofNat (n : nat) : number := Fin (inject_Z (Z.of_nat n)).

(** [Number.isInteger(x)]. *)
Definition isInteger (x : number) : bool :=
  match x with
  | Fin q => Qeq_bool q (inject_Z (Qnum q / Zpos (Qden q)))
  | _ => false
  end.

(** The array index a number denotes, if any: [a[x]] reads an element only
    when [x] is a non-negative integer. *)
Definition toIndex (x : number) : option nat :=
  match x with
  | Fin q =>
      let z := (Qnum q / Zpos (Qden q))%Z in
      if Qeq_bool q (inject_Z z) && (0 <=? z)%Z then Some (Z.to_nat z) else None
  | _ => None
  end.

End JsNumber.

Import JsNumber.
Open Scope Q_scope.

Definition Qltb (x y : Q) : bool := negb (Qle_bool y x).


(** ** The drift-correcting gallery ([VideoComparison.tsx]) *)

Module Gallery.

(** A media element is known by its identity; React creates two fresh ones
    each time the slider is re-keyed. *)
Definition elem := nat.

(** What the code reads and writes on an [HTMLVideoElement].  [errored] is
    the browser's side of a failed load: such an element fires [error] and,
    until [load()] is called again, no [loadeddata]. *)
Record Video := mkVideo {
  readyState : nat;
  currentTime : Q;
  playbackRate : Q;
  duration : number;
  errored : bool
}.

Definition freshVideo : Video := mkVideo 0 0 1 NaN false.

Definition withReadyState (n : nat) (v : Video) : Video :=
  mkVideo n (currentTime v) (playbackRate v) (duration v) (errored v).
Definition withCurrentTime (t : Q) (v : Video) : Video :=
  mkVideo (readyState v) t (playbackRate v) (duration v) (errored v).
Definition withPlaybackRate (r : Q) (v : Video) : Video :=
  mkVideo (readyState v) (currentTime v) r (duration v) (errored v).
Definition withDuration (d : number) (v : Video) : Video :=
  mkVideo (readyState v) (currentTime v) (playbackRate v) d (errored v).
Definition withErrored (b : bool) (v : Video) : Video :=
  mkVideo (readyState v) (currentTime v) (playbackRate v) (duration v) b.

(** [loopHandle.current]: how the pending iteration was scheduled, and the
    identifier the browser returned. *)
Inductive LoopKind : Type := vfc | raf.

Record Handle := mkHandle { kind : LoopKind; id : nat }.

(** The [step] closure of one render captures that render's [syncRestart],
    which captures that render's [isPlaying]. *)
Definition Closure := bool.

(** Every call the component makes on the DOM, in order. *)
Inductive Action : Type :=
| APause (e : elem)
| APlay (e : elem) (promise : nat)
| ALoad (e : elem)
| ASetRate (e : elem) (r : Q)
| ASetTime (e : elem) (t : Q)
| ARequestVFC (e : elem) (i : nat)
| ACancelVFC (e : elem) (i : nat)
| ARequestRAF (i : nat)
| ACancelRAF (i : nat).

(** Queued React state updates: [setActive(i)], [setIsPlaying(b)] and
    [setIsPlaying(p => !p)]. *)
Inductive Update : Type :=
| SetActive (i : nat)
| SetIsPlaying (b : bool)
| TogglePlaying.

(** Suspended [async] functions, one constructor per [await]. *)
Inductive Task : Type :=
| LoadAwaitReady (l r : elem) (readyL readyR : bool) (play : bool) (c : Closure)
    (* loadAndStart at [await waitBothReady()] *)
| LoadAwaitPlay (pl pr : nat) (resL resR : option bool) (c : Closure)
    (* loadAndStart at [await Promise.allSettled([L.play(), R.play()])] *)
| RestartAwaitSeek (l r : elem) (doneL doneR : bool).
    (* syncRestart at [await Promise.all([seekTo(L, 0), seekTo(R, 0)])] *)

Record World := mkWorld {
  active : nat;
  isPlaying : bool;
  updates : list Update;
  leftRef : option elem;
  rightRef : option elem;
  loopHandle : option Handle;
  justLoopedAt : Q;
  videos : elem -> Video;
  nextElem : elem;
  supportsVFC : bool;
  vfcNext : elem -> nat;
  vfcPending : list (elem * nat * Closure);
  rafNext : nat;
  rafPending : list (nat * Closure);
  playNext : nat;
  clock : Q;
  tasks : list Task;
  endedL : list (elem * Closure);
  log : list Action
}.

Definition set_active (x : nat) (w : World) : World :=
  mkWorld x (isPlaying w) (updates w) (leftRef w) (rightRef w)
    (loopHandle w) (justLoopedAt w) (videos w) (nextElem w) (supportsVFC w)
    (vfcNext w) (vfcPending w) (rafNext w) (rafPending w) (playNext w)
    (clock w) (tasks w) (endedL w) (log w).

Definition set_isPlaying (x : bool) (w : World) : World :=
  mkWorld (active w) x (updates w) (leftRef w) (rightRef w) (loopHandle w)
    (justLoopedAt w) (videos w) (nextElem w) (supportsVFC w) (vfcNext w)
    (vfcPending w) (rafNext w) (rafPending w) (playNext w) (clock w)
    (tasks w) (endedL w) (log w).

Definition set_updates (x : list Update) (w : World) : World :=
  mkWorld (active w) (isPlaying w) x (leftRef w) (rightRef w) (loopHandle w)
    (justLoopedAt w) (videos w) (nextElem w) (supportsVFC w) (vfcNext w)
    (vfcPending w) (rafNext w) (rafPending w) (playNext w) (clock w)
    (tasks w) (endedL w) (log w).

Definition set_leftRef (x : option elem) (w : World) : World :=
  mkWorld (active w) (isPlaying w) (updates w) x (rightRef w) (loopHandle w)
    (justLoopedAt w) (videos w) (nextElem w) (supportsVFC w) (vfcNext w)
    (vfcPending w) (rafNext w) (rafPending w) (playNext w) (clock w)
    (tasks w) (endedL w) (log w).

Definition set_rightRef (x : option elem) (w : World) : World :=
  mkWorld (active w) (isPlaying w) (updates w) (leftRef w) x (loopHandle w)
    (justLoopedAt w) (videos w) (nextElem w) (supportsVFC w) (vfcNext w)
    (vfcPending w) (rafNext w) (rafPending w) (playNext w) (clock w)
    (tasks w) (endedL w) (log w).

Definition set_loopHandle (x : option Handle) (w : World) : World :=
  mkWorld (active w) (isPlaying w) (updates w) (leftRef w) (rightRef w) x
    (justLoopedAt w) (videos w) (nextElem w) (supportsVFC w) (vfcNext w)
    (vfcPending w) (rafNext w) (rafPending w) (playNext w) (clock w)
    (tasks w) (endedL w) (log w).

Definition set_justLoopedAt (x : Q) (w : World) : World :=
  mkWorld (active w) (isPlaying w) (updates w) (leftRef w) (rightRef w)
    (loopHandle w) x (videos w) (nextElem w) (supportsVFC w) (vfcNext w)
    (vfcPending w) (rafNext w) (rafPending w) (playNext w) (clock w)
    (tasks w) (endedL w) (log w).

Definition set_videos (x : elem -> Video) (w : World) : World :=
  mkWorld (active w) (isPlaying w) (updates w) (leftRef w) (rightRef w)
    (loopHandle w) (justLoopedAt w) x (nextElem w) (supportsVFC w)
    (vfcNext w) (vfcPending w) (rafNext w) (rafPending w) (playNext w)
    (clock w) (tasks w) (endedL w) (log w).

Definition set_nextElem (x : elem) (w : World) : World :=
  mkWorld (active w) (isPlaying w) (updates w) (leftRef w) (rightRef w)
    (loopHandle w) (justLoopedAt w) (videos w) x (supportsVFC w) (vfcNext w)
    (vfcPending w) (rafNext w) (rafPending w) (playNext w) (clock w)
    (tasks w) (endedL w) (log w).

Definition set_vfcNext (x : elem -> nat) (w : World) : World :=
  mkWorld (active w) (isPlaying w) (updates w) (leftRef w) (rightRef w)
    (loopHandle w) (justLoopedAt w) (videos w) (nextElem w) (supportsVFC w)
    x (vfcPending w) (rafNext w) (rafPending w) (playNext w) (clock w)
    (tasks w) (endedL w) (log w).

Definition set_vfcPending (x : list (elem * nat * Closure)) (w : World) : World :=
  mkWorld (active w) (isPlaying w) (updates w) (leftRef w) (rightRef w)
    (loopHandle w) (justLoopedAt w) (videos w) (nextElem w) (supportsVFC w)
    (vfcNext w) x (rafNext w) (rafPending w) (playNext w) (clock w)
    (tasks w) (endedL w) (log w).

Definition set_rafNext (x : nat) (w : World) : World :=
  mkWorld (active w) (isPlaying w) (updates w) (leftRef w) (rightRef w)
    (loopHandle w) (justLoopedAt w) (videos w) (nextElem w) (supportsVFC w)
    (vfcNext w) (vfcPending w) x (rafPending w) (playNext w) (clock w)
    (tasks w) (endedL w) (log w).

Definition set_rafPending (x : list (nat * Closure)) (w : World) : World :=
  mkWorld (active w) (isPlaying w) (updates w) (leftRef w) (rightRef w)
    (loopHandle w) (justLoopedAt w) (videos w) (nextElem w) (supportsVFC w)
    (vfcNext w) (vfcPending w) (rafNext w) x (playNext w) (clock w)
    (tasks w) (endedL w) (log w).

Definition set_playNext (x : nat) (w : World) : World :=
  mkWorld (active w) (isPlaying w) (updates w) (leftRef w) (rightRef w)
    (loopHandle w) (justLoopedAt w) (videos w) (nextElem w) (supportsVFC w)
    (vfcNext w) (vfcPending w) (rafNext w) (rafPending w) x (clock w)
    (tasks w) (endedL w) (log w).

Definition set_clock (x : Q) (w : World) : World :=
  mkWorld (active w) (isPlaying w) (updates w) (leftRef w) (rightRef w)
    (loopHandle w) (justLoopedAt w) (videos w) (nextElem w) (supportsVFC w)
    (vfcNext w) (vfcPending w) (rafNext w) (rafPending w) (playNext w) x
    (tasks w) (endedL w) (log w).

Definition set_tasks (x : list Task) (w : World) : World :=
  mkWorld (active w) (isPlaying w) (updates w) (leftRef w) (rightRef w)
    (loopHandle w) (justLoopedAt w) (videos w) (nextElem w) (supportsVFC w)
    (vfcNext w) (vfcPending w) (rafNext w) (rafPending w) (playNext w)
    (clock w) x (endedL w) (log w).

Definition set_endedL (x : list (elem * Closure)) (w : World) : World :=
  mkWorld (active w) (isPlaying w) (updates w) (leftRef w) (rightRef w)
    (loopHandle w) (justLoopedAt w) (videos w) (nextElem w) (supportsVFC w)
    (vfcNext w) (vfcPending w) (rafNext w) (rafPending w) (playNext w)
    (clock w) (tasks w) x (log w).

Definition set_log (x : list Action) (w : World) : World :=
  mkWorld (active w) (isPlaying w) (updates w) (leftRef w) (rightRef w)
    (loopHandle w) (justLoopedAt w) (videos w) (nextElem w) (supportsVFC w)
    (vfcNext w) (vfcPending w) (rafNext w) (rafPending w) (playNext w)
    (clock w) (tasks w) (endedL w) x.

(** *** The state monad of the component's code *)

Definition M (A : Type) : Type := World -> A * World.

Definition ret {A : Type} (a : A) : M A := fun w => (a, w).

Definition bind {A B : Type} (m : M A) (k : A -> M B) : M B :=
  fun w => let (a, w') := m w in k a w'.

Declare Scope gallery_scope.
Delimit Scope gallery_scope with gallery.
Notation "x <- m ;; k" := (bind m (fun x => k))
  (at level 61, m at next level, right associativity) : gallery_scope.
Notation "m ;; k" := (bind m (fun _ => k))
  (at level 61, right associativity) : gallery_scope.
Open Scope gallery_scope.

Definition gets {A : Type} (f : World -> A) : M A := fun w => (f w, w).
Definition modify (f : World -> World) : M unit := fun w => (tt, f w).
Definition exec {A : Type} (m : M A) (w : World) : World := snd (m w).

Fixpoint forEach {A : Type} (xs : list A) (f : A -> M unit) : M unit :=
  match xs with
  | [] => ret tt
  | x :: xs' => f x ;; forEach xs' f
  end.

(** *** The DOM calls the component makes *)

Definition emit (a : Action) : M unit :=
  modify (fun w => set_log (log w ++ [a]) w).

Definition video (e : elem) : M Video := gets (fun w => videos w e).

Definition updVideo (e : elem) (f : Video -> Video) : M unit :=
  modify (fun w =>
    set_videos (fun e' => if Nat.eqb e' e then f (videos w e') else videos w e') w).

Definition pause (e : elem) : M unit := emit (APause e).

Definition setPlaybackRate (e : elem) (r : Q) : M unit :=
  emit (ASetRate e r) ;; updVideo e (withPlaybackRate r).

Definition setCurrentTime (e : elem) (t : Q) : M unit :=
  emit (ASetTime e t) ;; updVideo e (withCurrentTime t).

(** [v.load()] restarts resource selection: the element is back to
    HAVE_NOTHING, at position zero and at the default rate. *)
Definition load (e : elem) : M unit :=
  emit (ALoad e) ;;
  updVideo e (fun v => mkVideo 0 0 1 (duration v) false).

(** [v.play()] returns a promise the browser settles later. *)
Definition play (e : elem) : M nat :=
  p <- gets playNext ;;
  modify (set_playNext (S p)) ;;
  emit (APlay e p) ;;
  ret p.

(** Video frame callbacks are kept per element, with per-element
    identifiers; animation frame callbacks belong to the window. *)
Definition requestVideoFrameCallback (e : elem) (c : Closure) : M nat :=
  n <- gets (fun w => S (vfcNext w e)) ;;
  modify (fun w =>
    set_vfcNext (fun e' => if Nat.eqb e' e then n else vfcNext w e') w) ;;
  modify (fun w => set_vfcPending (vfcPending w ++ [(e, n, c)]) w) ;;
  emit (ARequestVFC e n) ;;
  ret n.

Definition cancelVideoFrameCallback (e : elem) (i : nat) : M unit :=
  modify (fun w =>
    set_vfcPending
      (filter (fun p => negb (Nat.eqb (fst (fst p)) e && Nat.eqb (snd (fst p)) i))
              (vfcPending w)) w) ;;
  emit (ACancelVFC e i).

Definition requestAnimationFrame (c : Closure) : M nat :=
  n <- gets (fun w => S (rafNext w)) ;;
  modify (set_rafNext n) ;;
  modify (fun w => set_rafPending (rafPending w ++ [(n, c)]) w) ;;
  emit (ARequestRAF n) ;;
  ret n.

Definition cancelAnimationFrame (i : nat) : M unit :=
  modify (fun w =>
    set_rafPending (filter (fun p => negb (Nat.eqb (fst p) i)) (rafPending w)) w) ;;
  emit (ACancelRAF i).

Definition spawn (t : Task) : M unit :=
  modify (fun w => set_tasks (tasks w ++ [t]) w).

Definition enqueue (u : Update) : M unit :=
  modify (fun w => set_updates (updates w ++ [u]) w).

(** *** The component's functions *)

(** The constants of [startSyncLoop], as decimals: the code works with the
    doubles [double HARD], [double SOFT] and [double LOOP_GAP]. *)
Definition HARD : Q := 0.08.
Definition SOFT : Q := 0.02.
Definition LOOP_GAP : Q := 0.04.

Definition cancelSyncLoop : M unit :=
  L <- gets leftRef ;;
  h <- gets loopHandle ;;
  match h with
  | None => ret tt
  | Some h =>
      can <- gets supportsVFC ;;
      match kind h, L with
      | vfc, Some l =>
          if can then cancelVideoFrameCallback l (id h)
          else cancelAnimationFrame (id h)
      | _, _ => cancelAnimationFrame (id h)
      end ;;
      modify (set_loopHandle None)
  end.

Definition scheduleStep (step : Closure) : M unit :=
  L <- gets leftRef ;;
  can <- gets supportsVFC ;;
  match L with
  | Some l =>
      if can then
        i <- requestVideoFrameCallback l step ;;
        modify (set_loopHandle (Some (mkHandle vfc i)))
      else
        i <- requestAnimationFrame step ;;
        modify (set_loopHandle (Some (mkHandle raf i)))
  | None =>
      i <- requestAnimationFrame step ;;
      modify (set_loopHandle (Some (mkHandle raf i)))
  end.

(** [seekTo(v, t)] up to its promise: the position is written here, the
    promise is the [RestartAwaitSeek] task's flag for [v]. *)
Definition seekTo (v : elem) (t : Q) : M unit := setCurrentTime v t.

(** [syncRestart] after both seeks have completed. *)
Definition syncRestart_seeked (l r : elem) : M unit :=
  _ <- play l ;;
  _ <- play r ;;
  ret tt.

Definition syncRestart (isPlaying : bool) : M unit :=
  L <- gets leftRef ;;
  R <- gets rightRef ;;
  match L, R with
  | Some l, Some r =>
      if negb isPlaying then ret tt
      else
        now <- gets clock ;;
        last <- gets justLoopedAt ;;
        if Qltb (now - last) 200 then ret tt
        else
          modify (set_justLoopedAt now) ;;
          pause l ;; pause r ;;
          setPlaybackRate l 1 ;; setPlaybackRate r 1 ;;
          seekTo l 0 ;; seekTo r 0 ;;
          spawn (RestartAwaitSeek l r false false)
  | _, _ => ret tt
  end.

(** End-of-stream proximity of the reference stream. *)
Definition nearEnd (L : Video) : bool :=
  let d := if isFinite (duration L) then duration L else NaN in
  isFinite d && ltb (Fin 0) d &&
  leb (minus d (Fin (currentTime L))) (Fin (double LOOP_GAP)).

(** The drift correction of one iteration, on follower [r] against
    reference [l]. *)
Definition correctDrift (l r : elem) : M unit :=
  vR <- video r ;;
  vL <- video l ;;
  let diff := double (currentTime vR - currentTime vL) in
  if Qle_bool (double HARD) (Qabs diff) then
    setPlaybackRate r 1 ;;
    vL <- video l ;;
    setCurrentTime r (currentTime vL)
  else if Qle_bool (double SOFT) (Qabs diff) then
    let sign := if Qltb diff 0 then 1 else -1 in
    let delta :=
      Qmin (double 0.05)
           (Qmax (double 0.01) (double (Qabs diff * double 0.6))) in
    setPlaybackRate r (double (1 + double (sign * delta)))
  else if negb (Qeq_bool (playbackRate vR) 1) then
    setPlaybackRate r 1
  else ret tt.

(** One sync-loop iteration: the [step] closure of [startSyncLoop]. *)
Definition step (c : Closure) : M unit :=
  L <- gets leftRef ;;
  R <- gets rightRef ;;
  match L, R with
  | Some l, Some r =>
      vL <- video l ;;
      if nearEnd vL then
        syncRestart c ;;
        scheduleStep c
      else
        correctDrift l r ;;
        scheduleStep c
  | _, _ => ret tt
  end.

Definition startSyncLoop (c : Closure) : M unit :=
  cancelSyncLoop ;;
  scheduleStep c.

(** [waitReady(v)] up to its promise: [true] when it returns at once
    (HAVE_CURRENT_DATA or better), [false] when it registers the
    [loadeddata] listener. *)
Definition waitReady (v : elem) : M bool :=
  x <- video v ;;
  ret (2 <=? readyState x)%nat.

(** [loadAndStart] after [Promise.allSettled([L.play(), R.play()])]. *)
Definition loadAndStart_settled (resL resR : bool) (c : Closure) : M unit :=
  let failed := negb resL || negb resR in
  if negb failed then startSyncLoop c
  else enqueue (SetIsPlaying false).

(** [loadAndStart] after [await waitBothReady()]. *)
Definition loadAndStart_ready (l r : elem) (play_ : bool) (c : Closure) : M unit :=
  if negb play_ then
    setCurrentTime l (double 0.001) ;; setCurrentTime r (double 0.001)
  else
    pl <- play l ;;
    pr <- play r ;;
    spawn (LoadAwaitPlay pl pr None None c).

Definition loadAndStart (play_ : bool) (c : Closure) : M unit :=
  L <- gets leftRef ;;
  R <- gets rightRef ;;
  match L, R with
  | Some l, Some r =>
      cancelSyncLoop ;;
      forEach [l; r] (fun v =>
        pause v ;;
        setPlaybackRate v 1 ;;
        setCurrentTime v 0 ;;
        load v) ;;
      (* waitBothReady, which reads the same two refs again *)
      readyL <- waitReady l ;;
      readyR <- waitReady r ;;
      spawn (LoadAwaitReady l r readyL readyR play_ c)
  | _, _ => ret tt
  end.

(** *** The effects of the component *)

(** [useEffect(..., [active])]: its body and its cleanup. *)
Definition activeEffect (isPlaying_ : bool) : M unit :=
  loadAndStart isPlaying_ isPlaying_.

Definition activeCleanup : M unit := cancelSyncLoop.

(** [x || 0] on a finite number. *)
Definition orZero (x : Q) : Q := if Qeq_bool x 0 then 0 else x.

(** [useEffect(..., [isPlaying, startSyncLoop, cancelSyncLoop])]. *)
Definition intentEffect (isPlaying_ : bool) : M unit :=
  L <- gets leftRef ;;
  R <- gets rightRef ;;
  match L, R with
  | Some l, Some r =>
      if isPlaying_ then
        vL <- video l ;;
        vR <- video r ;;
        let t := Qmin (orZero (currentTime vL)) (orZero (currentTime vR)) in
        setCurrentTime l t ;; setCurrentTime r t ;;
        _ <- play l ;;
        _ <- play r ;;
        startSyncLoop isPlaying_
      else
        cancelSyncLoop ;;
        pause l ;; pause r
  | _, _ => ret tt
  end.

(** [useEffect(..., [active, syncRestart])]: the [ended] listeners. *)
Definition endedEffect (isPlaying_ : bool) : M unit :=
  L <- gets leftRef ;;
  R <- gets rightRef ;;
  match L, R with
  | Some l, Some r =>
      modify (fun w => set_endedL (endedL w ++ [(l, isPlaying_); (r, isPlaying_)]) w)
  | _, _ => ret tt
  end.

Definition endedCleanup : M unit := modify (set_endedL []).

Definition togglePlay : M unit := enqueue TogglePlaying.

(** *** React *)

(** The slider is keyed by [active]: a new key unmounts both [<video>]
    elements and mounts two new ones, and the refs point to the new ones
    when the effects and their cleanups run. *)
Definition remount : M unit :=
  n <- gets nextElem ;;
  modify (set_nextElem (S (S n))) ;;
  updVideo n (fun _ => freshVideo) ;;
  updVideo (S n) (fun _ => freshVideo) ;;
  modify (set_leftRef (Some n)) ;;
  modify (set_rightRef (Some (S n))).

Definition applyUpdate (s : nat * bool) (u : Update) : nat * bool :=
  match u with
  | SetActive i => (i, snd s)
  | SetIsPlaying b => (fst s, b)
  | TogglePlaying => (fst s, negb (snd s))
  end.

(** A render commits the queued updates; the cleanups of the effects whose
    dependencies changed run first, then their bodies, in source order. *)
Definition render : M unit :=
  a0 <- gets active ;;
  p0 <- gets isPlaying ;;
  us <- gets updates ;;
  modify (set_updates []) ;;
  let s := fold_left applyUpdate us (a0, p0) in
  let newActive := negb (Nat.eqb (fst s) a0) in
  let newIntent := negb (Bool.eqb (snd s) p0) in
  if newActive || newIntent then
    modify (set_active (fst s)) ;;
    modify (set_isPlaying (snd s)) ;;
    (if newActive then remount else ret tt) ;;
    (if newActive then activeCleanup else ret tt) ;;
    endedCleanup ;;
    (if newActive then activeEffect (snd s) else ret tt) ;;
    (if newIntent then intentEffect (snd s) else ret tt) ;;
    endedEffect (snd s)
  else ret tt.

Definition mount : M unit :=
  remount ;;
  p <- gets isPlaying ;;
  activeEffect p ;;
  intentEffect p ;;
  endedEffect p.

(** On unmount React clears the refs before the cleanups run. *)
Definition unmount : M unit :=
  modify (set_leftRef None) ;;
  modify (set_rightRef None) ;;
  activeCleanup ;;
  endedCleanup.

(** *** The browser *)

Inductive Event : Type :=
| ClickThumb (i : nat)              (* onClick={() => setActive(i)} *)
| ClickToggle                       (* onClick={togglePlay} *)
| Render                            (* React commits the queued updates *)
| Unmount
| Loadeddata (e : elem) (rs : nat)  (* e reaches readyState rs *)
| MediaError (e : elem)             (* the load of e fails *)
| Metadata (e : elem) (d : number)  (* the duration of e becomes known *)
| Playback (e : elem) (t : Q)       (* the media clock of e moves to t *)
| Seeked (e : elem)
| Timeupdate (e : elem)
| Ended (e : elem)
| PlaySettled (promise : nat) (ok : bool)
| FrameVFC (e : elem) (i : nat)     (* video frame callback i of e is run *)
| FrameRAF (i : nat).               (* animation frame callback i is run *)

Definition onLoadeddata (e : elem) (rs : nat) (t : Task) : Task :=
  match t with
  | LoadAwaitReady l r a b p c =>
      let ok := (2 <=? rs)%nat in
      LoadAwaitReady l r (a || Nat.eqb l e && ok) (b || Nat.eqb r e && ok) p c
  | _ => t
  end.

Definition onSeekDone (e : elem) (t : Task) : Task :=
  match t with
  | RestartAwaitSeek l r a b =>
      RestartAwaitSeek l r (a || Nat.eqb l e) (b || Nat.eqb r e)
  | _ => t
  end.

Definition settle (x : option bool) (mine : bool) (ok : bool) : option bool :=
  match x with
  | None => if mine then Some ok else None
  | Some _ => x
  end.

Definition onPlaySettled (p : nat) (ok : bool) (t : Task) : Task :=
  match t with
  | LoadAwaitPlay pl pr a b c =>
      LoadAwaitPlay pl pr (settle a (Nat.eqb pl p) ok) (settle b (Nat.eqb pr p) ok) c
  | _ => t
  end.

Definition taskReady (t : Task) : bool :=
  match t with
  | LoadAwaitReady _ _ a b _ _ => a && b
  | LoadAwaitPlay _ _ (Some _) (Some _) _ => true
  | LoadAwaitPlay _ _ _ _ _ => false
  | RestartAwaitSeek _ _ a b => a && b
  end.

Definition resume (t : Task) : M unit :=
  match t with
  | LoadAwaitReady l r _ _ p c => loadAndStart_ready l r p c
  | LoadAwaitPlay _ _ (Some a) (Some b) c => loadAndStart_settled a b c
  | LoadAwaitPlay _ _ _ _ _ => ret tt
  | RestartAwaitSeek l r _ _ => syncRestart_seeked l r
  end.

(** The microtask checkpoint: every task whose awaited promises are all
    settled continues. *)
Definition wake : M unit :=
  ts <- gets tasks ;;
  modify (set_tasks (filter (fun t => negb (taskReady t)) ts)) ;;
  forEach (filter taskReady ts) resume.

Definition deliver (f : Task -> Task) : M unit :=
  modify (fun w => set_tasks (map f (tasks w)) w).

Definition dispatch (ev : Event) : M unit :=
  match ev with
  | ClickThumb i => enqueue (SetActive i)
  | ClickToggle => togglePlay
  | Render => render
  | Unmount => unmount
  | Loadeddata e rs =>
      v <- video e ;;
      if errored v then ret tt
      else updVideo e (withReadyState rs) ;; deliver (onLoadeddata e rs)
  | MediaError e => updVideo e (withErrored true)
  | Metadata e d => updVideo e (withDuration d)
  | Playback e t => updVideo e (withCurrentTime t)
  | Seeked e => deliver (onSeekDone e)
  | Timeupdate e => deliver (onSeekDone e)
  | Ended e =>
      ls <- gets endedL ;;
      forEach (filter (fun p => Nat.eqb (fst p) e) ls) (fun p => syncRestart (snd p))
  | PlaySettled p ok => deliver (onPlaySettled p ok)
  | FrameVFC e i =>
      q <- gets vfcPending ;;
      let mine := fun p : elem * nat * Closure =>
                    Nat.eqb (fst (fst p)) e && Nat.eqb (snd (fst p)) i in
      modify (set_vfcPending (filter (fun p => negb (mine p)) q)) ;;
      forEach (filter mine q) (fun p => step (snd p))
  | FrameRAF i =>
      q <- gets rafPending ;;
      let mine := fun p : nat * Closure => Nat.eqb (fst p) i in
      modify (set_rafPending (filter (fun p => negb (mine p)) q)) ;;
      forEach (filter mine q) (fun p => step (snd p))
  end.

(** An event of the browser, at time [now] of [performance.now()]. *)
Definition handle (now : Q) (ev : Event) : M unit :=
  modify (set_clock now) ;;
  dispatch ev ;;
  wake.

Fixpoint run (evs : list (Q * Event)) (w : World) : World :=
  match evs with
  | [] => w
  | (now, ev) :: evs' => run evs' (exec (handle now ev) w)
  end.

(** The component before its first commit, in a browser that has
    [requestVideoFrameCallback] or not. *)
Definition blank (active0 : nat) (canVFC : bool) : World :=
  mkWorld active0 true [] None None None (-1) (fun _ => freshVideo) 0%nat canVFC
    (fun _ => 0%nat) [] 0%nat [] 0%nat 0 [] [] [].

Definition mounted (active0 : nat) (canVFC : bool) : World :=
  exec (mount ;; wake) (blank active0 canVFC).

(** How many sync-loop iterations the browser holds at a given moment. *)
Definition scheduled (w : World) : nat :=
  (length (vfcPending w) + length (rafPending w))%nat.

(** The DOM calls made between [w] and a later [w']: the log only grows. *)
Definition emitted (w w' : World) : list Action :=
  skipn (length (log w)) (log w').

Definition isRateWrite (e : elem) (a : Action) : bool :=
  match a with
  | ASetRate e' _ => Nat.eqb e' e
  | _ => false
  end.

(** Pair 0 is mounted in a browser that has [requestVideoFrameCallback],
    both streams are ready, both [play()] requests have resolved: the sync
    loop runs. *)
Definition playingWorld : World :=
  run [ (10, Loadeddata 0%nat 4%nat); (11, Loadeddata 1%nat 4%nat);
        (12, PlaySettled 2%nat true); (13, PlaySettled 3%nat true) ]
      (mounted 0 true).

(** From there the user selects pair 1, whose streams get ready and start
    to play. *)
Definition switchedWorld : World :=
  run [ (14, ClickThumb 1%nat); (15, Render);
        (16, Loadeddata 2%nat 4%nat); (17, Loadeddata 3%nat 4%nat);
        (18, PlaySettled 4%nat true); (19, PlaySettled 5%nat true) ]
      playingWorld.

(** Task [t] is a [loadAndStart] whose [waitReady] promise for element [e]
    is not resolved. *)
Definition awaitsReady (e : elem) (t : Task) : bool :=
  match t with
  | LoadAwaitReady l r a b _ _ =>
      (Nat.eqb l e && negb a) || (Nat.eqb r e && negb b)
  | _ => false
  end.

(** The ready-gate of element [e] is unresolved in world [w]. *)
Definition gateUnresolved (e : elem) (w : World) : bool :=
  existsb (awaitsReady e) (tasks w).

(** Pair 0 is mounted; the source of the left stream fails to load, the
    right stream gets ready. *)
Definition leftFailedWorld : World :=
  run [ (5, MediaError 0%nat); (11, Loadeddata 1%nat 4%nat) ] (mounted 0 true).

(** Pair 0 is mounted and both streams have just become ready: the world
    in which the activation continues after [await waitBothReady()]. *)
Definition readyWorld : World :=
  set_tasks []
    (exec (modify (set_clock 11) ;; dispatch (Loadeddata 1%nat 4%nat))
          (run [ (10, Loadeddata 0%nat 4%nat) ] (mounted 0 true))).

(** The cancellation call that matches the way an iteration was
    scheduled. *)
Definition matchingCancel (request : Action) : option Action :=
  match request with
  | ARequestVFC e i => Some (ACancelVFC e i)
  | ARequestRAF i => Some (ACancelRAF i)
  | _ => None
  end.

(** A reachable world in which the reference is 10ms from its end and the
    follower is exactly in phase, at the normal rate, at time 1000 of
    [performance.now()]. *)
Definition nearEndWorld : World :=
  run [ (10, Loadeddata 0%nat 4%nat); (11, Loadeddata 1%nat 4%nat);
        (12, PlaySettled 2%nat true); (13, PlaySettled 3%nat true);
        (20, Metadata 0%nat (Fin 10)); (20, Metadata 1%nat (Fin 10));
        (1000, Playback 0%nat 9.99); (1000, Playback 1%nat 9.99) ]
      (mounted 0 true).

Definition isRequest (a : Action) : bool :=
  match a with
  | ARequestVFC _ _ | ARequestRAF _ => true
  | _ => false
  end.

(** A suspended function that is not ready to continue and that the
    settlement of the [play()] promises numbered [p] and above does not
    concern. *)
Definition bystander (p : nat) (t : Task) : Prop :=
  taskReady t = false /\
  forall q ok, (p <= q)%nat -> onPlaySettled q ok t = t.

(** The two [play()] promises of a pair activation settle, in one order or
    the other. *)
Definition settleBoth (leftFirst : bool) (ta tb : Q) (pl pr : nat)
           (okL okR : bool) : list (Q * Event) :=
  if leftFirst then [ (ta, PlaySettled pl okL); (tb, PlaySettled pr okR) ]
  else [ (ta, PlaySettled pr okR); (tb, PlaySettled pl okL) ].

(** The synchronous part of a synchronized restart on [l] and [r]; the two
    [play()] requests follow once both seeks have completed
    ([syncRestart_seeked]). *)
Definition restartSequence (l r : elem) : list Action :=
  [ APause l; APause r; ASetRate l 1; ASetRate r 1; ASetTime l 0; ASetTime r 0 ].

(** [syncRestart], invoked in world [w], goes through with the restart. *)
Definition performsRestart (c : Closure) (w : World) : Prop :=
  exists l r, emitted w (exec (syncRestart c) w) = restartSequence l r.

(** [syncRestart], invoked in world [w], returns without doing anything. *)
Definition restartIsNoop (c : Closure) (w : World) : Prop :=
  exec (syncRestart c) w = w.

(** *** The initially active pair *)

Section InitialIndex.
Variable Pair : Type.

(** [useState(Math.min(Math.max(initialIndex, 0), pairs.length - 1))],
    with the default [initialIndex = 0]. *)
Definition initialActive (pairs : list Pair) (initialIndex : option number)
  : number :=
  let i := match initialIndex with Some i => i | None => Fin 0 end in
  JsNumber.min (JsNumber.max i (Fin 0)) (sub (ofNat (length pairs)) (Fin 1)).

(** [initialIndex] is a number the clamp leaves between two indices: not an
    integer, and strictly between 0 and [pairs.length - 1]. *)
Definition betweenIndices (pairs : list Pair) (initialIndex : option number)
  : Prop :=
match initialIndex with
| Some (Fin q) =>
    isInteger (Fin q) = false /\
    0 < q /\ q < inject_Z (Z.of_nat (length pairs)) - 1
| _ => False
end.

(** [pairs[active]]. *)
Definition activePair (pairs : list Pair) (active_ : number) : option Pair :=
  match toIndex active_ with
  | Some n => nth_error pairs n
  | None => None
  end.
End InitialIndex.

Arguments initialActive {Pair} pairs initialIndex.
Arguments betweenIndices {Pair} pairs initialIndex.
Arguments activePair {Pair} pairs active_.

(** *** Media references

    The [src], [poster] and [thumb] of a pair are strings or asset objects
    of the site generator ([{src: ...}]); [toSrc] takes an [unknown], so any
    JavaScript value may arrive. *)

#[local] Unset Elimination Schemes.
Inductive value : Type :=
| VUndefined
| VNull
| VBool (b : bool)
| VNum (n : number)
| VStr (s : string)
| VObj (props : list (string * value)).
#[local] Set Elimination Schemes.

(** [!!v]. *)
Definition truthy (v : value) : bool :=
  match v with
  | VUndefined | VNull => false
  | VBool b => b
  | VNum NaN => false
  | VNum (Fin q) => negb (Qeq_bool q 0)
  | VNum _ => true
  | VStr s => negb (String.eqb s EmptyString)
  | VObj _ => true
  end.

(** [a || b]. *)
Definition orElse (a b : value) : value := if truthy a then a else b.

(** [props[k]], when [k in props]. *)
Fixpoint getProp (k : string) (props : list (string * value)) : option value :=
  match props with
  | [] => None
  | (k', v) :: rest => if String.eqb k' k then Some v else getProp k rest
  end.

Definition toSrc (maybe : value) : value :=
  if negb (truthy maybe) then VStr EmptyString
  else
    match maybe with
    | VStr _ => maybe
    | VObj props =>
        match getProp "src" props with
        | Some src => orElse src (VStr EmptyString)
        | None => VStr EmptyString
        end
    | _ => VStr EmptyString
    end.

Module OneSide.
Record t := mk { src : value; label : value; poster : value; thumb : value }.
End OneSide.

Module VideoPair.
Record t := mk { left : OneSide.t; right : OneSide.t; thumb : value }.
End VideoPair.

(** [useMemo(() => pairs.map(...), [pairs])]. *)
Definition thumbs (pairs : list VideoPair.t) : list value :=
  map (fun p =>
         orElse (orElse (orElse (toSrc (VideoPair.thumb p))
                                (toSrc (OneSide.thumb (VideoPair.left p))))
                        (toSrc (OneSide.poster (VideoPair.left p))))
                (VStr EmptyString))
      pairs.

(** What a thumbnail button shows: [t ? <img src={t} .../> : <div>No Thumb</div>]. *)
Inductive Thumbnail : Type :=
| Img (src : value)
| NoThumb.

Definition thumbnail (t : value) : Thumbnail :=
  if truthy t then Img t else NoThumb.

(** *** Vocabulary of the properties *)

(** The iteration handle that a scheduling call leaves in [loopHandle]. *)
Definition handleOf (request : Action) : option Handle :=
  match request with
  | ARequestVFC _ i => Some (mkHandle vfc i)
  | ARequestRAF i => Some (mkHandle raf i)
  | _ => None
  end.

(** A write of the playback rate or of the position of element [e]. *)
Definition writesTo (e : elem) (a : Action) : bool :=
  match a with
  | ASetRate e' _ | ASetTime e' _ => Nat.eqb e' e
  | _ => false
  end.

(** The call [cancelSyncLoop] makes in world [w], if it makes one. *)
Definition cancelCall (w : World) : list Action :=
  match loopHandle w with
  | None => []
  | Some h =>
      [ match kind h, leftRef w with
        | vfc, Some l =>
            if supportsVFC w then ACancelVFC l (id h) else ACancelRAF (id h)
        | _, _ => ACancelRAF (id h)
        end ]
  end.

(** No suspended function is ready to continue: the world is between two
    events of the browser. *)
Definition quiescent (w : World) : Prop :=
  Forall (fun t => taskReady t = false) (tasks w).

(** A suspended function that is not ready to continue and does not wait
    for [loadeddata] of [l] or [r]. *)
Definition loadBystander (l r : elem) (t : Task) : Prop :=
  taskReady t = false /\
  forall rs, onLoadeddata l rs t = t /\ onLoadeddata r rs t = t.

(** A suspended function that is not ready to continue and does not wait
    for a seek of [l] or [r]. *)
Definition seekBystander (l r : elem) (t : Task) : Prop :=
  taskReady t = false /\ onSeekDone l t = t /\ onSeekDone r t = t.

(** The completion of a seek on [e] as [seekTo] hears of it: by [seeked]
    or by [timeupdate], whichever comes first. *)
Definition seekDone (bySeeked : bool) (e : elem) : Event :=
  if bySeeked then Seeked e else Timeupdate e.

(** The events that leave the selected pair in place: every event but the
    selection of another pair and the unmount. *)
Definition staysOnPair (a : nat) (ev : Event) : Prop :=
  match ev with
  | ClickThumb i => i = a
  | Unmount => False
  | _ => True
  end.


End Gallery.

(** ** The loading-state-tracking gallery *)

Module LoadingGallery.

(** What this variant reads and writes on a [<video>]. *)
Record Player := mkPlayer {
  paused : bool;
  position : Q        (* currentTime *)
}.

Definition freshPlayer : Player := mkPlayer true 0.

(** React state ([selectedIndex], [isPlaying], [videosLoaded]) and the two
    refs with the elements they point to. *)
Record State := mkState {
  selectedIndex : nat;
  isPlaying : bool;
  loadedV1 : bool;
  loadedV2 : bool;
  videoRef1 : option Player;
  videoRef2 : option Player
}.

Definition handleThumbnailClick (index : nat) (s : State) : State :=
  mkState index false false false (videoRef1 s) (videoRef2 s).

Definition handleVideoLoaded (videoNumber : nat) (s : State) : State :=
  mkState (selectedIndex s) (isPlaying s)
    (if Nat.eqb videoNumber 1 then true else loadedV1 s)
    (if Nat.eqb videoNumber 2 then true else loadedV2 s)
    (videoRef1 s) (videoRef2 s).

Definition handleVideoError (videoNumber : nat) (s : State) : State :=
  mkState (selectedIndex s) (isPlaying s)
    (if Nat.eqb videoNumber 1 then true else loadedV1 s)
    (if Nat.eqb videoNumber 2 then true else loadedV2 s)
    (videoRef1 s) (videoRef2 s).

(** [useEffect(..., [selectedIndex])]. *)
Definition selectionEffect (s : State) : State :=
  let reset := fun v : Player => mkPlayer true 0 in
  match videoRef1 s, videoRef2 s with
  | Some v1, Some v2 =>
      mkState (selectedIndex s) false false false (Some (reset v1)) (Some (reset v2))
  | _, _ =>
      mkState (selectedIndex s) false false false (videoRef1 s) (videoRef2 s)
  end.

(** The slider is keyed by [selectedIndex]: a new key mounts two new
    [<video>] elements. *)
Definition remount (s : State) : State :=
  mkState (selectedIndex s) (isPlaying s) (loadedV1 s) (loadedV2 s)
    (Some freshPlayer) (Some freshPlayer).

(** A click on thumbnail [index]: the handler, then the commit, whose
    effect runs only when [selectedIndex] changed. *)
Definition clickThumbnail (index : nat) (s : State) : State :=
  let s' := handleThumbnailClick index s in
  if Nat.eqb index (selectedIndex s) then s'
  else selectionEffect (remount s').

(** [togglePlayPause], with the outcome of the two [play()] requests when
    it makes them. *)
Definition togglePlayPause (res1 res2 : bool) (s : State) : State :=
  match videoRef1 s, videoRef2 s with
  | Some v1, Some v2 =>
      if isPlaying s then
        mkState (selectedIndex s) false (loadedV1 s) (loadedV2 s)
          (Some (mkPlayer true (position v1))) (Some (mkPlayer true (position v2)))
      else if loadedV1 s && loadedV2 s then
        let hasError := negb res1 || negb res2 in
        mkState (selectedIndex s) (negb hasError) (loadedV1 s) (loadedV2 s)
          (Some (mkPlayer (paused v1 && negb res1) (position v1)))
          (Some (mkPlayer (paused v2 && negb res2) (position v2)))
      else s
  | _, _ => s
  end.

(** The first commit: [selectedIndex = 0], paused, nothing loaded. *)
Definition initial : State :=
  selectionEffect (mkState 0 false false false (Some freshPlayer) (Some freshPlayer)).

(** The media clocks advance: every element that plays moves to [t]. *)
Definition playback (t : Q) (s : State) : State :=
  let move := fun v : Player => if paused v then v else mkPlayer false t in
  mkState (selectedIndex s) (isPlaying s) (loadedV1 s) (loadedV2 s)
    (option_map move (videoRef1 s)) (option_map move (videoRef2 s)).

(** Pair 0 selected, both streams loaded, play requested with success, and
    3.2 seconds played. *)
Definition playingState : State :=
  playback 3.2
    (togglePlayPause true true
       (handleVideoLoaded 2 (handleVideoLoaded 1 initial))).

(** Both elements are paused at position zero. *)
Definition bothPausedAtZero (s : State) : Prop :=
  exists v1 v2, videoRef1 s = Some v1 /\ videoRef2 s = Some v2 /\
    paused v1 = true /\ paused v2 = true /\ position v1 = 0 /\ position v2 = 0.

(** The [sync] listener of [useEffect(..., [selectedIndex])], which runs on
    [timeupdate] and [seeking] of video 1.  [SYNC_EPS] is the decimal; the
    code compares with the double it denotes. *)
Definition SYNC_EPS : Q := 0.12.

Definition sync (s : State) : State :=
  match videoRef1 s, videoRef2 s with
  | Some v1, Some v2 =>
      if Qltb (double SYNC_EPS) (Qabs (double (position v1 - position v2))) then
        mkState (selectedIndex s) (isPlaying s) (loadedV1 s) (loadedV2 s)
          (Some v1) (Some (mkPlayer (paused v2) (position v1)))
      else s
  | _, _ => s
  end.

(** What a render with the items [data] comes to: the early return on an
    empty [data], or the slider on [data[selectedIndex]]; reading
    [activeItem.videoSrcOne] throws when that item is undefined. *)
Inductive Outcome (Item : Type) : Type :=
| NoVideos
| Throws
| Shows (activeItem : Item).

Arguments NoVideos {Item}.
Arguments Throws {Item}.
Arguments Shows {Item} activeItem.

Definition renderWith {Item : Type} (data : list Item) (s : State)
  : Outcome Item :=
  match data with
  | [] => NoVideos
  | _ :: _ =>
      match nth_error data (selectedIndex s) with
      | Some item => Shows item
      | None => Throws
      end
  end.

(** The update of the effect on [data.length], which runs after a render
    that has returned: [setSelectedIndex(i => Math.min(i, data.length - 1))]
    for the [n >= 1] items of [data]. *)
Definition clampSelection (n : nat) (s : State) : State :=
  mkState (Nat.min (selectedIndex s) (n - 1)) (isPlaying s)
    (loadedV1 s) (loadedV2 s) (videoRef1 s) (videoRef2 s).

(** The toggle button is [disabled] until both streams count as loaded. *)
Definition toggleEnabled (s : State) : bool := loadedV1 s && loadedV2 s.

(** Both elements play. *)
Definition bothPlaying (s : State) : Prop :=
  exists v1 v2, videoRef1 s = Some v1 /\ videoRef2 s = Some v2 /\
    paused v1 = false /\ paused v2 = false.


End LoadingGallery.

(** * Properties *)

Lemma Qltb_iff (x y : Q) : Qltb x y = true <-> x < y.
Proof.
  unfold Qltb. rewrite negb_true_iff, <- not_true_iff_false, Qle_bool_iff.
  split; [apply Qnot_le_lt | apply Qlt_not_le].
Qed.

Lemma Qltb_false_iff (x y : Q) : Qltb x y = false <-> y <= x.
Proof.
  unfold Qltb. rewrite negb_false_iff. apply Qle_bool_iff.
Qed.

Lemma Qle_bool_false_iff (x y : Q) : Qle_bool x y = false <-> y < x.
Proof.
  rewrite <- not_true_iff_false, Qle_bool_iff.
  split; [apply Qnot_le_lt | apply Qlt_not_le].
Qed.

Lemma skipn_app_exact {A : Type} (l k : list A) : skipn (length l) (l ++ k) = k.
Proof. induction l as [|x l IH]; simpl; auto. Qed.

(** ** Rounding to the nearest double

    [double] is monotone, which is all the properties below need of it:
    a threshold that the exact value reaches is reached by the rounded
    one. *)

Lemma two_pos (k : Z) : 0 < 2 ^ k.
Proof. apply Qpower_0_lt. reflexivity. Qed.

Lemma two_ne (k : Z) : ~ 2 ^ k == 0.
Proof. pose proof (two_pos k). lra. Qed.

Lemma two_succ (k : Z) : 2 ^ (k + 1) == 2 * 2 ^ k.
Proof.
  rewrite Qpower_plus by (intros H; discriminate H).
  rewrite Qpower_1_r. ring.
Qed.

Lemma two_le (n m : Z) : (n <= m)%Z -> 2 ^ n <= 2 ^ m.
Proof. intros H. apply Qpower_le_compat_l; [exact H | lra]. Qed.

Lemma two_inject (n : Z) : (0 <= n)%Z -> 2 ^ n == inject_Z (2 ^ n).
Proof. intros H. rewrite (Zpower_Qpower 2 n H). reflexivity. Qed.

Lemma ilog2_spec (q : Q) :
  0 < q -> 2 ^ ilog2 q <= q /\ q < 2 ^ (ilog2 q + 1).
Proof.
  intros Hq. destruct q as [n d].
  assert (Hn : (0 < n)%Z) by (unfold Qlt in Hq; cbn in Hq; lia).
  destruct (Z.log2_spec n Hn) as [Na Nb].
  destruct (Z.log2_spec (Zpos d) (Pos2Z.is_pos d)) as [Da Db].
  pose proof (Z.log2_nonneg n) as A0.
  pose proof (Z.log2_nonneg (Zpos d)) as B0.
  set (a := Z.log2 n) in *. set (b := Z.log2 (Zpos d)) in *.
  assert (Qn : inject_Z n == (n # d) * inject_Z (Zpos d)).
  { unfold Qeq, Qmult, inject_Z. cbn [Qnum Qden]. rewrite Pos.mul_1_r. ring. }
  assert (Dpos : 0 < inject_Z (Zpos d)) by (unfold Qlt; cbn; lia).
  assert (QNa : 2 ^ a <= inject_Z n).
  { rewrite (two_inject a A0). rewrite <- Zle_Qle. exact Na. }
  assert (QNb : inject_Z n < 2 ^ (a + 1)).
  { rewrite (two_inject (a + 1)) by lia. rewrite <- Zlt_Qlt.
    unfold Z.succ in Nb. exact Nb. }
  assert (QDa : 2 ^ b <= inject_Z (Zpos d)).
  { rewrite (two_inject b B0). rewrite <- Zle_Qle. exact Da. }
  assert (QDb : inject_Z (Zpos d) < 2 ^ (b + 1)).
  { rewrite (two_inject (b + 1)) by lia. rewrite <- Zlt_Qlt.
    unfold Z.succ in Db. exact Db. }
  assert (Up : (n # d) < 2 ^ (a - b + 1)).
  { replace (a - b + 1)%Z with ((a + 1) - b)%Z by lia.
    rewrite Qpower_minus by (intros H; discriminate H).
    apply Qlt_shift_div_l; [apply two_pos | ].
    apply Qle_lt_trans with ((n # d) * inject_Z (Zpos d)).
    - apply Qmult_le_l; [exact Hq | exact QDa].
    - rewrite <- Qn. exact QNb. }
  assert (Lo : 2 ^ (a - b - 1) < (n # d)).
  { replace (a - b - 1)%Z with (a - (b + 1))%Z by lia.
    rewrite Qpower_minus by (intros H; discriminate H).
    apply Qlt_shift_div_r; [apply two_pos | ].
    apply Qle_lt_trans with (inject_Z n); [exact QNa | ].
    rewrite Qn. apply Qmult_lt_l; [exact Hq | exact QDb]. }
  unfold ilog2. cbn [Qnum Qden]. fold a b.
  destruct (Qle_bool (2 ^ (a - b)) (n # d)) eqn:C.
  - apply Qle_bool_iff in C. split; assumption.
  - assert (C' : (n # d) < 2 ^ (a - b)).
    { apply Qnot_le_lt. intros H. apply Qle_bool_iff in H. congruence. }
    split; [apply Qlt_le_weak; exact Lo | ].
    replace (a - b - 1 + 1)%Z with (a - b)%Z by lia. exact C'.
Qed.

Lemma ilog2_mono (x y : Q) : 0 < x -> x <= y -> (ilog2 x <= ilog2 y)%Z.
Proof.
  intros Hx Hxy.
  destruct (ilog2_spec x Hx) as [Lx _].
  destruct (ilog2_spec y) as [_ Uy]; [lra | ].
  assert (H : 2 ^ ilog2 x < 2 ^ (ilog2 y + 1)) by lra.
  apply Qpower_lt_compat_l_inv in H; [lia | lra].
Qed.

Lemma rne_comp (x y : Q) : x == y -> rne x = rne y.
Proof.
  intros H. unfold rne. rewrite (Qfloor_comp x y H).
  assert (E : Qcompare (x - inject_Z (Qfloor y)) (1 # 2) =
              Qcompare (y - inject_Z (Qfloor y)) (1 # 2))
    by (rewrite H; reflexivity).
  rewrite E. reflexivity.
Qed.

Lemma rne_bounds (m : Q) : (Qfloor m <= rne m <= Qfloor m + 1)%Z.
Proof.
  unfold rne. destruct (Qcompare _ _); [destruct (Z.even _) | | ]; lia.
Qed.

Lemma rne_mono (x y : Q) : x <= y -> (rne x <= rne y)%Z.
Proof.
  intros H. pose proof (Qfloor_resp_le x y H) as F.
  pose proof (rne_bounds x) as Bx. pose proof (rne_bounds y) as By.
  destruct (Z.eq_dec (Qfloor x) (Qfloor y)) as [E | N]; [ | lia].
  unfold rne. rewrite <- E.
  destruct (Qcompare_spec (x - inject_Z (Qfloor x)) (1 # 2)) as [Cx | Cx | Cx];
    destruct (Qcompare_spec (y - inject_Z (Qfloor x)) (1 # 2)) as [Cy | Cy | Cy];
    try (destruct (Z.even (Qfloor x))); try lia; lra.
Qed.

Lemma rne_Z (n : Z) : rne (inject_Z n) = n.
Proof.
  unfold rne. rewrite Qfloor_Z.
  destruct (Qcompare_spec (inject_Z n - inject_Z n) (1 # 2)) as [C | C | C];
    try reflexivity; lra.
Qed.

(** A multiple of the unit below [a] stays below what [a] rounds to, and
    the same above. *)
Lemma grid_below (a : Q) (k N : Z) :
  inject_Z N * 2 ^ k <= a -> inject_Z N * 2 ^ k <= inject_Z (rne (a / 2 ^ k)) * 2 ^ k.
Proof.
  intros H. pose proof (two_pos k) as P.
  apply Qmult_le_compat_r; [ | lra].
  rewrite <- Zle_Qle. rewrite <- (rne_Z N). apply rne_mono.
  apply Qle_shift_div_l; assumption.
Qed.

Lemma grid_above (a : Q) (k N : Z) :
  a <= inject_Z N * 2 ^ k -> inject_Z (rne (a / 2 ^ k)) * 2 ^ k <= inject_Z N * 2 ^ k.
Proof.
  intros H. pose proof (two_pos k) as P.
  apply Qmult_le_compat_r; [ | lra].
  rewrite <- Zle_Qle. rewrite <- (rne_Z N). apply rne_mono.
  apply Qle_shift_div_r; assumption.
Qed.

Lemma two_split (u k : Z) : (k <= u)%Z -> 2 ^ u == inject_Z (2 ^ (u - k)) * 2 ^ k.
Proof.
  intros H. rewrite <- (two_inject (u - k)) by lia.
  rewrite <- Qpower_plus by (intros E; discriminate E).
  replace (u - k + k)%Z with u by lia. reflexivity.
Qed.

Lemma roundPos_nonneg (a : Q) : 0 <= a -> 0 <= roundPos a.
Proof.
  intros H. unfold roundPos.
  pose proof (grid_below a (ulpExp a) 0) as G.
  rewrite Qmult_0_l in G. apply G. exact H.
Qed.

Lemma roundPos_lower (a : Q) :
  0 < a -> (ulpExp a <= ilog2 a)%Z -> 2 ^ ilog2 a <= roundPos a.
Proof.
  intros Ha K. destruct (ilog2_spec a Ha) as [L _].
  unfold roundPos. rewrite (two_split (ilog2 a) (ulpExp a) K) at 1.
  apply grid_below. rewrite <- (two_split (ilog2 a) (ulpExp a) K). exact L.
Qed.

Lemma roundPos_upper (a : Q) (u : Z) :
  0 < a -> (ilog2 a + 1 <= u)%Z -> (ulpExp a <= u)%Z -> roundPos a <= 2 ^ u.
Proof.
  intros Ha E K. destruct (ilog2_spec a Ha) as [_ U].
  unfold roundPos. rewrite (two_split u (ulpExp a) K).
  apply grid_above. rewrite <- (two_split u (ulpExp a) K).
  apply Qlt_le_weak. apply Qlt_le_trans with (2 ^ (ilog2 a + 1)); [exact U | ].
  apply two_le, E.
Qed.

Lemma roundPos_mono (x y : Q) : 0 < x -> x <= y -> roundPos x <= roundPos y.
Proof.
  intros Hx Hxy. assert (Hy : 0 < y) by lra.
  pose proof (ilog2_mono x y Hx Hxy) as E.
  destruct (Z.eq_dec (ulpExp x) (ulpExp y)) as [K | K].
  - unfold roundPos. rewrite K. pose proof (two_pos (ulpExp y)) as P.
    apply Qmult_le_compat_r; [ | lra].
    rewrite <- Zle_Qle. apply rne_mono.
    apply Qmult_le_compat_r; [exact Hxy | ].
    apply Qlt_le_weak, Qinv_lt_0_compat, P.
  - assert (Ky : ulpExp y = (ilog2 y - 52)%Z) by (unfold ulpExp in *; lia).
    assert (Lt : (ilog2 x < ilog2 y)%Z) by (unfold ulpExp in *; lia).
    apply Qle_trans with (2 ^ ilog2 y).
    + apply roundPos_upper; [exact Hx | lia | unfold ulpExp in *; lia].
    + apply roundPos_lower; [exact Hy | lia].
Qed.

Lemma double_zero (q : Q) : q == 0 -> double q = 0.
Proof.
  intros H. unfold double. apply Qeq_bool_iff in H. rewrite H. reflexivity.
Qed.

Lemma double_pos (q : Q) : 0 < q -> double q = roundPos q.
Proof.
  intros H. unfold double.
  assert (N : Qeq_bool q 0 = false).
  { destruct (Qeq_bool q 0) eqn:E; [ | reflexivity].
    apply Qeq_bool_iff in E. lra. }
  assert (P : Qle_bool 0 q = true) by (apply Qle_bool_iff; lra).
  rewrite N, P. reflexivity.
Qed.

Lemma double_neg (q : Q) : q < 0 -> double q = - roundPos (- q).
Proof.
  intros H. unfold double.
  assert (N : Qeq_bool q 0 = false).
  { destruct (Qeq_bool q 0) eqn:E; [ | reflexivity].
    apply Qeq_bool_iff in E. lra. }
  assert (P : Qle_bool 0 q = false).
  { destruct (Qle_bool 0 q) eqn:E; [ | reflexivity].
    apply Qle_bool_iff in E. lra. }
  rewrite N, P. reflexivity.
Qed.

Lemma Qsign_cases (q : Q) : q < 0 \/ q == 0 \/ 0 < q.
Proof.
  destruct (Qlt_le_dec q 0) as [H | H]; [left; exact H | right].
  destruct (Qeq_dec q 0) as [E | E]; [left; exact E | right; lra].
Qed.

(** Rounding is monotone. *)
Lemma double_mono (x y : Q) : x <= y -> double x <= double y.
Proof.
  intros H.
  destruct (Qsign_cases x) as [X | [X | X]];
    destruct (Qsign_cases y) as [Y | [Y | Y]]; try lra;
    rewrite ?(double_neg x X), ?(double_zero x X), ?(double_pos x X),
            ?(double_neg y Y), ?(double_zero y Y), ?(double_pos y Y).
  - assert (R : roundPos (- y) <= roundPos (- x))
      by (apply roundPos_mono; lra).
    lra.
  - pose proof (roundPos_nonneg (- x)). lra.
  - pose proof (roundPos_nonneg (- x)). pose proof (roundPos_nonneg y). lra.
  - lra.
  - apply roundPos_nonneg. lra.
  - apply roundPos_mono; assumption.
Qed.

Lemma double_comp (x y : Q) : x == y -> double x == double y.
Proof.
  intros H. apply Qle_antisym; apply double_mono; rewrite H; apply Qle_refl.
Qed.

#[export] Instance double_Proper : Proper (Qeq ==> Qeq) double.
Proof. intros x y H. apply double_comp, H. Qed.

Lemma double_opp (q : Q) : double (- q) == - double q.
Proof.
  destruct (Qsign_cases q) as [X | [X | X]].
  - rewrite (double_neg q X), (double_pos (- q)) by lra. ring.
  - rewrite (double_zero q X), (double_zero (- q)) by lra. reflexivity.
  - rewrite (double_pos q X), (double_neg (- q)) by lra.
    assert (E : - - q == q) by ring.
    assert (R : roundPos (- - q) == roundPos q).
    { rewrite <- (double_pos (- - q)) by lra. rewrite <- (double_pos q X).
      apply double_comp, E. }
    rewrite R. reflexivity.
Qed.

Lemma double_nonneg (q : Q) : 0 <= q -> 0 <= double q.
Proof.
  intros H. rewrite <- (double_zero 0) by reflexivity.
  apply double_mono, H.
Qed.

Lemma double_abs (q : Q) : Qabs (double q) == double (Qabs q).
Proof.
  destruct (Qlt_le_dec q 0) as [H | H].
  - assert (A : Qabs q == - q) by (apply Qabs_neg; lra).
    rewrite (double_comp _ _ A), double_opp.
    apply Qabs_neg.
    rewrite <- (double_zero 0) by reflexivity. apply double_mono. lra.
  - assert (A : Qabs q == q) by (apply Qabs_pos; exact H).
    rewrite (double_comp _ _ A). apply Qabs_pos, double_nonneg, H.
Qed.

(** A threshold that the exact magnitude reaches is reached by the rounded
    one. *)
Lemma double_reaches (t x : Q) : t <= Qabs x -> double t <= Qabs (double x).
Proof.
  intros H. rewrite double_abs. apply double_mono, H.
Qed.

(** Comparisons of constants. *)
Ltac qconst := vm_compute; first [reflexivity | discriminate].

Import Gallery.

(** *** Symbolic execution

    [open_world w] makes the fields of [w] explicit; [mred] then runs the
    monad and the DOM calls on it and reads the fields of the worlds and
    media elements that result. *)
Ltac open_world w :=
  destruct w as [wActive wPlaying wUpdates wLeft wRight wHandle wLast wVideos
                 wNextElem wVFC wVfcNext wVfcPending wRafNext wRafPending
                 wPlayNext wClock wTasks wEnded wLog];
  cbn [active isPlaying updates leftRef rightRef loopHandle justLoopedAt videos
       nextElem supportsVFC vfcNext vfcPending rafNext rafPending playNext
       clock tasks endedL log] in *;
  subst.

Ltac mred :=
  cbv beta iota zeta delta
    [exec bind ret gets modify emit video updVideo fst snd
     pause setPlaybackRate setCurrentTime load play seekTo spawn enqueue
     requestVideoFrameCallback cancelVideoFrameCallback
     requestAnimationFrame cancelAnimationFrame
     set_active set_isPlaying set_updates set_leftRef set_rightRef
     set_loopHandle set_justLoopedAt set_videos set_nextElem
     set_vfcNext set_vfcPending set_rafNext set_rafPending set_playNext
     set_clock set_tasks set_endedL set_log
     active isPlaying updates leftRef rightRef loopHandle justLoopedAt videos
     nextElem supportsVFC vfcNext vfcPending rafNext rafPending playNext clock
     tasks endedL log
     withReadyState withCurrentTime withPlaybackRate withDuration withErrored];
  cbn [readyState currentTime playbackRate duration errored].

(** [mred], through the loops over (explicit) lists of tasks, listeners
    and callbacks. *)
Ltac mrun :=
  repeat (progress
            (mred; cbn [forEach filter map fold_left applyUpdate taskReady
                        resume negb andb orb Bool.eqb kind id]));
  mred.

Lemma emitted_app (w w' : World) (k : list Action) :
  log w' = log w ++ k -> emitted w w' = k.
Proof. intros E. unfold emitted. rewrite E. apply skipn_app_exact. Qed.

Lemma emitted_refl (w : World) : emitted w w = [].
Proof. unfold emitted. apply skipn_all. Qed.

(** *** Invariants of monadic code

    [hoare P m Q]: from a world in [P], running [m] ends in a world in [Q];
    [keeps P m]: running [m] preserves [P]. *)

Definition hoare {A : Type} (P : World -> Prop) (m : M A) (Q : World -> Prop)
  : Prop :=
  forall w, P w -> Q (snd (m w)).

Definition keeps {A : Type} (P : World -> Prop) (m : M A) : Prop :=
  hoare P m P.

Lemma hoare_bind {A B : Type} (P Q R : World -> Prop) (m : M A) (k : A -> M B) :
  hoare P m Q -> (forall a, hoare Q (k a) R) -> hoare P (bind m k) R.
Proof.
  intros Hm Hk w H. unfold bind. specialize (Hm w H).
  destruct (m w) as [a w']. apply Hk, Hm.
Qed.

Lemma hoare_weaken {A : Type} (P P' Q Q' : World -> Prop) (m : M A) :
  (forall w, P' w -> P w) -> (forall w, Q w -> Q' w) ->
  hoare P m Q -> hoare P' m Q'.
Proof. intros HP HQ H w Hw. apply HQ, H, HP, Hw. Qed.

Lemma keeps_ret {A : Type} (P : World -> Prop) (a : A) : keeps P (ret a).
Proof. intros w H. exact H. Qed.

Lemma keeps_gets {A : Type} (P : World -> Prop) (f : World -> A) :
  keeps P (gets f).
Proof. intros w H. exact H. Qed.

Lemma keeps_bind {A B : Type} (P : World -> Prop) (m : M A) (k : A -> M B) :
  keeps P m -> (forall a, keeps P (k a)) -> keeps P (bind m k).
Proof. apply hoare_bind. Qed.

(** After [gets f] the value bound is [f] of a world in [P]. *)
Lemma keeps_bind_gets {A B : Type} (P : World -> Prop) (f : World -> A)
      (k : A -> M B) :
  (forall w0, P w0 -> keeps P (k (f w0))) -> keeps P (bind (gets f) k).
Proof. intros H w Hw. unfold bind, gets. cbn. apply (H w Hw w Hw). Qed.

Lemma keeps_modify (P : World -> Prop) (f : World -> World) :
  (forall w, P w -> P (f w)) -> keeps P (modify f).
Proof. intros Hf w H. apply Hf, H. Qed.

Lemma keeps_forEach {A : Type} (P : World -> Prop) (xs : list A)
      (f : A -> M unit) :
  (forall x, keeps P (f x)) -> keeps P (forEach xs f).
Proof.
  intros Hf. induction xs as [|x xs IH]; cbn [forEach].
  - apply keeps_ret.
  - apply keeps_bind; [apply Hf | intros _; exact IH].
Qed.

Lemma keeps_exec {A : Type} (P : World -> Prop) (m : M A) (w : World) :
  keeps P m -> P w -> P (exec m w).
Proof. intros Hm H. apply Hm, H. Qed.

(** Walks through a monadic term: [leaf] closes the goals [keeps P m] on
    [modify] and on the calls that have a lemma of their own, [open] unfolds
    the other calls. *)
Ltac keeps_walk leaf open :=
  repeat first
    [ leaf
    | match goal with
      | |- keeps _ (ret _) => apply keeps_ret
      | |- keeps _ (gets _) => apply keeps_gets
      | |- keeps _ (bind _ _) => apply keeps_bind; [ | intros ? ]
      | |- keeps _ (forEach _ _) => apply keeps_forEach; intros ?; cbv beta
      | |- keeps _ (match ?x with _ => _ end) => destruct x
      | |- keeps _ (let _ := _ in _) => cbv zeta
      end
    | open ].

(** ** The drift correction of one iteration *)

Module DriftCorrection.

(** What one iteration does when the reference is not near its end. *)
Lemma step_far (w : World) (c : Closure) (l r : elem) :
  leftRef w = Some l -> rightRef w = Some r ->
  nearEnd (videos w l) = false ->
  exec (step c) w = exec (scheduleStep c) (exec (correctDrift l r) w).
Proof.
  intros Hl Hr Hn. open_world w. unfold step. mred. rewrite Hn. mred.
  destruct (correctDrift l r _). reflexivity.
Qed.

(** Scheduling the next iteration touches no media element and logs one
    request. *)
Lemma scheduleStep_videos (c : Closure) (w : World) :
  videos (exec (scheduleStep c) w) = videos w.
Proof.
  open_world w. unfold scheduleStep. mred.
  destruct wLeft; destruct wVFC; reflexivity.
Qed.

Lemma scheduleStep_log (c : Closure) (w : World) :
  exists a, log (exec (scheduleStep c) w) = log w ++ [a] /\
            forall e, isRateWrite e a = false.
Proof.
  open_world w. unfold scheduleStep. mred.
  destruct wLeft; destruct wVFC;
    eexists; split; try reflexivity; intros; reflexivity.
Qed.

(** The thresholds, as the doubles the code compares with. *)
Lemma soft_below_hard : double SOFT <= double HARD.
Proof. apply double_mono. unfold SOFT, HARD. lra. Qed.

(** The three cases of the correction, on the difference the iteration
    computes. *)
Lemma correctDrift_snap (w : World) (l r : elem) :
  double HARD <=
    Qabs (double (currentTime (videos w r) - currentTime (videos w l))) ->
  let w' := exec (correctDrift l r) w in
  playbackRate (videos w' r) = 1 /\
  currentTime (videos w' r) = currentTime (videos w l) /\
  log w' = log w ++ [ASetRate r 1; ASetTime r (currentTime (videos w l))].
Proof.
  intros Hd. apply Qle_bool_iff in Hd. open_world w.
  unfold correctDrift. mred. rewrite Hd. mred. rewrite Nat.eqb_refl.
  rewrite <- app_assoc. cbn [app playbackRate currentTime].
  destruct (Nat.eqb l r); repeat split.
Qed.

(** A follower whose exact distance to the reference is at least 80ms is
    snapped: rounding cannot take the computed distance below the
    threshold. *)
Lemma correctDrift_hard (w : World) (l r : elem) :
  HARD <= Qabs (currentTime (videos w r) - currentTime (videos w l)) ->
  let w' := exec (correctDrift l r) w in
  playbackRate (videos w' r) = 1 /\
  currentTime (videos w' r) = currentTime (videos w l) /\
  log w' = log w ++ [ASetRate r 1; ASetTime r (currentTime (videos w l))].
Proof. intros Hd. apply correctDrift_snap, double_reaches, Hd. Qed.

Lemma correctDrift_soft (w : World) (l r : elem) :
  let diff := double (currentTime (videos w r) - currentTime (videos w l)) in
  double SOFT <= Qabs diff -> Qabs diff < double HARD ->
  playbackRate (videos (exec (correctDrift l r) w) r) =
  double (1 + double ((if Qltb diff 0 then 1 else -1) *
                      Qmin (double 0.05)
                           (Qmax (double 0.01)
                                 (double (Qabs diff * double 0.6))))).
Proof.
  intros diff Hs Hh. subst diff.
  apply Qle_bool_iff in Hs. apply Qle_bool_false_iff in Hh. open_world w.
  unfold correctDrift. mred. rewrite Hh, Hs. mred. rewrite Nat.eqb_refl.
  reflexivity.
Qed.

Lemma correctDrift_zero (w : World) (l r : elem) :
  Qabs (double (currentTime (videos w r) - currentTime (videos w l)))
    < double SOFT ->
  playbackRate (videos w r) == 1 ->
  exec (correctDrift l r) w = w.
Proof.
  intros Hd H1. pose proof soft_below_hard as SH.
  assert (Hh : Qle_bool (double HARD)
                 (Qabs (double (currentTime (videos w r) -
                                currentTime (videos w l))))
               = false)
    by (apply Qle_bool_false_iff; lra).
  apply Qle_bool_false_iff in Hd. apply Qeq_bool_iff in H1. open_world w.
  unfold correctDrift. mred. rewrite Hh, Hd, H1. reflexivity.
Qed.

(** C2. In an iteration where both handles exist, the reference is not near
    its end and the follower is at least [HARD] = 80ms away from the
    reference, the follower's rate is set to 1 and its position to the
    reference's position; these are the only two writes. *)
Theorem hard_threshold_snaps (w : World) (c : Closure) (l r : elem) :
  leftRef w = Some l -> rightRef w = Some r ->
  nearEnd (videos w l) = false ->
  HARD <= Qabs (currentTime (videos w r) - currentTime (videos w l)) ->
  let w' := exec (step c) w in
  playbackRate (videos w' r) = 1 /\
  currentTime (videos w' r) = currentTime (videos w l) /\
  exists a, emitted w w' =
            [ASetRate r 1; ASetTime r (currentTime (videos w l)); a].
Proof.
  intros Hl Hr Hn Hd w'. subst w'.
  rewrite (step_far w c l r Hl Hr Hn), scheduleStep_videos.
  destruct (correctDrift_hard w l r Hd) as [R [T L]].
  destruct (scheduleStep_log c (exec (correctDrift l r) w)) as [a [La _]].
  repeat split; [exact R | exact T | ].
  exists a. apply emitted_app. rewrite La, L, <- app_assoc. reflexivity.
Qed.

(** C2, the scenario of the specification: reference at 1.000s, follower at
    0.900s. *)
Lemma hard_threshold_snaps_witness :
  let w := run [ (50, Playback 0%nat 1.000); (50, Playback 1%nat 0.900) ]
               (mounted 0 true) in
  let w' := exec (step true) w in
  currentTime (videos w 0%nat) = 1.000 /\ currentTime (videos w 1%nat) = 0.900 /\
  playbackRate (videos w' 1%nat) = 1 /\
  currentTime (videos w' 1%nat) = 1.000 /\
  exists a, emitted w w' = [ASetRate 1%nat 1; ASetTime 1%nat 1.000; a].
Proof.
  split; [reflexivity | split; [reflexivity | ]].
  apply (hard_threshold_snaps
           (run [ (50, Playback 0%nat 1.000); (50, Playback 1%nat 0.900) ]
                (mounted 0 true)) true 0%nat 1%nat);
    vm_compute; first [reflexivity | discriminate].
Defined.

(** The clamp of the proportional correction, below the hard threshold. *)
Lemma clamp_bounds (x : Q) :
  Qabs x < double HARD ->
  let delta := Qmin (double 0.05)
                    (Qmax (double 0.01) (double (Qabs x * double 0.6))) in
  double 0.01 <= delta /\ delta <= 0.049.
Proof.
  intros H delta. subst delta.
  set (p := double (Qabs x * double 0.6)).
  assert (P : p <= double (double HARD * double 0.6)).
  { apply double_mono. apply Qmult_le_compat_r; [lra | qconst]. }
  assert (C1 : double 0.01 <= double 0.05) by qconst.
  assert (C2 : double (double HARD * double 0.6) <= 0.049) by qconst.
  assert (C3 : double 0.01 <= 0.049) by qconst.
  split.
  - apply Q.min_glb; [exact C1 | apply Q.le_max_l].
  - apply Qle_trans with (Qmax (double 0.01) p); [apply Q.le_min_r | ].
    apply Q.max_lub; lra.
Qed.

(** The two rates of the proportional correction. *)
Lemma rate_slower (delta : Q) :
  double 0.01 <= delta -> delta <= 0.049 ->
  let rate := double (1 + double (-1 * delta)) in
  0.95 <= rate /\ rate < 1.
Proof.
  intros Lo Hi rate. subst rate.
  assert (A : double (- 0.049) <= double (-1 * delta))
    by (apply double_mono; lra).
  assert (B : double (-1 * delta) <= double (- double 0.01))
    by (apply double_mono; lra).
  assert (A' : double (1 + double (- 0.049)) <= double (1 + double (-1 * delta)))
    by (apply double_mono; lra).
  assert (B' : double (1 + double (-1 * delta)) <=
               double (1 + double (- double 0.01)))
    by (apply double_mono; lra).
  assert (C1 : 0.95 <= double (1 + double (- 0.049))) by qconst.
  assert (C2 : double (1 + double (- double 0.01)) < 1) by qconst.
  split; lra.
Qed.

Lemma rate_faster (delta : Q) :
  double 0.01 <= delta -> delta <= 0.049 ->
  let rate := double (1 + double (1 * delta)) in
  1 < rate /\ rate <= 1.05.
Proof.
  intros Lo Hi rate. subst rate.
  assert (A : double (double 0.01) <= double (1 * delta))
    by (apply double_mono; lra).
  assert (B : double (1 * delta) <= double 0.049)
    by (apply double_mono; lra).
  assert (A' : double (1 + double (double 0.01)) <= double (1 + double (1 * delta)))
    by (apply double_mono; lra).
  assert (B' : double (1 + double (1 * delta)) <= double (1 + double 0.049))
    by (apply double_mono; lra).
  assert (C1 : 1 < double (1 + double (double 0.01))) by qconst.
  assert (C2 : double (1 + double 0.049) <= 1.05) by qconst.
  split; lra.
Qed.



Example follower_40ms_ahead_slows_down :
  let w := run [ (50, Playback 0%nat (double 1.000));
                 (50, Playback 1%nat (double 1.040)) ]
               (mounted 0 true) in
  playbackRate (videos (exec (step true) w) 1%nat) == double 0.976.
Proof. vm_compute. reflexivity. Qed.

Example follower_40ms_behind_speeds_up :
  let w := run [ (50, Playback 0%nat (double 1.000));
                 (50, Playback 1%nat (double 0.960)) ]
               (mounted 0 true) in
  playbackRate (videos (exec (step true) w) 1%nat) == double 1.024.
Proof. vm_compute. reflexivity. Qed.

(** On the threshold the computed difference decides, not the exact one:
    with the reference at 0.01s and the follower at 0.09s the subtraction
    gives the double 0.08 and the follower is snapped, though the exact
    distance of the two doubles is below 0.08; with 0.003s and 0.023s it
    gives the double 0.02 and the follower is slowed down to 0.988. *)
Example difference_rounds_onto_hard_threshold :
  let w := run [ (50, Playback 0%nat (double 0.01));
                 (50, Playback 1%nat (double 0.09)) ]
               (mounted 0 true) in
  let w' := exec (step true) w in
  Qabs (currentTime (videos w 1%nat) - currentTime (videos w 0%nat)) < 0.08 /\
  double (currentTime (videos w 1%nat) - currentTime (videos w 0%nat))
    == double HARD /\
  emitted w w' =
    [ASetRate 1%nat 1; ASetTime 1%nat (double 0.01); ARequestVFC 0%nat 2%nat].
Proof. vm_compute. repeat split; reflexivity. Qed.

Example difference_rounds_onto_soft_threshold :
  let w := run [ (50, Playback 0%nat (double 0.003));
                 (50, Playback 1%nat (double 0.023)) ]
               (mounted 0 true) in
  let w' := exec (step true) w in
  Qabs (currentTime (videos w 1%nat) - currentTime (videos w 0%nat)) < 0.02 /\
  double (currentTime (videos w 1%nat) - currentTime (videos w 0%nat))
    == double SOFT /\
  playbackRate (videos w' 1%nat) == double 0.988.
Proof. vm_compute. repeat split; reflexivity. Qed.

(** A synchronized restart leaves a follower that runs at the normal rate at
    the normal rate. *)
Lemma syncRestart_keeps_normal_rate (c : Closure) (w : World) (r : elem) :
  rightRef w = Some r ->
  playbackRate (videos w r) == 1 ->
  playbackRate (videos (exec (syncRestart c) w) r) == 1.
Proof.
  intros Hr H1. open_world w. unfold syncRestart. mred.
  destruct wLeft as [l|]; [ | exact H1].
  destruct c; cbn [negb]; [ | exact H1].
  destruct (Qltb (wClock - wLast) 200); [exact H1 | ].
  mred. rewrite Nat.eqb_refl.
  destruct (Nat.eqb r l); cbn [playbackRate]; reflexivity.
Qed.

(** With both handles in place a synchronized restart either goes through
    or changes nothing. *)
Lemma restart_or_noop (c : Closure) (w : World) (l r : elem) :
  leftRef w = Some l -> rightRef w = Some r ->
  performsRestart c w \/ restartIsNoop c w.
Proof.
  intros Hl Hr. unfold performsRestart, restartIsNoop, emitted.
  open_world w. unfold syncRestart. mred.
  destruct c; cbn [negb]; [ | right; reflexivity].
  destruct (Qltb (wClock - wLast) 200); [right; reflexivity | left].
  exists l, r. mred. rewrite <- !app_assoc. apply skipn_app_exact.
Qed.

(** C8, as the code has it.  In an iteration where the difference the
    iteration computes is less than [SOFT] = 20ms in magnitude and the
    follower already runs at rate 1, the rate is still 1 afterwards; unless
    the iteration performs a synchronized restart (the reference is near
    its end and [syncRestart] goes through), it writes no playback rate of
    the follower at all. *)
Theorem zero_error_keeps_rate (w : World) (c : Closure) (l r : elem) :
  leftRef w = Some l -> rightRef w = Some r ->
  Qabs (double (currentTime (videos w r) - currentTime (videos w l)))
    < double SOFT ->
  playbackRate (videos w r) == 1 ->
  let w' := exec (step c) w in
  playbackRate (videos w' r) == 1 /\
  (~ (nearEnd (videos w l) = true /\ performsRestart c w) ->
   playbackRate (videos w' r) = playbackRate (videos w r) /\
   existsb (isRateWrite r) (emitted w w') = false).
Proof.
  intros Hl Hr Hd H1 w'. subst w'.
  pose proof (correctDrift_zero w l r Hd H1) as Far.
  assert (Near : nearEnd (videos w l) = true ->
                 exec (step c) w =
                 exec (scheduleStep c) (exec (syncRestart c) w)).
  { intros Hn. clear Far Hd H1. open_world w. unfold step. mred.
    rewrite Hn. mred. destruct (syncRestart c _). reflexivity. }
  assert (Quiet : forall w0, exec (step c) w = exec (scheduleStep c) w0 ->
                    videos w0 = videos w -> log w0 = log w ->
                    playbackRate (videos (exec (step c) w) r) =
                      playbackRate (videos w r) /\
                    existsb (isRateWrite r) (emitted w (exec (step c) w)) = false).
  { intros w0 E V L. rewrite E, scheduleStep_videos, V.
    split; [reflexivity | ].
    destruct (scheduleStep_log c w0) as [a [La Na]].
    rewrite (emitted_app w _ [a]) by (rewrite La, L; reflexivity).
    cbn [existsb]. rewrite Na. reflexivity. }
  split.
  - destruct (nearEnd (videos w l)) eqn:Hn.
    + rewrite (Near eq_refl), scheduleStep_videos.
      apply syncRestart_keeps_normal_rate; assumption.
    + rewrite (step_far w c l r Hl Hr Hn), scheduleStep_videos, Far.
      exact H1.
  - intros N. destruct (nearEnd (videos w l)) eqn:Hn.
    + destruct (restart_or_noop c w l r Hl Hr) as [P | Z].
      * destruct N. split; [reflexivity | exact P].
      * unfold restartIsNoop in Z.
        apply (Quiet (exec (syncRestart c) w)); [apply Near; reflexivity | | ];
          rewrite Z; reflexivity.
    + apply (Quiet (exec (correctDrift l r) w));
        [apply (step_far w c l r Hl Hr Hn) | | ]; rewrite Far; reflexivity.
Qed.

Lemma zero_error_keeps_rate_witness :
  let w := run [ (50, Playback 0%nat (double 1.000));
                 (50, Playback 1%nat (double 1.010)) ]
               (mounted 0 true) in
  let w' := exec (step true) w in
  Qabs (double (currentTime (videos w 1%nat) - currentTime (videos w 0%nat)))
    < double SOFT /\
  playbackRate (videos w' 1%nat) == 1 /\
  (~ (nearEnd (videos w 0%nat) = true /\ performsRestart true w) ->
   playbackRate (videos w' 1%nat) = playbackRate (videos w 1%nat) /\
   existsb (isRateWrite 1%nat) (emitted w w') = false).
Proof.
  split; [qconst | ].
  apply (zero_error_keeps_rate
           (run [ (50, Playback 0%nat (double 1.000));
                  (50, Playback 1%nat (double 1.010)) ]
                (mounted 0 true)) true 0%nat 1%nat);
    qconst.
Defined.

(** A restart that is skipped writes nothing either: the reference is
    10ms from its end, but the iteration's closure saw the paused intent. *)
Example zero_error_skipped_restart_writes_nothing :
  let w := nearEndWorld in
  let w' := exec (step false) w in
  nearEnd (videos w 0%nat) = true /\
  emitted w w' = [ARequestVFC 0%nat 3%nat].
Proof. vm_compute. split; reflexivity. Qed.

(** C8 as stated fails, in two ways.  With the reference 10ms from its end
    the iteration performs a synchronized restart, which writes the
    follower's rate.  And away from the end, with the reference at 0.003s
    and the follower at 0.023s, the two doubles are less than 0.02 apart
    but their difference as the iteration computes it is the double 0.02:
    the follower's rate is set to 0.988. *)
Lemma zero_error_restart_writes_rate :
  (let w := nearEndWorld in
   let w' := exec (step true) w in
   leftRef w = Some 0%nat /\ rightRef w = Some 1%nat /\
   Qabs (currentTime (videos w 1%nat) - currentTime (videos w 0%nat)) < SOFT /\
   playbackRate (videos w 1%nat) == 1 /\
   emitted w w' =
     [ APause 0%nat; APause 1%nat; ASetRate 0%nat 1; ASetRate 1%nat 1;
       ASetTime 0%nat 0; ASetTime 1%nat 0; ARequestVFC 0%nat 3%nat ] /\
   existsb (isRateWrite 1%nat) (emitted w w') = true) /\
  (let w := run [ (50, Playback 0%nat (double 0.003));
                  (50, Playback 1%nat (double 0.023)) ]
                (mounted 0 true) in
   let w' := exec (step true) w in
   leftRef w = Some 0%nat /\ rightRef w = Some 1%nat /\
   nearEnd (videos w 0%nat) = false /\
   Qabs (currentTime (videos w 1%nat) - currentTime (videos w 0%nat)) < SOFT /\
   playbackRate (videos w 1%nat) == 1 /\
   emitted w w' = [ ASetRate 1%nat (double 0.988); ARequestVFC 0%nat 2%nat ] /\
   existsb (isRateWrite 1%nat) (emitted w w') = true /\
   ~ playbackRate (videos w' 1%nat) == 1).
Proof.
  split; vm_compute; repeat split; try reflexivity; discriminate.
Qed.

End DriftCorrection.

(** ** The loop coordinator *)

Module LoopCoordinator.

(** A restart that goes through stamps [justLoopedAt] with the time of its
    invocation; a restart that returns at once emits nothing. *)
Lemma performsRestart_stamps (c : Closure) (w : World) :
  performsRestart c w -> justLoopedAt (exec (syncRestart c) w) = clock w.
Proof.
  intros [l [r E]]. revert E. unfold emitted.
  assert (N : skipn (length (log w)) (log w) = restartSequence l r -> False)
    by (rewrite skipn_all; discriminate).
  revert N. open_world w. unfold syncRestart. mred. intros N.
  destruct wLeft; [ | intros E; destruct (N E)].
  destruct wRight; [ | intros E; destruct (N E)].
  destruct c; cbn [negb]; [ | intros E; destruct (N E)].
  destruct (Qltb (wClock - wLast) 200); [intros E; destruct (N E) | ].
  reflexivity.
Qed.

Lemma noop_not_performed (c : Closure) (w : World) :
  restartIsNoop c w -> ~ performsRestart c w.
Proof.
  unfold restartIsNoop, performsRestart, emitted. intros E [l [r H]].
  rewrite E, skipn_all in H. discriminate H.
Qed.

Section Debounce.

(** The times of two invocations of [syncRestart] less than 200ms apart. *)
Variables t1 t2 : Q.
Hypothesis window : t2 - t1 < 200.

(** The last restart was at [t1], and it is not yet later than [t2]. *)
Definition inWindow (w : World) : Prop :=
justLoopedAt w == t1 /\ clock w <= t2.

Lemma syncRestart_noop_inWindow (c : Closure) (w : World) :
inWindow w -> exec (syncRestart c) w = w.
Proof.
  intros [J K]. open_world w. unfold syncRestart. mred.
  destruct wLeft; [ | reflexivity].
  destruct wRight; [ | reflexivity].
  destruct c; [ | reflexivity]. cbn [negb].
  assert (E : Qltb (wClock - wLast) 200 = true)
    by (apply Qltb_iff; lra).
  rewrite E. reflexivity.
Qed.

Lemma window_kept_by_syncRestart (c : Closure) : keeps inWindow (syncRestart c).
Proof.
  intros w H. change (inWindow (exec (syncRestart c) w)).
  rewrite syncRestart_noop_inWindow; assumption.
Qed.

Ltac window_leaf :=
  idtac;
  match goal with
  | |- keeps _ (syncRestart _) => apply window_kept_by_syncRestart
  | |- keeps _ (modify _) =>
      apply keeps_modify; intros ? [? ?]; split; assumption
  end.

Ltac window_open :=
  progress unfold
    emit, video, updVideo, pause, setPlaybackRate, setCurrentTime, load, play,
    requestVideoFrameCallback, cancelVideoFrameCallback,
    requestAnimationFrame, cancelAnimationFrame, spawn, enqueue,
    cancelSyncLoop, scheduleStep, seekTo, syncRestart_seeked, correctDrift,
    step, startSyncLoop, waitReady, loadAndStart_settled, loadAndStart_ready,
    loadAndStart, activeEffect, activeCleanup, intentEffect, endedEffect,
    endedCleanup, togglePlay, remount, render, unmount, resume, wake, deliver,
    dispatch.

(** No event handled inside the window moves [justLoopedAt]. *)
Lemma window_kept_by_dispatch (ev : Event) : keeps inWindow (dispatch ev ;; wake).
Proof.
  destruct ev; keeps_walk window_leaf window_open.
Qed.

Lemma run_inWindow (evs : list (Q * Event)) (w : World) :
Forall (fun te => fst te <= t2) evs ->
justLoopedAt w == t1 ->
justLoopedAt (run evs w) == t1.
Proof.
  revert w. induction evs as [|[t ev] evs IH]; intros w B J; cbn [run].
  - exact J.
  - inversion B as [|? ? Bt Bs]; subst. cbn [fst] in Bt.
    apply IH; [exact Bs | ].
    assert (K : inWindow (snd (modify (set_clock t) w)))
      by (split; [exact J | exact Bt]).
    apply (window_kept_by_dispatch ev) in K. apply K.
Qed.

(** C5. Two invocations of [syncRestart] at times [t1] and [t2] less than
    200ms apart, with any events of the browser handled in between: when the
    first goes through with the restart, the second returns without doing
    anything; so at most one of the two performs the restart. *)
Theorem syncRestart_debounced (w : World) (c1 c2 : Closure)
      (evs : list (Q * Event)) :
Forall (fun te => fst te <= t2) evs ->
let wa := set_clock t1 w in
let wb := set_clock t2 (run evs (exec (syncRestart c1) wa)) in
(performsRestart c1 wa -> restartIsNoop c2 wb) /\
~ (performsRestart c1 wa /\ performsRestart c2 wb).
Proof.
  intros B wa wb.
  assert (Noop : performsRestart c1 wa -> restartIsNoop c2 wb).
  { intros P. apply syncRestart_noop_inWindow. split.
    - apply run_inWindow; [exact B | ].
      rewrite (performsRestart_stamps c1 wa P). reflexivity.
    - apply Qle_refl. }
  split; [exact Noop | ].
  intros [P1 P2]. exact (noop_not_performed c2 wb (Noop P1) P2).
Qed.

End Debounce.

(** C5 on the loop boundary: the proximity check restarts at 1000ms, the
    [ended] events of both streams follow within 100ms; they restart
    nothing. *)
Lemma syncRestart_debounced_witness :
  let evs := [ (1005, Seeked 0%nat); (1006, Seeked 1%nat);
               (1050, Ended 0%nat); (1060, Ended 1%nat) ] in
  let wa := set_clock 1000 nearEndWorld in
  let wb := set_clock 1100 (run evs (exec (syncRestart true) wa)) in
  performsRestart true wa /\
  (performsRestart true wa -> restartIsNoop true wb) /\
  ~ (performsRestart true wa /\ performsRestart true wb).
Proof.
  split.
  - exists 0%nat, 1%nat. vm_compute. reflexivity.
  - apply (syncRestart_debounced 1000 1100).
    + vm_compute. reflexivity.
    + repeat constructor; vm_compute; discriminate.
Defined.

(** The rest of a restart that went through: once both seeks have
    completed, [play()] is requested on both streams. *)
Example restart_replays_after_seeks :
  let w := exec (syncRestart true) (set_clock 1000 nearEndWorld) in
  let w' := run [ (1005, Seeked 0%nat); (1006, Timeupdate 1%nat) ] w in
  tasks w = [RestartAwaitSeek 0%nat 1%nat false false] /\
  emitted w w' = [APlay 0%nat 4%nat; APlay 1%nat 5%nat] /\ tasks w' = [].
Proof. vm_compute. repeat split; reflexivity. Qed.

(** An invocation that returns at once because the intent it sees is
    paused does not stamp [justLoopedAt]: it opens no window, and an
    invocation 100ms later goes through. *)
Example skipped_restart_opens_no_window :
  let wa := set_clock 1000 nearEndWorld in
  let wb := set_clock 1100 (exec (syncRestart false) wa) in
  restartIsNoop false wa /\ performsRestart true wb.
Proof.
  split; [reflexivity | ]. exists 0%nat, 1%nat. vm_compute. reflexivity.
Qed.

End LoopCoordinator.

(** ** The pair lifecycle *)

Module PairLifecycle.

(** Once both streams are ready, an activation that shall play requests
    [play()] on both, back to back, and waits for the two promises;
    nothing else changes. *)
Lemma ready_requests_both (w : World) (l r : elem) (c : Closure) :
  exec (loadAndStart_ready l r true c) w =
  set_tasks (tasks w ++ [LoadAwaitPlay (playNext w) (S (playNext w)) None None c])
    (set_log (log w ++ [APlay l (playNext w); APlay r (S (playNext w))])
       (set_playNext (S (S (playNext w))) w)).
Proof.
  open_world w. unfold loadAndStart_ready. cbn [negb]. mred.
  rewrite <- app_assoc. reflexivity.
Qed.

Lemma settled_both_ok (w : World) (c : Closure) :
  exec (loadAndStart_settled true true c) w = exec (startSyncLoop c) w.
Proof. reflexivity. Qed.

Lemma settled_failed (w : World) (okL okR : bool) (c : Closure) :
  okL && okR = false ->
  exec (loadAndStart_settled okL okR c) w =
  set_updates (updates w ++ [SetIsPlaying false]) w.
Proof. destruct okL, okR; try discriminate; reflexivity. Qed.

(** What the settlement of a [play()] promise does: the tasks hear of it,
    and those that have everything they waited for continue. *)
Lemma handle_PlaySettled (w : World) (t : Q) (q : nat) (ok : bool) :
  exec (handle t (PlaySettled q ok)) w =
  exec (forEach (filter taskReady (map (onPlaySettled q ok) (tasks w))) resume)
       (set_tasks (filter (fun x => negb (taskReady x))
                          (map (onPlaySettled q ok) (tasks w)))
                  (set_clock t w)).
Proof.
  open_world w. unfold handle, dispatch, deliver, wake. mred.
  destruct (forEach _ resume _). reflexivity.
Qed.

Lemma bystanders_unmoved (p q : nat) (ok : bool) (ts : list Task) :
  Forall (bystander p) ts -> (p <= q)%nat ->
  map (onPlaySettled q ok) ts = ts.
Proof.
  intros F L. induction F as [|x ts [_ H] _ IH]; cbn [map].
  - reflexivity.
  - rewrite (H q ok L), IH. reflexivity.
Qed.

Lemma bystanders_wait (p : nat) (ts : list Task) :
  Forall (bystander p) ts ->
  filter taskReady ts = [] /\ filter (fun x => negb (taskReady x)) ts = ts.
Proof.
  intros F. induction F as [|x ts [H _] _ [IH1 IH2]]; cbn [filter].
  - split; reflexivity.
  - rewrite H. cbn [negb]. rewrite IH1, IH2. split; reflexivity.
Qed.

(** The world in which the suspended activation continues once both
    promises are settled. *)
Lemma settleBoth_resumes (w : World) (first : bool) (ta tb : Q) (pl : nat)
      (okL okR : bool) (c : Closure) (ts : list Task) :
  tasks w = ts ++ [LoadAwaitPlay pl (S pl) None None c] ->
  Forall (bystander pl) ts ->
  run (settleBoth first ta tb pl (S pl) okL okR) w =
  exec (loadAndStart_settled okL okR c) (set_tasks ts (set_clock tb w)).
Proof.
  intros T F.
  assert (E1 : Nat.eqb pl (S pl) = false) by (apply Nat.eqb_neq; lia).
  assert (E2 : Nat.eqb (S pl) pl = false) by (apply Nat.eqb_neq; lia).
  destruct (bystanders_wait pl ts F) as [W1 W2].
  assert (U : forall q ok, (q = pl \/ q = S pl) ->
                map (onPlaySettled q ok) ts = ts)
    by (intros q ok [-> | ->]; apply (bystanders_unmoved pl); auto).
  destruct first; unfold settleBoth; cbn [run];
    rewrite !handle_PlaySettled; open_world w;
    cbn [tasks set_tasks set_clock];
    rewrite !map_app, !filter_app, !U, ?W1, ?W2 by auto;
    cbn [map onPlaySettled settle filter taskReady negb forEach app];
    rewrite ?Nat.eqb_refl, ?E1, ?E2;
    cbn [map onPlaySettled settle filter taskReady negb forEach app exec ret snd
         tasks set_tasks set_clock];
    rewrite ?map_app, ?filter_app, ?U, ?W1, ?W2 by auto;
    cbn [map onPlaySettled settle filter taskReady negb forEach app];
    rewrite ?Nat.eqb_refl, ?E1, ?E2;
    cbn [map onPlaySettled settle filter taskReady negb forEach app resume];
    rewrite ?app_nil_r; mred;
    destruct (loadAndStart_settled okL okR c _); reflexivity.
Qed.

(** What starting the loop does: one cancellation if a handle is held, then
    one request, whose handle is kept. *)
Lemma startSyncLoop_requests (w : World) (c : Closure) :
  let w' := exec (startSyncLoop c) w in
  loopHandle w' <> None /\
  existsb isRequest (emitted w w') = true /\
  updates w' = updates w.
Proof.
  open_world w. unfold startSyncLoop, cancelSyncLoop, scheduleStep, emitted.
  destruct wHandle as [[[|] i]|], wLeft, wVFC; mrun;
    (split; [discriminate | split; [ | reflexivity]]);
    rewrite <- ?app_assoc, skipn_app_exact; reflexivity.
Qed.

(** The effect of a commit that takes the intent from playing to paused. *)
Lemma render_fallback (w : World) (tc : Q) (l r : elem) (p : nat) :
  isPlaying w = true -> updates w = [SetIsPlaying false] ->
  Forall (bystander p) (tasks w) ->
  leftRef w = Some l -> rightRef w = Some r ->
  let w' := run [(tc, Render)] w in
  isPlaying w' = false /\ loopHandle w' = None /\
  existsb isRequest (emitted w w') = false.
Proof.
  intros P U T Hl Hr. destruct (bystanders_wait p _ T) as [W1 W2].
  open_world w. cbn [run].
  unfold handle, dispatch, render, wake, endedCleanup, intentEffect,
    endedEffect, cancelSyncLoop, emitted.
  assert (A : Nat.eqb wActive wActive = true) by apply Nat.eqb_refl.
  destruct wHandle as [[[|] i]|], wVFC; mrun; rewrite A; mrun;
    rewrite W1, W2; mrun;
    repeat split; rewrite <- ?app_assoc, skipn_app_exact; reflexivity.
Qed.

(** C6. A pair activation that shall play, once both streams are ready:
    [play()] is requested on both before either promise is awaited; when
    both promises resolve the sync loop is started; when one of them rejects
    the continuation schedules nothing and asks for the paused intent, which
    the next commit makes the state, with no iteration handle left. *)
Theorem autoplay_needs_both_plays (w : World) (l r : elem) (c : Closure)
        (first : bool) (ta tb tc : Q) (okL okR : bool) :
  Forall (bystander (playNext w)) (tasks w) ->
  updates w = [] -> isPlaying w = true ->
  leftRef w = Some l -> rightRef w = Some r ->
  let w1 := exec (loadAndStart_ready l r true c) w in
  let w2 := run (settleBoth first ta tb (playNext w) (S (playNext w)) okL okR) w1 in
  let w3 := run [(tc, Render)] w2 in
  emitted w w1 = [APlay l (playNext w); APlay r (S (playNext w))] /\
  (okL && okR = true ->
     w2 = exec (startSyncLoop c) (set_tasks (tasks w) (set_clock tb w1)) /\
     loopHandle w2 <> None /\
     existsb isRequest (emitted w1 w2) = true /\
     updates w2 = []) /\
  (okL && okR = false ->
     emitted w1 w2 = [] /\ loopHandle w2 = loopHandle w /\
     vfcPending w2 = vfcPending w /\ rafPending w2 = rafPending w /\
     updates w2 = [SetIsPlaying false] /\
     isPlaying w3 = false /\ loopHandle w3 = None /\
     existsb isRequest (emitted w1 w3) = false).
Proof.
  intros T U P Hl Hr w1 w2 w3.
  pose proof (ready_requests_both w l r c) as E1. fold w1 in E1.
  assert (R2 : w2 = exec (loadAndStart_settled okL okR c)
                          (set_tasks (tasks w) (set_clock tb w1)))
    by (apply settleBoth_resumes; [rewrite E1; reflexivity | exact T]).
  split; [ | split].
  - apply emitted_app. rewrite E1. reflexivity.
  - intros Ok. apply andb_true_iff in Ok. destruct Ok as [-> ->].
    rewrite settled_both_ok in R2. split; [exact R2 | ].
    destruct (startSyncLoop_requests (set_tasks (tasks w) (set_clock tb w1)) c)
      as [H [Q V]].
    rewrite <- R2 in H, Q, V.
    split; [exact H | split; [exact Q | ]].
    rewrite V, E1. exact U.
  - intros Ko. rewrite (settled_failed _ okL okR c Ko) in R2.
    assert (F : w2 = set_updates [SetIsPlaying false]
                       (set_tasks (tasks w) (set_clock tb w1)))
      by (rewrite R2, E1; cbn [updates set_tasks set_clock set_log set_playNext];
          rewrite U; reflexivity).
    assert (L12 : log w2 = log w1) by (rewrite F; reflexivity).
    destruct (render_fallback w2 tc l r (playNext w)) as [I3 [H3 Q3]];
      try (rewrite F, E1; first [reflexivity | assumption]).
    fold w3 in I3, H3, Q3.
    repeat split; try assumption; try (rewrite F, E1; reflexivity).
    + unfold emitted. rewrite L12. apply skipn_all.
    + unfold emitted in *. rewrite <- L12. exact Q3.
Qed.

(** C6, the scenario of the specification: pair 0 is activated with
    autoplay, the follower's [play()] rejects. *)
Lemma autoplay_needs_both_plays_witness :
  let w := readyWorld in
  let w1 := exec (loadAndStart_ready 0%nat 1%nat true true) w in
  let w2 := run (settleBoth true 12 13 (playNext w) (S (playNext w)) true false) w1 in
  let w3 := run [(14, Render)] w2 in
  (Forall (bystander (playNext w)) (tasks w) /\ updates w = [] /\
   isPlaying w = true /\
   leftRef w = Some 0%nat /\ rightRef w = Some 1%nat) /\
  emitted w w1 = [APlay 0%nat 2%nat; APlay 1%nat 3%nat] /\
  emitted w1 w2 = [] /\ isPlaying w3 = false /\ loopHandle w3 = None /\
  scheduled w3 = 0%nat.
Proof.
  assert (B : Forall (bystander (playNext readyWorld)) (tasks readyWorld))
    by (vm_compute; constructor).
  split; [split; [exact B | repeat split] | ].
  destruct (autoplay_needs_both_plays readyWorld 0%nat 1%nat true true 12 13 14
              true false B eq_refl eq_refl eq_refl eq_refl) as [E [_ F]].
  destruct (F eq_refl) as [E2 [_ [_ [_ [_ [I3 [H3 _]]]]]]].
  split; [exact E | split; [exact E2 | split; [exact I3 | split; [exact H3 | ]]]].
  vm_compute. reflexivity.
Defined.

End PairLifecycle.

(** ** The initially active pair *)

Module InitialPair.

Lemma toIndex_integer (q : Q) (z : Z) :
  q == inject_Z z -> (0 <= z)%Z -> toIndex (Fin q) = Some (Z.to_nat z).
Proof.
  intros E Hz. unfold toIndex.
  assert (D : (Qnum q / Z.pos (Qden q))%Z = z).
  { unfold Qeq in E. cbn in E. rewrite Z.mul_1_r in E. rewrite E.
    apply Z.div_mul. discriminate. }
  rewrite D.
  assert (B : Qeq_bool q (inject_Z z) = true) by (apply Qeq_bool_iff; exact E).
  rewrite B. cbn [andb].
  assert (L : (0 <=? z)%Z = true) by (apply Z.leb_le; exact Hz).
  rewrite L. reflexivity.
Qed.

(** The clamp, on a finite index and a non-empty sequence. *)
Lemma clamp_finite (n : nat) (q : Q) :
  (0 < n)%nat ->
  exists q', JsNumber.min (JsNumber.max (Fin q) (Fin 0))
                          (sub (ofNat n) (Fin 1)) = Fin q' /\
             0 <= q' /\ q' <= inject_Z (Z.of_nat n) - 1 /\
             (q' = q \/ q' = 0 \/ q' = inject_Z (Z.of_nat n) - 1).
Proof.
  intros Hn.
  assert (N : 0 <= inject_Z (Z.of_nat n) - 1).
  { unfold Qle, Qminus, Qplus, inject_Z. cbn. lia. }
  unfold JsNumber.max, JsNumber.min, sub, ofNat. cbn [leb].
  destruct (Qle_bool q 0) eqn:A.
  - cbn [leb]. destruct (Qle_bool 0 (inject_Z (Z.of_nat n) - 1)) eqn:B.
    + exists 0. repeat split; auto; lra.
    + apply Qle_bool_false_iff in B. lra.
  - apply Qle_bool_false_iff in A. cbn [leb].
    destruct (Qle_bool q (inject_Z (Z.of_nat n) - 1)) eqn:B.
    + apply Qle_bool_iff in B. exists q. repeat split; auto; lra.
    + exists (inject_Z (Z.of_nat n) - 1). repeat split; auto; lra.
Qed.

(** The clamp moves what lies outside the range onto a bound and keeps what
    lies inside. *)
Lemma clamp_cases (n : nat) (q : Q) :
  (0 < n)%nat ->
  let c := JsNumber.min (JsNumber.max (Fin q) (Fin 0))
                        (sub (ofNat n) (Fin 1)) in
  (q <= 0 -> c = Fin 0) /\
  (0 < q -> q <= inject_Z (Z.of_nat n) - 1 -> c = Fin q) /\
  (inject_Z (Z.of_nat n) - 1 < q -> c = Fin (inject_Z (Z.of_nat n) - 1)).
Proof.
  intros Hn c. subst c.
  assert (N : 0 <= inject_Z (Z.of_nat n) - 1).
  { unfold Qle, Qminus, Qplus, inject_Z. cbn. lia. }
  assert (N' : Qle_bool 0 (inject_Z (Z.of_nat n) - 1) = true)
    by (apply Qle_bool_iff; exact N).
  unfold JsNumber.max, JsNumber.min, sub, ofNat. cbn [leb].
  split; [ | split].
  - intros A. apply Qle_bool_iff in A. rewrite A. cbn [leb]. rewrite N'.
    reflexivity.
  - intros A B. apply Qltb_iff in A. unfold Qltb in A.
    apply negb_true_iff in A. rewrite A. cbn [leb].
    apply Qle_bool_iff in B. rewrite B. reflexivity.
  - intros B.
    assert (A : Qle_bool q 0 = false) by (apply Qle_bool_false_iff; lra).
    rewrite A. cbn [leb].
    assert (B' : Qle_bool q (inject_Z (Z.of_nat n) - 1) = false)
      by (apply Qle_bool_false_iff; exact B).
    rewrite B'. reflexivity.
Qed.

Lemma pair_at (Pair : Type) (pairs : list Pair) (q : Q) (z : Z) :
  q == inject_Z z -> (0 <= z < Z.of_nat (length pairs))%Z ->
  exists p, activePair pairs (Fin q) = Some p /\ In p pairs.
Proof.
  intros E B. unfold activePair. rewrite (toIndex_integer q z E) by lia.
  destruct (nth_error pairs (Z.to_nat z)) as [p|] eqn:Nth.
  - exists p. split; [reflexivity | eapply nth_error_In; exact Nth].
  - apply nth_error_None in Nth. lia.
Qed.

(** C9, as the code has it.  For a non-empty sequence of pairs: whatever
    number [initialIndex] is, NaN apart, the initially active index lies
    between 0 and [pairs.length - 1]; the initially active pair is an
    element of the sequence unless [initialIndex] is NaN or a non-integer
    strictly between 0 and [pairs.length - 1], and in these two cases there
    is no active pair. *)
Theorem initial_index_clamped (Pair : Type) (pairs : list Pair)
        (initialIndex : option number) :
  pairs <> [] ->
  let a := initialActive pairs initialIndex in
  (initialIndex <> Some NaN ->
     leb (Fin 0) a = true /\
     leb a (sub (ofNat (length pairs)) (Fin 1)) = true) /\
  (initialIndex <> Some NaN -> ~ betweenIndices pairs initialIndex ->
     exists p, activePair pairs a = Some p /\ In p pairs) /\
  (initialIndex = Some NaN \/ betweenIndices pairs initialIndex ->
     activePair pairs a = None).
Proof.
  intros Ne a.
  assert (Hn : (0 < length pairs)%nat)
    by (destruct pairs; [congruence | cbn; lia]).
  assert (N : 0 <= inject_Z (Z.of_nat (length pairs)) - 1).
  { unfold Qle, Qminus, Qplus, inject_Z. cbn. lia. }
  assert (N' : Qle_bool 0 (inject_Z (Z.of_nat (length pairs)) - 1) = true)
    by (apply Qle_bool_iff; exact N).
  assert (Fq : forall q,
             leb (Fin 0) (JsNumber.min (JsNumber.max (Fin q) (Fin 0))
                            (sub (ofNat (length pairs)) (Fin 1))) = true /\
             leb (JsNumber.min (JsNumber.max (Fin q) (Fin 0))
                    (sub (ofNat (length pairs)) (Fin 1)))
                 (sub (ofNat (length pairs)) (Fin 1)) = true).
  { intros q. destruct (clamp_finite (length pairs) q Hn) as [q' [-> [Lo [Hi _]]]].
    unfold sub, ofNat. cbn [leb]. split; apply Qle_bool_iff; assumption. }
  assert (First : exists p, activePair pairs (Fin 0) = Some p /\ In p pairs).
  { apply (pair_at Pair pairs 0 0%Z); [reflexivity | lia]. }
  assert (Last : exists p,
             activePair pairs (Fin (inject_Z (Z.of_nat (length pairs)) - 1))
               = Some p /\ In p pairs).
  { apply (pair_at Pair pairs _ (Z.of_nat (length pairs) - 1)%Z); [ | lia].
    unfold Qeq, Qminus, Qplus, inject_Z. cbn. lia. }
  assert (Mem : forall q,
             ~ betweenIndices pairs (Some (Fin q)) ->
             exists p, activePair pairs
                         (JsNumber.min (JsNumber.max (Fin q) (Fin 0))
                            (sub (ofNat (length pairs)) (Fin 1))) = Some p /\
                       In p pairs).
  { intros q NB.
    destruct (clamp_cases (length pairs) q Hn) as [Below [Inside Above]].
    destruct (Qlt_le_dec 0 q) as [Pos | NonPos];
      [ | rewrite (Below NonPos); exact First].
    destruct (Qlt_le_dec (inject_Z (Z.of_nat (length pairs)) - 1) q)
      as [Over | Within]; [rewrite (Above Over); exact Last | ].
    rewrite (Inside Pos Within).
    destruct (Qle_lt_or_eq _ _ Within) as [Strict | Top];
      [ | apply (pair_at Pair pairs q (Z.of_nat (length pairs) - 1)%Z);
          [rewrite Top; unfold Qeq, Qminus, Qplus, inject_Z; cbn; lia | lia] ].
    destruct (isInteger (Fin q)) eqn:I.
    - cbn [isInteger] in I. apply Qeq_bool_iff in I.
      apply (pair_at Pair pairs q (Qnum q / Z.pos (Qden q))%Z I).
      rewrite I in Pos, Strict.
      unfold Qlt, Qminus, Qplus, inject_Z in Pos, Strict. cbn in Pos, Strict.
      lia.
    - destruct NB. cbn [betweenIndices]. repeat split; assumption. }
  subst a. unfold initialActive. split; [ | split].
  - intros NotNaN. destruct initialIndex as [[ | | | q]|].
    + congruence.
    + unfold JsNumber.max, JsNumber.min, sub, ofNat. cbn [leb].
      split; [exact N' | apply Qle_bool_iff, Qle_refl].
    + unfold JsNumber.max. cbn [leb]. apply (Fq 0).
    + apply Fq.
    + apply Fq.
  - intros NotNaN NB. destruct initialIndex as [[ | | | q]|].
    + congruence.
    + unfold JsNumber.max, JsNumber.min, sub, ofNat. cbn [leb]. exact Last.
    + unfold JsNumber.max. cbn [leb]. apply (Mem 0).
      cbn [betweenIndices]. intros [_ [P _]]. lra.
    + apply Mem, NB.
    + apply (Mem 0). cbn [betweenIndices]. intros [_ [P _]]. lra.
  - intros [-> | B]; [reflexivity | ].
    destruct initialIndex as [[ | | | q]|]; cbn [betweenIndices] in B;
      try contradiction.
    destruct B as [I [Pos Strict]].
    destruct (clamp_cases (length pairs) q Hn) as [_ [Inside _]].
    rewrite (Inside Pos (Qlt_le_weak _ _ Strict)).
    unfold activePair, toIndex. cbn [isInteger] in I. rewrite I. reflexivity.
Qed.

Lemma initial_index_clamped_witness :
  let pairs := [10%nat; 20%nat; 30%nat] in
  let a := initialActive pairs (Some (Fin 7)) in
  pairs <> [] /\ a = Fin 2 /\
  (Some (Fin 7) <> Some NaN ->
     leb (Fin 0) a = true /\
     leb a (sub (ofNat (length pairs)) (Fin 1)) = true) /\
  (Some (Fin 7) <> Some NaN -> ~ betweenIndices pairs (Some (Fin 7)) ->
     exists p, activePair pairs a = Some p /\ In p pairs) /\
  (Some (Fin 7) = Some NaN \/ betweenIndices pairs (Some (Fin 7)) ->
     activePair pairs a = None).
Proof.
  split; [discriminate | split; [reflexivity | ]].
  apply (initial_index_clamped nat [10%nat; 20%nat; 30%nat] (Some (Fin 7))).
  discriminate.
Defined.

(** What the clamp moves to a bound is an element: an infinite index, and a
    fraction outside the range; a fraction inside the range is not. *)
Example clamp_reaches_a_pair_from_outside :
  let three := [10%nat; 20%nat; 30%nat] in
  activePair three (initialActive three (Some PosInf)) = Some 30%nat /\
  activePair three (initialActive three (Some NegInf)) = Some 10%nat /\
  activePair three (initialActive three (Some (Fin 2.5))) = Some 30%nat /\
  activePair three (initialActive three (Some (Fin (-0.5)))) = Some 10%nat /\
  activePair three (initialActive three (Some (Fin 1.5))) = None.
Proof. vm_compute. repeat split; reflexivity. Qed.

(** C9 as stated fails: on the empty sequence the active index is -1; a
    fractional index stays fractional and a NaN stays NaN, and none of these
    reads a pair. *)
Lemma initial_index_not_always_in_range :
  let none : list nat := [] in
  let two := [10%nat; 20%nat] in
  (initialActive none None = Fin (-1) /\
   leb (Fin 0) (initialActive none None) = false /\
   activePair none (initialActive none None) = None) /\
  (initialActive two (Some (Fin 0.5)) = Fin 0.5 /\
   activePair two (initialActive two (Some (Fin 0.5))) = None) /\
  (initialActive two (Some NaN) = NaN /\
   leb (Fin 0) (initialActive two (Some NaN)) = false /\
   activePair two (initialActive two (Some NaN)) = None).
Proof. vm_compute. repeat split; reflexivity. Qed.

End InitialPair.

(** ** The loading-state-tracking variant *)

Module PairSwitch.

Import LoadingGallery.

(** A click on another thumbnail lands in the paused state: intent paused,
    both (new) elements paused at position zero, both loaded flags cleared. *)
Lemma switch_lands_paused (index : nat) (s : State) :
  index <> selectedIndex s ->
  let s' := clickThumbnail index s in
  selectedIndex s' = index /\ isPlaying s' = false /\
  loadedV1 s' = false /\ loadedV2 s' = false /\ bothPausedAtZero s'.
Proof.
  intros N. unfold clickThumbnail.
  apply Nat.eqb_neq in N. rewrite N. cbn.
  repeat split. exists (mkPlayer true 0), (mkPlayer true 0).
  repeat split.
Qed.

(** A click on the thumbnail of the selected pair runs the handler alone:
    the state is reset, the two elements are not touched. *)
Lemma reselect_runs_handler_only (s : State) :
  clickThumbnail (selectedIndex s) s = handleThumbnailClick (selectedIndex s) s.
Proof. unfold clickThumbnail. rewrite Nat.eqb_refl. reflexivity. Qed.

(** C10 at the failing input: pair 0 is playing, thumbnail 0 is clicked.
    The intent is reset to paused and the loaded flags are cleared, but both
    elements keep playing from where they are. *)
Theorem reselect_keeps_playing :
  let s' := clickThumbnail 0 playingState in
  selectedIndex playingState = 0%nat /\ isPlaying playingState = true /\
  isPlaying s' = false /\ loadedV1 s' = false /\ loadedV2 s' = false /\
  videoRef1 s' = Some (mkPlayer false 3.2) /\
  videoRef2 s' = Some (mkPlayer false 3.2) /\
  ~ bothPausedAtZero s'.
Proof.
  cbv zeta. repeat split.
  intros [v1 [v2 [E1 [_ [P1 _]]]]].
  vm_compute in E1. injection E1 as <-. discriminate P1.
Qed.

(** After that click the toggle is disabled and does nothing: the elements
    play on while the component shows the paused state. *)
Lemma reselect_then_toggle_is_stuck (res1 res2 : bool) :
  let s' := clickThumbnail 0 playingState in
  togglePlayPause res1 res2 s' = s'.
Proof. reflexivity. Qed.

(** The media error handler of this variant resolves the gate of its side:
    an error counts as loaded. *)
Lemma error_counts_as_loaded (s : State) :
  loadedV1 (handleVideoError 1 s) = true /\
  loadedV2 (handleVideoError 2 s) = true /\
  (loadedV1 (handleVideoError 1 (handleVideoError 2 s)) &&
   loadedV2 (handleVideoError 1 (handleVideoError 2 s)) = true).
Proof. repeat split. Qed.

End PairSwitch.


(** ** Cancellation of the sync loop *)

Module Cancellation.

(** The one call [cancelSyncLoop] makes when an iteration handle is held. *)
Lemma cancelSyncLoop_call (w : World) (h : Handle) :
  loopHandle w = Some h ->
  emitted w (exec cancelSyncLoop w) =
    [ match kind h, leftRef w with
      | vfc, Some l =>
          if supportsVFC w then ACancelVFC l (id h) else ACancelRAF (id h)
      | _, _ => ACancelRAF (id h)
      end ] /\
  loopHandle (exec cancelSyncLoop w) = None.
Proof.
  intros H. open_world w. unfold cancelSyncLoop, emitted.
  destruct h as [[|] i], wLeft, wVFC; mrun;
    split; try reflexivity; apply skipn_app_exact.
Qed.

(** With the left element in place the call matches the primitive that
    scheduled the iteration; it reaches the iteration when the element is
    the one the iteration was scheduled on. *)
Lemma cancelSyncLoop_matches_when_mounted (w : World) (l : elem) (i : nat) :
  leftRef w = Some l -> supportsVFC w = true ->
  loopHandle w = Some (mkHandle vfc i) ->
  emitted w (exec cancelSyncLoop w) = [ACancelVFC l i] /\
  vfcPending (exec cancelSyncLoop w) =
    filter (fun p => negb (Nat.eqb (fst (fst p)) l && Nat.eqb (snd (fst p)) i))
           (vfcPending w).
Proof.
  intros Hl Hc H. open_world w. unfold cancelSyncLoop, emitted.
  cbv beta iota zeta delta
    [exec bind ret gets modify emit cancelVideoFrameCallback snd kind id
     set_loopHandle set_vfcPending set_log
     active isPlaying updates leftRef rightRef loopHandle justLoopedAt videos
     nextElem supportsVFC vfcNext vfcPending rafNext rafPending playNext clock
     tasks endedL log].
  split; [apply skipn_app_exact | reflexivity].
Qed.

(** C7 at the failing input: the gallery is unmounted while the loop runs
    on video frame callbacks.  The pending iteration was requested with
    [requestVideoFrameCallback] on element 0; the cleanup, which finds the
    left ref cleared, calls [cancelAnimationFrame] with its identifier, and
    the iteration stays in the element's callback list. *)
Theorem unmount_cancels_with_other_primitive :
  let w := playingWorld in
  let w' := run [(100, Unmount)] w in
  last (filter isRequest (log w)) (APause 0%nat) = ARequestVFC 0%nat 2%nat /\
  loopHandle w = Some (mkHandle vfc 2) /\
  vfcPending w = [(0%nat, 2%nat, true)] /\
  emitted w w' = [ACancelRAF 2%nat] /\
  matchingCancel (ARequestVFC 0%nat 2%nat) <> Some (ACancelRAF 2%nat) /\
  vfcPending w' = [(0%nat, 2%nat, true)] /\
  loopHandle w' = None.
Proof. vm_compute. repeat split; try reflexivity. discriminate. Qed.

(** C1 at the failing input: pair 1 is selected while pair 0 plays.  The
    cleanup of the old activation cancels on the new left element, the
    iteration scheduled on the old one stays; when the new pair starts there
    are two scheduled iterations, and when both have run there are two
    again, on the same media handles. *)
Theorem pair_switch_leaves_two_iterations :
  let w := playingWorld in
  let w1 := run [ (14, ClickThumb 1%nat); (15, Render) ] w in
  let w2 := switchedWorld in
  let w3 := run [ (30, FrameVFC 0%nat 2%nat); (31, FrameVFC 2%nat 1%nat) ] w2 in
  vfcPending w = [(0%nat, 2%nat, true)] /\ scheduled w = 1%nat /\
  hd (APause 0%nat) (emitted w w1) = ACancelVFC 2%nat 2%nat /\
  vfcPending w1 = [(0%nat, 2%nat, true)] /\ loopHandle w1 = None /\
  vfcPending w2 = [(0%nat, 2%nat, true); (2%nat, 1%nat, true)] /\
  scheduled w2 = 2%nat /\
  vfcPending w3 = [(2%nat, 2%nat, true); (2%nat, 3%nat, true)] /\
  scheduled w3 = 2%nat.
Proof. vm_compute. repeat split; reflexivity. Qed.

(** *** Without video frame callbacks

    In a browser without [requestVideoFrameCallback] every iteration is an
    animation frame callback of the window, which [cancelAnimationFrame]
    reaches whatever the refs point to: there, at most one iteration is
    scheduled in every reachable world. *)

(** No video frame callback exists. *)
Definition rafOnly (w : World) : Prop :=
  supportsVFC w = false /\ vfcPending w = [].

(** No iteration is scheduled. *)
Definition idle (w : World) : Prop :=
  rafOnly w /\ rafPending w = [].

(** At most one iteration is scheduled, and [loopHandle] holds it. *)
Definition tracked (w : World) : Prop :=
  rafOnly w /\
  (rafPending w = [] \/
   exists i c, rafPending w = [(i, c)] /\ loopHandle w = Some (mkHandle raf i)).

Definition loopInv (busy : bool) : World -> Prop :=
  if busy then tracked else idle.

Lemma idle_tracked (w : World) : idle w -> tracked w.
Proof. intros [R P]. split; [exact R | left; exact P]. Qed.

Lemma loopInv_frame (busy : bool) (f : World -> World) :
  (forall w, supportsVFC (f w) = supportsVFC w /\
             vfcPending (f w) = vfcPending w /\
             rafPending (f w) = rafPending w /\
             loopHandle (f w) = loopHandle w) ->
  keeps (loopInv busy) (modify f).
Proof.
  intros F. apply keeps_modify. intros w H.
  destruct (F w) as [F1 [F2 [F3 F4]]].
  destruct busy; unfold loopInv, tracked, idle, rafOnly in *;
    rewrite F1, F2, F3, ?F4; exact H.
Qed.

Lemma cancelSyncLoop_idles : hoare tracked cancelSyncLoop idle.
Proof.
  intros w [[V P] T]. unfold idle, rafOnly. open_world w.
  unfold cancelSyncLoop.
  destruct T as [T | [i [c [T H]]]]; subst.
  - destruct wHandle as [[[|] i]|], wLeft; mrun; repeat split.
  - destruct wLeft; mrun; rewrite Nat.eqb_refl; mrun; repeat split.
Qed.

Lemma scheduleStep_tracks (c : Closure) : hoare idle (scheduleStep c) tracked.
Proof.
  intros w [[V P] T]. unfold tracked, rafOnly. open_world w.
  unfold scheduleStep.
  destruct wLeft; mrun; (split; [split; reflexivity | ]);
    right; eexists; eexists; split; reflexivity.
Qed.

Lemma startSyncLoop_tracks (c : Closure) : keeps tracked (startSyncLoop c).
Proof.
  unfold startSyncLoop.
  apply (hoare_bind tracked idle tracked);
    [apply cancelSyncLoop_idles | intros _; apply scheduleStep_tracks].
Qed.

Lemma cancelSyncLoop_keeps (busy : bool) : keeps (loopInv busy) cancelSyncLoop.
Proof.
  destruct busy; unfold loopInv.
  - apply (hoare_weaken tracked tracked idle tracked);
      [auto | apply idle_tracked | apply cancelSyncLoop_idles].
  - apply (hoare_weaken tracked idle idle idle);
      [apply idle_tracked | auto | apply cancelSyncLoop_idles].
Qed.

Ltac loop_leaf :=
  idtac;
  match goal with
  | |- keeps _ cancelSyncLoop => apply cancelSyncLoop_keeps
  | |- keeps (loopInv true) (startSyncLoop _) => apply startSyncLoop_tracks
  | |- keeps _ (modify _) => apply loopInv_frame; intros ?; repeat split
  end.

Ltac loop_open :=
  progress unfold
    emit, video, updVideo, pause, setPlaybackRate, setCurrentTime, load,
    play, spawn, enqueue, deliver, seekTo, syncRestart_seeked, syncRestart,
    correctDrift, waitReady, loadAndStart_settled, loadAndStart_ready,
    loadAndStart, activeEffect, activeCleanup, intentEffect, endedEffect,
    endedCleanup, togglePlay, remount, render, mount, unmount, resume,
    wake.

Ltac loop_walk := keeps_walk loop_leaf loop_open.

(** One iteration, run once its callback has left the queue, schedules the
    next one and no other. *)
Lemma step_tracks (c : Closure) : hoare idle (step c) tracked.
Proof.
  assert (K : forall m : M unit, keeps (loopInv false) m ->
                hoare idle (m ;; scheduleStep c) tracked).
  { intros m Hm. apply (hoare_bind idle idle tracked);
      [exact Hm | intros _; apply scheduleStep_tracks]. }
  assert (I : hoare idle (ret tt) tracked)
    by (intros w H; apply idle_tracked, H).
  unfold step.
  apply (hoare_bind idle idle); [apply (keeps_gets (loopInv false)) | intros [l|]];
    (apply (hoare_bind idle idle);
       [apply (keeps_gets (loopInv false)) | intros [r|]]);
    try exact I.
  apply (hoare_bind idle idle); [apply (keeps_gets (loopInv false)) | intros v].
  destruct (nearEnd v); apply K; loop_walk.
Qed.

(** The browser runs animation frame callback [i]: if it is the scheduled
    iteration, the iteration leaves the queue and runs. *)
Lemma frameRAF_tracks (i : nat) : keeps tracked (dispatch (FrameRAF i)).
Proof.
  intros w [[V P] T]. unfold tracked, rafOnly.
  destruct T as [T | [i0 [c [T H]]]]; open_world w; unfold dispatch.
  - mrun. repeat split. left. reflexivity.
  - mred. cbn [filter fst]. destruct (Nat.eqb i0 i); mrun.
    + pose proof (step_tracks c
        (mkWorld wActive wPlaying wUpdates wLeft wRight
           (Some (mkHandle raf i0)) wLast wVideos wNextElem false wVfcNext []
           wRafNext [] wPlayNext wClock wTasks wEnded wLog)) as S.
      destruct (step c _) as [u w']. apply S. repeat split.
    + repeat split. right. exists i0, c. split; reflexivity.
Qed.

Lemma frameVFC_tracks (e i : nat) : keeps tracked (dispatch (FrameVFC e i)).
Proof.
  intros w [[V P] T]. unfold tracked, rafOnly. open_world w.
  unfold dispatch. mrun. repeat split. exact T.
Qed.

Lemma loop_kept_by_dispatch (ev : Event) : keeps (loopInv true) (dispatch ev).
Proof.
  destruct ev as [ | | | | | | | | | | | | e i | i ];
    try apply frameVFC_tracks; try apply frameRAF_tracks;
    unfold dispatch; loop_walk.
Qed.

Lemma loop_kept_by_handle (now : Q) (ev : Event) :
  keeps (loopInv true) (handle now ev).
Proof.
  unfold handle.
  apply keeps_bind; [loop_walk | intros _ ].
  apply keeps_bind; [apply loop_kept_by_dispatch | intros _; loop_walk].
Qed.

Lemma mounted_tracked (active0 : nat) : tracked (mounted active0 false).
Proof.
  unfold mounted.
  apply (keeps_exec (loopInv true)); [loop_walk | ].
  split; [split; reflexivity | left; reflexivity].
Qed.

(** X22. In a browser without video frame callbacks at most one sync-loop
    iteration is scheduled at any time, whatever the user and the browser
    do. *)
Lemma animation_frames_at_most_one (active0 : nat) (evs : list (Q * Event)) :
  (scheduled (run evs (mounted active0 false)) <= 1)%nat.
Proof.
  assert (T : tracked (run evs (mounted active0 false))).
  { generalize (mounted_tracked active0).
    generalize (mounted active0 false) as w.
    induction evs as [|[t ev] evs IH]; intros w H; cbn [run].
    - exact H.
    - apply IH. apply (loop_kept_by_handle t ev), H. }
  destruct T as [[_ P] [T | [i [c [T _]]]]]; unfold scheduled;
    rewrite P, T; cbn; lia.
Qed.

End Cancellation.

(** ** The ready-gate *)

Module ReadyGate.

Lemma awaitsReady_not_ready (e : elem) (t : Task) :
  awaitsReady e t = true -> taskReady t = false.
Proof.
  destruct t as [l r a b p c | | ]; cbn; try discriminate.
  destruct a, b; cbn; try reflexivity.
  rewrite !andb_false_r. discriminate.
Qed.

Lemma onLoadeddata_keeps_waiting (e e' : elem) (rs : nat) (t : Task) :
  e' <> e -> awaitsReady e t = true ->
  awaitsReady e (onLoadeddata e' rs t) = true.
Proof.
  intros N. destruct t as [l r a b p c | | ]; cbn; try discriminate.
  intros H. apply orb_true_iff in H. apply orb_true_iff.
  destruct H as [H|H]; apply andb_true_iff in H; destruct H as [H1 H2];
    apply Nat.eqb_eq in H1; subst; apply negb_true_iff in H2; subst;
    [left | right];
    (assert (X : Nat.eqb e e' = false) by (apply Nat.eqb_neq; congruence));
    rewrite X, Nat.eqb_refl; reflexivity.
Qed.

Lemma existsb_map_keeps {A : Type} (p : A -> bool) (f : A -> A) (xs : list A) :
  (forall x, p x = true -> p (f x) = true) ->
  existsb p xs = true -> existsb p (map f xs) = true.
Proof.
  intros H. induction xs as [|x xs IH]; cbn; [discriminate | ].
  intros E. apply orb_true_iff in E. apply orb_true_iff.
  destruct E as [E|E]; [left; apply H, E | right; apply IH, E].
Qed.

Lemma existsb_filter_keeps {A : Type} (p q : A -> bool) (xs : list A) :
  (forall x, p x = true -> q x = true) ->
  existsb p xs = true -> existsb p (filter q xs) = true.
Proof.
  intros H. induction xs as [|x xs IH]; cbn; [discriminate | ].
  intros E. apply orb_true_iff in E. destruct E as [E|E].
  - rewrite (H x E). cbn. rewrite E. reflexivity.
  - destruct (q x); cbn; [rewrite (IH E); apply orb_true_r | apply IH, E].
Qed.

Section Stuck.

(** An element whose load has failed, with a ready-gate waiting on it. *)
Variable e : elem.

(** The gate of [e] is unresolved and [e] is in error; [fresh]: the refs
    point to other elements than [e]. *)
Definition blocked (fresh : bool) (w : World) : Prop :=
errored (videos w e) = true /\
gateUnresolved e w = true /\
(e < nextElem w)%nat /\
(fresh = true -> leftRef w <> Some e /\ rightRef w <> Some e).

Lemma gate_kept_by_frame (b : bool) (f : World -> World) :
(forall w, videos (f w) = videos w /\ tasks (f w) = tasks w /\
           nextElem (f w) = nextElem w /\
           leftRef (f w) = leftRef w /\ rightRef (f w) = rightRef w) ->
keeps (blocked b) (modify f).
Proof.
  intros F. apply keeps_modify. intros w [E [T [N R]]].
  destruct (F w) as [Fv [Ft [Fn [Fl Fr]]]].
  unfold blocked, gateUnresolved. rewrite Fv, Ft, Fn, Fl, Fr.
  repeat split; try assumption; apply R; assumption.
Qed.

Lemma gate_kept_by_updVideo (b : bool) (x : elem) (g : Video -> Video) :
(x <> e \/ forall v, errored v = true -> errored (g v) = true) ->
keeps (blocked b) (updVideo x g).
Proof.
  intros G. apply keeps_modify. intros w [E [T [N R]]].
  unfold blocked, gateUnresolved in *. open_world w. mred.
  repeat split; try assumption; try (apply R; assumption).
  destruct (Nat.eqb_spec e x) as [->|Ne]; [ | exact E].
  destruct G as [G|G]; [congruence | apply G; exact E].
Qed.

Lemma gate_kept_by_spawn (b : bool) (t : Task) : keeps (blocked b) (spawn t).
Proof.
  apply keeps_modify. intros w [E [T [N R]]].
  unfold blocked, gateUnresolved in *. open_world w. mred.
  repeat split; try assumption; try (apply R; assumption).
  rewrite existsb_app, T. reflexivity.
Qed.

Lemma gate_kept_by_deliver (b : bool) (f : Task -> Task) :
(forall t, awaitsReady e t = true -> awaitsReady e (f t) = true) ->
keeps (blocked b) (deliver f).
Proof.
  intros F. apply keeps_modify. intros w [E [T [N R]]].
  unfold blocked, gateUnresolved in *. open_world w. mred.
  repeat split; try assumption; try (apply R; assumption).
  apply existsb_map_keeps; assumption.
Qed.

Ltac blocked_leaf :=
  idtac;
  match goal with
  | |- keeps _ (spawn _) => apply gate_kept_by_spawn
  | |- keeps _ (updVideo _ _) =>
      apply gate_kept_by_updVideo; right; intros ? ?; first [assumption | reflexivity]
  | |- keeps _ (deliver _) =>
      apply gate_kept_by_deliver; intros [? ? ? ? ? ?| ? ? ? ? ? | ? ? ? ?] ?;
      assumption
  | |- keeps _ (modify _) => apply gate_kept_by_frame; intros ?; repeat split
  end.

Ltac blocked_open :=
  progress unfold
    emit, video, pause, setPlaybackRate, setCurrentTime, play,
    requestVideoFrameCallback, cancelVideoFrameCallback,
    requestAnimationFrame, cancelAnimationFrame, enqueue,
    cancelSyncLoop, scheduleStep, seekTo, syncRestart_seeked,
    syncRestart, correctDrift, step, startSyncLoop, waitReady,
    loadAndStart_settled, loadAndStart_ready, activeCleanup,
    intentEffect, endedEffect, endedCleanup, togglePlay, resume.

Ltac blocked_walk := keeps_walk blocked_leaf blocked_open.

Lemma gate_kept_by_resume (b : bool) (t : Task) : keeps (blocked b) (resume t).
Proof. blocked_walk. Qed.

Lemma gate_kept_by_wake (b : bool) : keeps (blocked b) wake.
Proof.
  unfold wake. apply keeps_bind_gets. intros w0 [_ [T0 _]].
  apply keeps_bind; [ | intros _; apply keeps_forEach, gate_kept_by_resume].
  apply keeps_modify. intros w [E [T [N R]]].
  unfold blocked, gateUnresolved in *. open_world w. mred.
  repeat split; try assumption; try (apply R; assumption).
  apply existsb_filter_keeps; [ | exact T0].
  intros t A. rewrite (awaitsReady_not_ready e t A). reflexivity.
Qed.

Lemma blocked_weaken (b : bool) (w : World) : blocked true w -> blocked b w.
Proof.
  intros [E [T [N R]]]. repeat split; try assumption; apply R; reflexivity.
Qed.

Lemma gate_kept_by_unmount (b : bool) : keeps (blocked b) unmount.
Proof.
  unfold unmount.
  apply keeps_bind; [ | intros _; apply keeps_bind; [ | intros _; blocked_walk]];
    apply keeps_modify; intros w [E [T [N R]]];
    unfold blocked, gateUnresolved in *; open_world w; mred;
    (repeat split; try assumption; try discriminate; apply R; assumption).
Qed.

(** The elements React mounts are new ones: the refs leave [e]. *)
Lemma remount_fresh (b : bool) : hoare (blocked b) remount (blocked true).
Proof.
  intros w [E [T [N R]]]. unfold remount, blocked, gateUnresolved in *.
  open_world w. mred.
  assert (X : Nat.eqb e (S wNextElem) = false) by (apply Nat.eqb_neq; lia).
  assert (Y : Nat.eqb e wNextElem = false) by (apply Nat.eqb_neq; lia).
  rewrite X, Y.
  split; [exact E | split; [exact T | split; [lia | ]]].
  intros _. split; intros H; injection H; lia.
Qed.

Lemma gate_kept_by_loadAndStart (p c : bool) : keeps (blocked true) (loadAndStart p c).
Proof.
  unfold loadAndStart.
  apply keeps_bind_gets. intros w0 [_ [_ [_ R0]]].
  apply keeps_bind_gets. intros w1 [_ [_ [_ R1]]].
  destruct (R0 eq_refl) as [Nl _]. destruct (R1 eq_refl) as [_ Nr].
  destruct (leftRef w0) as [l|]; [ | apply keeps_ret].
  destruct (rightRef w1) as [r|]; [ | apply keeps_ret].
  assert (Hl : l <> e) by congruence. assert (Hr : r <> e) by congruence.
  cbn [forEach]. unfold load.
  blocked_walk; apply gate_kept_by_updVideo; left; assumption.
Qed.

Lemma gate_kept_by_render : keeps (blocked false) render.
Proof.
  unfold render.
  apply keeps_bind_gets. intros w0 _.
  apply keeps_bind_gets. intros w1 _.
  apply keeps_bind_gets. intros w2 _.
  apply keeps_bind; [blocked_walk | intros _ ]. cbv zeta.
  destruct (negb (Nat.eqb (fst (fold_left applyUpdate (updates w2)
                                         (active w0, isPlaying w1)))
                          (active w0))).
  - cbn [orb]. cbv iota. unfold activeEffect.
    apply keeps_bind; [blocked_walk | intros _ ].
    apply keeps_bind; [blocked_walk | intros _ ].
    apply (hoare_bind (blocked false) (blocked true) (blocked false));
      [apply remount_fresh | intros _ ].
    apply (hoare_weaken (blocked true) (blocked true) (blocked true)
                        (blocked false));
      [auto | apply blocked_weaken | ].
    apply keeps_bind; [blocked_walk | intros _ ].
    apply keeps_bind; [blocked_walk | intros _ ].
    apply keeps_bind; [apply gate_kept_by_loadAndStart | intros _ ].
    blocked_walk.
  - blocked_walk.
Qed.

(** The browser fires no [loadeddata] on an element in error, and nothing
    the component does afterwards touches the gate of [e]. *)
Lemma gate_kept_by_dispatch (ev : Event) : keeps (blocked false) (dispatch ev).
Proof.
  destruct ev as [ | | | | x rs | | | | | | | | | ]; unfold dispatch;
    try apply gate_kept_by_render; try apply gate_kept_by_unmount; try solve [blocked_walk].
  unfold video. apply keeps_bind_gets. intros w0 [E0 _].
  destruct (errored (videos w0 x)) eqn:Er; [apply keeps_ret | ].
  assert (Ne : x <> e) by (intros ->; congruence).
  apply keeps_bind; [apply gate_kept_by_updVideo; left; exact Ne | intros _ ].
  apply gate_kept_by_deliver. intros t. apply onLoadeddata_keeps_waiting, Ne.
Qed.

Lemma gate_kept_by_handle (now : Q) (ev : Event) : keeps (blocked false) (handle now ev).
Proof.
  unfold handle.
  apply keeps_bind; [blocked_walk | intros _ ].
  apply keeps_bind; [apply gate_kept_by_dispatch | intros _; apply gate_kept_by_wake].
Qed.

Lemma run_blocked (evs : list (Q * Event)) (w : World) :
blocked false w -> blocked false (run evs w).
Proof.
  revert w. induction evs as [|[t ev] evs IH]; intros w B; cbn [run].
  - exact B.
  - apply IH. apply gate_kept_by_handle, B.
Qed.

(** C4 on the drift-correcting gallery: once the load of an element has
    failed while [loadAndStart] waits for it, the ready-gate of that element
    is unresolved after any further events of the browser, and the
    activation never continues. *)
Theorem ready_gate_stuck_after_error (w : World) (evs : list (Q * Event)) :
errored (videos w e) = true -> gateUnresolved e w = true ->
(e < nextElem w)%nat ->
gateUnresolved e (run evs w) = true.
Proof.
  intros E T N.
  assert (B : blocked false w)
    by (repeat split; try assumption; discriminate).
  apply (run_blocked evs) in B. apply B.
Qed.

End Stuck.

(** C4 at the failing input: the left stream of pair 0 fails to load.  The
    right stream gets ready, the user toggles, selects another pair, frames
    and media events go by: [loadAndStart] still waits for element 0. *)
Lemma ready_gate_stuck_after_error_witness :
  let evs := [ (20, ClickToggle); (21, Render); (30, Loadeddata 0%nat 4%nat);
               (40, ClickThumb 1%nat); (41, Render);
               (50, Loadeddata 2%nat 4%nat); (51, Loadeddata 3%nat 4%nat);
               (60, PlaySettled 4%nat true); (61, PlaySettled 5%nat true);
               (70, FrameVFC 2%nat 1%nat); (80, Timeupdate 0%nat) ] in
  errored (videos leftFailedWorld 0%nat) = true /\
  tasks leftFailedWorld = [LoadAwaitReady 0%nat 1%nat false true true true] /\
  gateUnresolved 0%nat (run evs leftFailedWorld) = true.
Proof.
  split; [reflexivity | split; [reflexivity | ]].
  apply (ready_gate_stuck_after_error 0%nat leftFailedWorld); vm_compute;
    first [reflexivity | lia].
Defined.

End ReadyGate.

(** ** Media references *)

Module MediaReference.

Lemma toSrc_falsy (v : value) :
  truthy (toSrc v) = false -> toSrc v = VStr EmptyString.
Proof.
  unfold toSrc. destruct (truthy v) eqn:T; cbn [negb]; [ | reflexivity].
  destruct v as [ | | b | n | s | props]; try reflexivity.
  - rewrite T. discriminate.
  - destruct (getProp "src" props) as [src|]; [ | reflexivity].
    unfold orElse. destruct (truthy src) eqn:S; [ | reflexivity].
    rewrite S. discriminate.
Qed.

(** X1. [toSrc] hands a string back as it is and resolves an asset object to
    its [src]; whatever value it is given, the result is the empty string or
    a truthy value, never [undefined] or [null]; a string result is a fixed
    point. *)
Theorem toSrc_resolves (v : value) :
  (forall s, v = VStr s -> toSrc v = VStr s) /\
  (forall props s, v = VObj props -> getProp "src" props = Some (VStr s) ->
     toSrc v = VStr s) /\
  (toSrc v = VStr EmptyString \/ truthy (toSrc v) = true) /\
  (forall s, toSrc v = VStr s -> toSrc (toSrc v) = toSrc v).
Proof.
  assert (S : forall s, toSrc (VStr s) = VStr s).
  { intros s. unfold toSrc. cbn [truthy].
    destruct (String.eqb_spec s EmptyString) as [->|N]; reflexivity. }
  repeat split.
  - intros s ->. apply S.
  - intros props s -> G. unfold toSrc. cbn [truthy negb]. rewrite G.
    unfold orElse. cbn [truthy].
    destruct (String.eqb_spec s EmptyString) as [->|N]; reflexivity.
  - destruct (truthy (toSrc v)) eqn:T; [right; reflexivity | left].
    apply toSrc_falsy, T.
  - intros s E. rewrite E. apply S.
Qed.

(** X2. The strip shows the placeholder for a pair exactly when none of
    [pair.thumb], [pair.left.thumb] and [pair.left.poster] resolves to a
    non-empty reference; otherwise it shows the first of the three that
    does.  The right side of the pair plays no part. *)
Theorem thumbnail_placeholder (pairs : list VideoPair.t) (i : nat)
        (p : VideoPair.t) :
  nth_error pairs i = Some p ->
  let a := toSrc (VideoPair.thumb p) in
  let b := toSrc (OneSide.thumb (VideoPair.left p)) in
  let c := toSrc (OneSide.poster (VideoPair.left p)) in
  exists t, nth_error (thumbs pairs) i = Some t /\
    (thumbnail t = NoThumb <->
       a = VStr EmptyString /\ b = VStr EmptyString /\ c = VStr EmptyString) /\
    (truthy a = true -> thumbnail t = Img a) /\
    (truthy a = false -> truthy b = true -> thumbnail t = Img b) /\
    (truthy a = false -> truthy b = false -> truthy c = true ->
       thumbnail t = Img c).
Proof.
  intros N a b c. eexists. split.
  - unfold thumbs. rewrite nth_error_map, N. reflexivity.
  - fold a b c. unfold thumbnail, orElse.
    pose proof (toSrc_falsy (VideoPair.thumb p)) as Fa.
    pose proof (toSrc_falsy (OneSide.thumb (VideoPair.left p))) as Fb.
    pose proof (toSrc_falsy (OneSide.poster (VideoPair.left p))) as Fc.
    fold a in Fa. fold b in Fb. fold c in Fc.
    destruct (truthy a) eqn:Ta; [ | destruct (truthy b) eqn:Tb;
                                    [ | destruct (truthy c) eqn:Tc]];
      cbn [truthy String.eqb negb]; rewrite ?Ta, ?Tb, ?Tc;
      repeat split; try discriminate; try reflexivity;
      try (intros [Ea [Eb Ec]];
           first [ rewrite Ea in Ta; discriminate Ta
                 | rewrite Eb in Tb; discriminate Tb
                 | rewrite Ec in Tc; discriminate Tc ]);
      auto.
Qed.

Lemma thumbnail_placeholder_witness :
  let asset := VObj [("src"%string, VStr "/poster.jpg")] in
  let p := VideoPair.mk (OneSide.mk (VStr "/l.mp4") VUndefined asset VUndefined)
                        (OneSide.mk (VStr "/r.mp4") VUndefined VUndefined
                                    (VStr "/r.jpg"))
                        VUndefined in
  nth_error [p] 0 = Some p /\
  exists t, nth_error (thumbs [p]) 0 = Some t /\
            thumbnail t = Img (VStr "/poster.jpg").
Proof.
  split; [reflexivity | ].
  destruct (thumbnail_placeholder
              [VideoPair.mk
                 (OneSide.mk (VStr "/l.mp4") VUndefined
                    (VObj [("src"%string, VStr "/poster.jpg")]) VUndefined)
                 (OneSide.mk (VStr "/r.mp4") VUndefined VUndefined (VStr "/r.jpg"))
                 VUndefined] 0 _ eq_refl) as [t [N [_ [_ [_ C]]]]].
  exists t. split; [exact N | ]. apply C; reflexivity.
Defined.

End MediaReference.

(** ** The loading-state-tracking variant: the handlers *)

Module LoadingHandlers.

Import LoadingGallery.

(** X23. With both elements mounted, the intent is playing after a toggle only
    if it was paused before, both streams counted as loaded and both
    [play()] requests resolved; both elements then play. *)
Theorem play_needs_both_loaded (res1 res2 : bool) (s : State)
        (v1 v2 : Player) :
  videoRef1 s = Some v1 -> videoRef2 s = Some v2 ->
  isPlaying (togglePlayPause res1 res2 s) = true ->
  isPlaying s = false /\ toggleEnabled s = true /\
  res1 = true /\ res2 = true /\
  bothPlaying (togglePlayPause res1 res2 s).
Proof.
  intros R1 R2.
  unfold togglePlayPause, toggleEnabled, bothPlaying. rewrite R1, R2.
  destruct (isPlaying s) eqn:P; [discriminate | ].
  destruct (loadedV1 s && loadedV2 s) eqn:L.
  - cbn [isPlaying videoRef1 videoRef2]. intros H.
    apply negb_true_iff, orb_false_iff in H. destruct H as [H1 H2].
    apply negb_false_iff in H1, H2. subst.
    repeat split. eexists; eexists.
    split; [reflexivity | split; [reflexivity | ]].
    cbn. rewrite !andb_false_r. split; reflexivity.
  - intros H. congruence.
Qed.

Lemma play_needs_both_loaded_witness :
  let s := handleVideoLoaded 2 (handleVideoLoaded 1 initial) in
  isPlaying (togglePlayPause true true s) = true /\
  bothPlaying (togglePlayPause true true s).
Proof.
  split; [reflexivity | ].
  apply (play_needs_both_loaded true true
           (handleVideoLoaded 2 (handleVideoLoaded 1 initial))
           freshPlayer freshPlayer); reflexivity.
Defined.

(** X24. A toggle made while the intent is playing pauses both elements where
    they are and takes the intent to paused, whatever the loaded flags
    say. *)
Theorem pause_keeps_positions (res1 res2 : bool) (s : State) (v1 v2 : Player) :
  isPlaying s = true -> videoRef1 s = Some v1 -> videoRef2 s = Some v2 ->
  let s' := togglePlayPause res1 res2 s in
  isPlaying s' = false /\
  videoRef1 s' = Some (mkPlayer true (position v1)) /\
  videoRef2 s' = Some (mkPlayer true (position v2)) /\
  selectedIndex s' = selectedIndex s /\
  loadedV1 s' = loadedV1 s /\ loadedV2 s' = loadedV2 s.
Proof.
  intros P R1 R2. unfold togglePlayPause. rewrite R1, R2, P.
  repeat split.
Qed.

Lemma pause_keeps_positions_witness :
  let s' := togglePlayPause false false playingState in
  isPlaying s' = false /\
  videoRef1 s' = Some (mkPlayer true 3.2) /\
  videoRef2 s' = Some (mkPlayer true 3.2).
Proof.
  destruct (pause_keeps_positions false false playingState
              (mkPlayer false 3.2) (mkPlayer false 3.2)
              eq_refl eq_refl eq_refl) as [P [R1 [R2 _]]].
  split; [exact P | split; [exact R1 | exact R2]].
Defined.

(** X25. When one of the two [play()] requests rejects, the intent stays paused
    but the stream whose request resolved is left playing: the handler
    pauses nothing. *)
Theorem failed_play_leaves_one_running (s : State) (v1 v2 : Player) :
  isPlaying s = false -> toggleEnabled s = true ->
  videoRef1 s = Some v1 -> videoRef2 s = Some v2 ->
  let s' := togglePlayPause true false s in
  isPlaying s' = false /\
  videoRef1 s' = Some (mkPlayer false (position v1)) /\
  videoRef2 s' = Some (mkPlayer (paused v2) (position v2)).
Proof.
  intros P L R1 R2. unfold togglePlayPause, toggleEnabled in *.
  rewrite R1, R2, P, L. cbn [negb orb andb].
  rewrite andb_false_r, andb_true_r. repeat split.
Qed.

Lemma failed_play_leaves_one_running_witness :
  let s := handleVideoLoaded 2 (handleVideoLoaded 1 initial) in
  let s' := togglePlayPause true false s in
  isPlaying s' = false /\
  videoRef1 s' = Some (mkPlayer false 0) /\
  videoRef2 s' = Some (mkPlayer true 0).
Proof.
  apply (failed_play_leaves_one_running
           (handleVideoLoaded 2 (handleVideoLoaded 1 initial))
           freshPlayer freshPlayer); reflexivity.
Defined.

(** X26. The [sync] listener writes the position of video 2 only: afterwards
    the difference of the two positions, as the listener computes it, is at
    most [SYNC_EPS] = 120ms in magnitude, video 1 and the React state are as
    before, and a second run changes nothing. *)
Theorem sync_closes_the_gap (s : State) (v1 v2 : Player) :
  videoRef1 s = Some v1 -> videoRef2 s = Some v2 ->
  let s' := sync s in
  videoRef1 s' = Some v1 /\
  (exists v2', videoRef2 s' = Some v2' /\ paused v2' = paused v2 /\
     Qabs (double (position v1 - position v2')) <= double SYNC_EPS /\
     (Qabs (double (position v1 - position v2)) <= double SYNC_EPS ->
      v2' = v2)) /\
  selectedIndex s' = selectedIndex s /\ isPlaying s' = isPlaying s /\
  loadedV1 s' = loadedV1 s /\ loadedV2 s' = loadedV2 s /\
  sync s' = s'.
Proof.
  intros R1 R2. unfold sync. rewrite R1, R2.
  destruct (Qltb (double SYNC_EPS)
                 (Qabs (double (position v1 - position v2)))) eqn:D.
  - cbn [videoRef1 videoRef2 selectedIndex isPlaying loadedV1 loadedV2
         position paused].
    assert (Z : Qabs (double (position v1 - position v1)) <= double SYNC_EPS).
    { rewrite (double_zero (position v1 - position v1)) by ring. qconst. }
    assert (Z' : Qltb (double SYNC_EPS)
                      (Qabs (double (position v1 - position v1))) = false)
      by (apply Qltb_false_iff; exact Z).
    rewrite Z'. repeat split.
    eexists. split; [reflexivity | ]. cbn [paused position].
    split; [reflexivity | split; [exact Z | ]].
    intros H. apply Qltb_iff in D. lra.
  - rewrite R1, R2, D. repeat split.
    exists v2. apply Qltb_false_iff in D. repeat split; auto.
Qed.

Lemma sync_closes_the_gap_witness :
  let s := mkState 0 true true true (Some (mkPlayer false (double 2.0)))
                   (Some (mkPlayer false (double 2.3))) in
  videoRef1 (sync s) = Some (mkPlayer false (double 2.0)) /\
  videoRef2 (sync s) = Some (mkPlayer false (double 2.0)).
Proof.
  destruct (sync_closes_the_gap
              (mkState 0 true true true (Some (mkPlayer false (double 2.0)))
                       (Some (mkPlayer false (double 2.3))))
              (mkPlayer false (double 2.0)) (mkPlayer false (double 2.3))
              eq_refl eq_refl)
    as [R1 _].
  split; [exact R1 | vm_compute; reflexivity].
Defined.

(** The listener compares the difference it computed: with video 1 at
    0.006s and video 2 at 0.126s the subtraction gives the double 0.12,
    which is not greater than [SYNC_EPS], and video 2 is left where it is,
    though the exact distance of the two doubles exceeds 0.12. *)
Example sync_difference_rounds_onto_threshold :
  let v1 := mkPlayer false (double 0.006) in
  let v2 := mkPlayer false (double 0.126) in
  let s := mkState 0 true true true (Some v1) (Some v2) in
  0.12 < Qabs (position v1 - position v2) /\
  Qabs (double (position v1 - position v2)) == double SYNC_EPS /\
  sync s = s.
Proof. vm_compute. repeat split; reflexivity. Qed.

(** X27. A render either returns early on an empty [data], or throws on an
    item that is not there, or shows [data[selectedIndex]]; whenever it
    shows an item, the clamp of the effect on [data.length] leaves the
    state as it is: the clamp never moves a selection. *)
Theorem clamp_never_moves_selection (Item : Type) (data : list Item)
        (s : State) :
  match renderWith data s with
  | NoVideos => data = []
  | Throws => data <> [] /\ (length data <= selectedIndex s)%nat
  | Shows item =>
      nth_error data (selectedIndex s) = Some item /\
      clampSelection (length data) s = s
  end.
Proof.
  unfold renderWith. destruct data as [ | d data]; [reflexivity | ].
  destruct (nth_error (d :: data) (selectedIndex s)) as [item | ] eqn:N.
  - split; [reflexivity | ].
    assert (L : (selectedIndex s < length (d :: data))%nat)
      by (apply nth_error_Some; congruence).
    unfold clampSelection. rewrite Nat.min_l by lia. destruct s; reflexivity.
  - split; [discriminate | apply nth_error_None; exact N].
Qed.

(** A selection that [data] has shrunk under: the render throws, and the
    clamp that would repair the index is not reached. *)
Example shrunk_data_throws :
  let s := handleThumbnailClick 4 initial in
  renderWith [10%nat; 20%nat] s = Throws /\
  selectedIndex (clampSelection 2 s) = 1%nat.
Proof. split; reflexivity. Qed.

(** X28. A click on the thumbnail of another pair lands in the paused state:
    that pair selected, intent paused, both loaded flags cleared, the toggle
    disabled, and both of the new elements paused at position zero. *)
Theorem switch_resets_everything (index : nat) (s : State) :
  index <> selectedIndex s ->
  let s' := clickThumbnail index s in
  selectedIndex s' = index /\ isPlaying s' = false /\
  toggleEnabled s' = false /\ bothPausedAtZero s' /\
  forall res1 res2, togglePlayPause res1 res2 s' = s'.
Proof.
  intros N. unfold clickThumbnail.
  apply Nat.eqb_neq in N. rewrite N. cbn.
  repeat split. exists (mkPlayer true 0), (mkPlayer true 0).
  repeat split.
Qed.

Lemma switch_resets_everything_witness :
  let s' := clickThumbnail 1 playingState in
  selectedIndex s' = 1%nat /\ isPlaying s' = false /\ bothPausedAtZero s'.
Proof.
  destruct (switch_resets_everything 1 playingState) as [A [B [_ [D _]]]].
  - discriminate.
  - split; [exact A | split; [exact B | exact D]].
Defined.

End LoadingHandlers.

(** ** One iteration of the sync loop *)

Module Iteration.

(** What one iteration does when the reference is near its end. *)
Lemma step_near (w : World) (c : Closure) (l r : elem) :
  leftRef w = Some l -> rightRef w = Some r ->
  nearEnd (videos w l) = true ->
  exec (step c) w = exec (scheduleStep c) (exec (syncRestart c) w).
Proof.
  intros Hl Hr Hn. open_world w. unfold step. mred. rewrite Hn. mred.
  destruct (syncRestart c _). reflexivity.
Qed.

(** What the scheduling call changes, and what it leaves alone. *)
Lemma scheduleStep_request (c : Closure) (w : World) :
  let w' := exec (scheduleStep c) w in
  exists a, log w' = log w ++ [a] /\ isRequest a = true /\
    loopHandle w' = handleOf a /\
    scheduled w' = S (scheduled w) /\
    videos w' = videos w /\ tasks w' = tasks w /\
    justLoopedAt w' = justLoopedAt w /\
    leftRef w' = leftRef w /\ rightRef w' = rightRef w.
Proof.
  open_world w. unfold scheduleStep, scheduled. mred.
  destruct wLeft; destruct wVFC; mred; eexists;
    (split; [reflexivity | ]); repeat split;
    rewrite ?length_app; cbn [length]; lia.
Qed.

(** What a synchronized restart leaves alone. *)
Lemma syncRestart_quiet (c : Closure) (w : World) :
  let w' := exec (syncRestart c) w in
  exists pre, log w' = log w ++ pre /\ existsb isRequest pre = false /\
    vfcPending w' = vfcPending w /\ rafPending w' = rafPending w /\
    leftRef w' = leftRef w /\ rightRef w' = rightRef w.
Proof.
  open_world w. unfold syncRestart. mred.
  destruct wLeft as [l|]; [ | exists []; rewrite app_nil_r; repeat split].
  destruct wRight as [r|]; [ | exists []; rewrite app_nil_r; repeat split].
  destruct c; cbn [negb]; [ | exists []; rewrite app_nil_r; repeat split].
  destruct (Qltb (wClock - wLast) 200);
    [exists []; rewrite app_nil_r; repeat split | ].
  mred. exists (restartSequence l r). rewrite <- !app_assoc. repeat split.
Qed.

(** The drift correction acts on the follower alone. *)
Lemma correctDrift_follower_only (l r : elem) (w : World) :
  let w' := exec (correctDrift l r) w in
  exists pre, log w' = log w ++ pre /\
    (forall a, In a pre -> writesTo r a = true) /\
    (forall e, e <> r -> videos w' e = videos w e) /\
    vfcPending w' = vfcPending w /\ rafPending w' = rafPending w /\
    leftRef w' = leftRef w /\ rightRef w' = rightRef w /\
    tasks w' = tasks w /\ justLoopedAt w' = justLoopedAt w.
Proof.
  assert (N : forall e, e <> r -> Nat.eqb e r = false)
    by (intros e H; apply Nat.eqb_neq, H).
  open_world w. unfold correctDrift. mred.
  destruct (Qle_bool (double HARD) _);
    [ | destruct (Qle_bool (double SOFT) _);
        [ | destruct (negb (Qeq_bool (playbackRate (wVideos r)) 1)) ] ];
    mred.
  - eexists. rewrite <- !app_assoc. split; [reflexivity | ].
    repeat split.
    + intros a [<- | [<- | []]]; apply Nat.eqb_refl.
    + intros e H. rewrite (N e H). reflexivity.
  - eexists. split; [reflexivity | ]. repeat split.
    + intros a [<- | []]; apply Nat.eqb_refl.
    + intros e H. rewrite (N e H). reflexivity.
  - eexists. split; [reflexivity | ]. repeat split.
    + intros a [<- | []]; apply Nat.eqb_refl.
    + intros e H. rewrite (N e H). reflexivity.
  - exists []. rewrite app_nil_r. repeat split. intros a [].
Qed.

(** X3. An iteration re-arms itself exactly when both media handles exist: it
    then ends with the one scheduling call it makes, whose handle it keeps,
    and the browser holds one more pending iteration; with a handle missing
    it changes nothing at all, so the loop stops. *)
Theorem iteration_rearms (w : World) (c : Closure) :
  let w' := exec (step c) w in
  match leftRef w, rightRef w with
  | Some l, Some r =>
      exists pre a, emitted w w' = pre ++ [a] /\
        existsb isRequest pre = false /\ isRequest a = true /\
        loopHandle w' = handleOf a /\
        scheduled w' = S (scheduled w)
  | _, _ => w' = w
  end.
Proof.
  cbv zeta.
  destruct (leftRef w) as [l|] eqn:Hl;
    [destruct (rightRef w) as [r|] eqn:Hr | ].
  - destruct (nearEnd (videos w l)) eqn:Hn.
    + rewrite (step_near w c l r Hl Hr Hn).
      destruct (syncRestart_quiet c w) as [pre [L [Q [V [R _]]]]].
      destruct (scheduleStep_request c (exec (syncRestart c) w))
        as [a [La [Ra [H [S _]]]]].
      exists pre, a. repeat split; try assumption.
      * apply emitted_app. rewrite La, L, app_assoc. reflexivity.
      * rewrite S. unfold scheduled. rewrite V, R. reflexivity.
    + rewrite (DriftCorrection.step_far w c l r Hl Hr Hn).
      destruct (correctDrift_follower_only l r w)
        as [pre [L [T [_ [V [R _]]]]]].
      destruct (scheduleStep_request c (exec (correctDrift l r) w))
        as [a [La [Ra [H [S _]]]]].
      exists pre, a. repeat split; try assumption.
      * apply emitted_app. rewrite La, L, app_assoc. reflexivity.
      * destruct (existsb isRequest pre) eqn:E; [ | reflexivity].
        apply existsb_exists in E. destruct E as [x [Ix Rx]].
        apply T in Ix. destruct x; discriminate.
      * rewrite S. unfold scheduled. rewrite V, R. reflexivity.
  - open_world w. unfold step. mred. reflexivity.
  - open_world w. unfold step. mred. destruct wRight; reflexivity.
Qed.

(** The calls of an iteration away from the end of the reference. *)
Lemma step_far_calls (w : World) (c : Closure) (l r : elem) :
  leftRef w = Some l -> rightRef w = Some r ->
  nearEnd (videos w l) = false ->
  forall a, In a (emitted w (exec (step c) w)) ->
            writesTo r a = true \/ isRequest a = true.
Proof.
  intros Hl Hr Hn x Ix.
  rewrite (DriftCorrection.step_far w c l r Hl Hr Hn) in Ix.
  destruct (correctDrift_follower_only l r w) as [pre [L [T _]]].
  destruct (scheduleStep_request c (exec (correctDrift l r) w))
    as [a [La [Ra _]]].
  rewrite (emitted_app w _ (pre ++ [a])) in Ix
    by (rewrite La, L, app_assoc; reflexivity).
  apply in_app_or in Ix. destruct Ix as [Ix | [<- | []]].
  - left. apply T, Ix.
  - right. exact Ra.
Qed.

(** X4. Away from the end of the reference, an iteration acts on the follower
    only: every media element but the follower is as before, the reference
    included, and every DOM call it makes is a write of the follower's rate
    or position or the scheduling of the next iteration; no suspended
    function is added and the restart stamp is as before. *)
Theorem reference_never_corrected (w : World) (c : Closure) (l r : elem) :
  leftRef w = Some l -> rightRef w = Some r ->
  nearEnd (videos w l) = false ->
  let w' := exec (step c) w in
  (forall e, e <> r -> videos w' e = videos w e) /\
  (forall a, In a (emitted w w') -> writesTo r a = true \/ isRequest a = true) /\
  tasks w' = tasks w /\ justLoopedAt w' = justLoopedAt w.
Proof.
  intros Hl Hr Hn w'. subst w'.
  split; [ | split; [apply (step_far_calls w c l r Hl Hr Hn) | ]];
    rewrite (DriftCorrection.step_far w c l r Hl Hr Hn);
    destruct (correctDrift_follower_only l r w)
      as [pre [L [T [V [_ [_ [_ [_ [K J]]]]]]]]];
    destruct (scheduleStep_request c (exec (correctDrift l r) w))
      as [a [La [Ra [_ [_ [Vs [Ks [Js _]]]]]]]];
    rewrite ?Vs, ?Ks, ?Js; [exact V | split; assumption].
Qed.

Lemma reference_never_corrected_witness :
  let w := run [ (50, Playback 0%nat 1.000); (50, Playback 1%nat 0.900) ]
               (mounted 0 true) in
  videos (exec (step true) w) 0%nat = videos w 0%nat.
Proof.
  destruct (reference_never_corrected
              (run [ (50, Playback 0%nat 1.000); (50, Playback 1%nat 0.900) ]
                   (mounted 0 true)) true 0%nat 1%nat eq_refl eq_refl eq_refl)
    as [V _].
  apply V. discriminate.
Defined.

(** The last case of the correction: the follower is in phase but runs at
    another rate than 1. *)
Lemma correctDrift_restore (w : World) (l r : elem) :
  Qabs (double (currentTime (videos w r) - currentTime (videos w l)))
    < double SOFT ->
  ~ playbackRate (videos w r) == 1 ->
  let w' := exec (correctDrift l r) w in
  log w' = log w ++ [ASetRate r 1] /\
  playbackRate (videos w' r) = 1 /\
  currentTime (videos w' r) = currentTime (videos w r).
Proof.
  intros Hd H1. pose proof DriftCorrection.soft_below_hard as SH.
  assert (Hh : Qle_bool (double HARD)
                 (Qabs (double (currentTime (videos w r) -
                                currentTime (videos w l))))
               = false)
    by (apply Qle_bool_false_iff; lra).
  apply Qle_bool_false_iff in Hd.
  assert (E : Qeq_bool (playbackRate (videos w r)) 1 = false).
  { destruct (Qeq_bool (playbackRate (videos w r)) 1) eqn:E; [ | reflexivity].
    apply Qeq_bool_iff in E. contradiction. }
  open_world w. unfold correctDrift. mred. rewrite Hh, Hd, E. cbn [negb].
  mred. rewrite Nat.eqb_refl. repeat split.
Qed.

(** X5. Away from the end of the reference, the rate an iteration leaves the
    follower with is within 5% of the normal rate, whatever the rate and the
    positions were before. *)
Theorem correction_within_five_percent (w : World) (c : Closure) (l r : elem) :
  leftRef w = Some l -> rightRef w = Some r ->
  nearEnd (videos w l) = false ->
  let rate := playbackRate (videos (exec (step c) w) r) in
  0.95 <= rate /\ rate <= 1.05.
Proof.
  intros Hl Hr Hn rate. subst rate.
  rewrite (DriftCorrection.step_far w c l r Hl Hr Hn),
    DriftCorrection.scheduleStep_videos.
  set (diff := double (currentTime (videos w r) - currentTime (videos w l))).
  destruct (Qlt_le_dec (Qabs diff) (double HARD)) as [Hh | Hh].
  - destruct (Qlt_le_dec (Qabs diff) (double SOFT)) as [Hs | Hs].
    + destruct (Qeq_dec (playbackRate (videos w r)) 1) as [E | E].
      * rewrite (DriftCorrection.correctDrift_zero w l r Hs E). lra.
      * destruct (correctDrift_restore w l r Hs E) as [_ [R _]].
        rewrite R. lra.
    + rewrite (DriftCorrection.correctDrift_soft w l r Hs Hh). fold diff.
      destruct (DriftCorrection.clamp_bounds diff Hh) as [Lo Hi].
      destruct (Qltb diff 0).
      * destruct (DriftCorrection.rate_faster _ Lo Hi). lra.
      * destruct (DriftCorrection.rate_slower _ Lo Hi). lra.
  - destruct (DriftCorrection.correctDrift_snap w l r Hh) as [R _].
    rewrite R. lra.
Qed.

Lemma correction_within_five_percent_witness :
  let w := run [ (50, Playback 0%nat 1.000); (50, Playback 1%nat 1.070) ]
               (mounted 0 true) in
  let rate := playbackRate (videos (exec (step true) w) 1%nat) in
  0.95 <= rate /\ rate <= 1.05.
Proof.
  apply (correction_within_five_percent
           (run [ (50, Playback 0%nat 1.000); (50, Playback 1%nat 1.070) ]
                (mounted 0 true)) true 0%nat 1%nat); reflexivity.
Defined.

(** X6. Hysteresis: away from the end of the reference, a follower whose
    difference to the reference, as the iteration computes it, is less than
    [SOFT] = 20ms in magnitude leaves the iteration at the normal rate and
    at the position it had; if it ran at another rate, the write of rate 1
    is the only write of the iteration. *)
Theorem in_phase_restores_rate (w : World) (c : Closure) (l r : elem) :
  leftRef w = Some l -> rightRef w = Some r ->
  nearEnd (videos w l) = false ->
  Qabs (double (currentTime (videos w r) - currentTime (videos w l)))
    < double SOFT ->
  let w' := exec (step c) w in
  playbackRate (videos w' r) == 1 /\
  currentTime (videos w' r) = currentTime (videos w r) /\
  (~ playbackRate (videos w r) == 1 ->
   exists a, emitted w w' = [ASetRate r 1; a] /\ isRequest a = true).
Proof.
  intros Hl Hr Hn Hs w'. subst w'.
  rewrite (DriftCorrection.step_far w c l r Hl Hr Hn),
    DriftCorrection.scheduleStep_videos.
  destruct (Qeq_dec (playbackRate (videos w r)) 1) as [E | E].
  - rewrite (DriftCorrection.correctDrift_zero w l r Hs E).
    split; [exact E | split; [reflexivity | ]]. intros N. contradiction.
  - destruct (correctDrift_restore w l r Hs E) as [L [R T]].
    rewrite R, T. split; [reflexivity | split; [reflexivity | ]].
    intros _.
    destruct (scheduleStep_request c (exec (correctDrift l r) w))
      as [a [La [Ra _]]].
    exists a. split; [ | exact Ra].
    apply emitted_app. rewrite La, L, <- app_assoc. reflexivity.
Qed.

Lemma in_phase_restores_rate_witness :
  let w0 := run [ (50, Playback 0%nat (double 1.000));
                  (50, Playback 1%nat (double 1.040));
                  (60, FrameVFC 0%nat 1%nat);
                  (70, Playback 0%nat (double 1.200));
                  (70, Playback 1%nat (double 1.210)) ]
                (mounted 0 true) in
  ~ playbackRate (videos w0 1%nat) == 1 /\
  playbackRate (videos (exec (step true) w0) 1%nat) == 1.
Proof.
  split; [vm_compute; discriminate | ].
  apply (in_phase_restores_rate
           (run [ (50, Playback 0%nat (double 1.000));
                  (50, Playback 1%nat (double 1.040));
                  (60, FrameVFC 0%nat 1%nat);
                  (70, Playback 0%nat (double 1.200));
                  (70, Playback 1%nat (double 1.210)) ]
                (mounted 0 true)) true 0%nat 1%nat);
    qconst.
Defined.

(** X7. A hard correction puts the follower in phase: the iteration that
    follows it, with no playback in between, corrects nothing and only
    schedules its successor. *)
Theorem snap_then_quiet (w : World) (c c' : Closure) (l r : elem) :
  leftRef w = Some l -> rightRef w = Some r ->
  nearEnd (videos w l) = false ->
  HARD <= Qabs (currentTime (videos w r) - currentTime (videos w l)) ->
  let w1 := exec (step c) w in
  let w2 := exec (step c') w1 in
  videos w2 = videos w1 /\
  exists a, emitted w1 w2 = [a] /\ isRequest a = true.
Proof.
  intros Hl Hr Hn Hd w1 w2.
  assert (Ne : l <> r).
  { intros ->. revert Hd.
    setoid_replace (currentTime (videos w r) - currentTime (videos w r))
      with 0 by ring.
    unfold HARD. cbn. lra. }
  assert (E1 : w1 = exec (scheduleStep c) (exec (correctDrift l r) w))
    by apply (DriftCorrection.step_far w c l r Hl Hr Hn).
  destruct (correctDrift_follower_only l r w)
    as [pre [_ [_ [V [_ [_ [Rl [Rr _]]]]]]]].
  destruct (DriftCorrection.correctDrift_hard w l r Hd) as [R [T _]].
  destruct (scheduleStep_request c (exec (correctDrift l r) w))
    as [a [_ [_ [_ [_ [Vs [_ [_ [Ls Rs]]]]]]]]].
  rewrite <- E1 in Vs, Ls, Rs.
  assert (Hl1 : leftRef w1 = Some l) by (rewrite Ls, Rl; exact Hl).
  assert (Hr1 : rightRef w1 = Some r) by (rewrite Rs, Rr; exact Hr).
  assert (Vl : videos w1 l = videos w l) by (rewrite Vs; apply V, Ne).
  assert (Hn1 : nearEnd (videos w1 l) = false) by (rewrite Vl; exact Hn).
  assert (Z : Qabs (double (currentTime (videos w1 r) -
                            currentTime (videos w1 l))) < double SOFT).
  { rewrite Vl, Vs, T.
    rewrite (double_zero (currentTime (videos w l) - currentTime (videos w l)))
      by ring.
    qconst. }
  assert (O : playbackRate (videos w1 r) == 1) by (rewrite Vs, R; reflexivity).
  subst w2.
  rewrite (DriftCorrection.step_far w1 c' l r Hl1 Hr1 Hn1),
    (DriftCorrection.correctDrift_zero w1 l r Z O).
  destruct (scheduleStep_request c' w1) as [b [Lb [Rb [_ [_ [Vb _]]]]]].
  split; [exact Vb | ].
  exists b. split; [apply emitted_app; exact Lb | exact Rb].
Qed.

Lemma snap_then_quiet_witness :
  let w := run [ (50, Playback 0%nat 1.000); (50, Playback 1%nat 0.900) ]
               (mounted 0 true) in
  let w1 := exec (step true) w in
  let w2 := exec (step true) w1 in
  videos w2 = videos w1 /\
  exists a, emitted w1 w2 = [a] /\ isRequest a = true.
Proof.
  apply (snap_then_quiet
           (run [ (50, Playback 0%nat 1.000); (50, Playback 1%nat 0.900) ]
                (mounted 0 true)) true true 0%nat 1%nat);
    vm_compute; first [reflexivity | discriminate].
Defined.

(** The proximity test, in terms of the numbers it compares. *)
Lemma nearEnd_iff (v : Video) :
  nearEnd v = true <->
  exists d, duration v = Fin d /\ 0 < d /\
            double (d - currentTime v) <= double LOOP_GAP.
Proof.
  unfold nearEnd. destruct (duration v) as [ | | | d];
    cbn [isFinite ltb leb minus sub andb].
  - split; [discriminate | intros [d [E _]]; discriminate E].
  - split; [discriminate | intros [d [E _]]; discriminate E].
  - split; [discriminate | intros [d [E _]]; discriminate E].
  - rewrite andb_true_iff, negb_true_iff, Qle_bool_false_iff, Qle_bool_iff.
    split.
    + intros [P G]. exists d. repeat split; assumption.
    + intros [d' [E [P G]]]. injection E as <-. split; assumption.
Qed.

(** The test is on the difference the iteration computes: with a duration
    of 0.05s and the reference at 0.01s the subtraction gives the double
    0.04 and the reference counts as near its end, though the exact
    distance of the two doubles exceeds 0.04. *)
Example remaining_time_rounds_onto_gap :
  let w := run [ (20, Metadata 0%nat (Fin (double 0.05)));
                 (50, Playback 0%nat (double 0.01)) ]
               (mounted 0 true) in
  duration (videos w 0%nat) = Fin (double 0.05) /\
  0.04 < double 0.05 - currentTime (videos w 0%nat) /\
  nearEnd (videos w 0%nat) = true.
Proof. vm_compute. repeat split; reflexivity. Qed.

(** X8. An iteration pauses a stream only to restart the pair, and only when
    the duration of the reference is a finite positive number, the time
    that remains of the reference, as the iteration computes it, is at most
    [LOOP_GAP] = 40ms, the iteration's closure saw the playing intent and
    the last restart is at least 200ms old.  With a duration that is NaN,
    infinite, zero or negative it never does. *)
Theorem restart_needs_known_end (w : World) (c : Closure) (l r : elem)
        (e : elem) :
  leftRef w = Some l -> rightRef w = Some r ->
  In (APause e) (emitted w (exec (step c) w)) ->
  (exists d, duration (videos w l) = Fin d /\ 0 < d /\
             double (d - currentTime (videos w l)) <= double LOOP_GAP) /\
  c = true /\ 200 <= clock w - justLoopedAt w.
Proof.
  intros Hl Hr I.
  destruct (nearEnd (videos w l)) eqn:Hn.
  - split; [apply nearEnd_iff, Hn | ].
    rewrite (step_near w c l r Hl Hr Hn) in I.
    destruct (scheduleStep_request c (exec (syncRestart c) w))
      as [a [La [Ra _]]].
    revert I La. unfold emitted.
    generalize (exec (scheduleStep c) (exec (syncRestart c) w)) as w2.
    intros w2 I La. rewrite La in I. clear La.
    revert I. open_world w. unfold syncRestart. mred. cbn [negb].
    destruct c; cbn [negb].
    + destruct (Qltb (wClock - wLast) 200) eqn:D.
      * mred. rewrite skipn_app_exact. intros [E | []].
        rewrite E in Ra. discriminate Ra.
      * intros _. split; [reflexivity | apply Qltb_false_iff, D].
    + mred. rewrite skipn_app_exact. intros [E | []].
      rewrite E in Ra. discriminate Ra.
  - apply (step_far_calls w c l r Hl Hr Hn) in I.
    destruct I as [I | I]; discriminate I.
Qed.

Lemma restart_needs_known_end_witness :
  In (APause 0%nat) (emitted nearEndWorld (exec (step true) nearEndWorld)) /\
  (exists d, duration (videos nearEndWorld 0%nat) = Fin d /\ 0 < d /\
             double (d - currentTime (videos nearEndWorld 0%nat))
               <= double LOOP_GAP) /\
  true = true /\ 200 <= clock nearEndWorld - justLoopedAt nearEndWorld.
Proof.
  assert (I : In (APause 0%nat)
                 (emitted nearEndWorld (exec (step true) nearEndWorld)))
    by (vm_compute; left; reflexivity).
  split; [exact I | ].
  exact (restart_needs_known_end nearEndWorld true 0%nat 1%nat 0%nat
           eq_refl eq_refl I).
Defined.

End Iteration.

(** ** The synchronized restart *)

Module Restart.

(** X9. With both media handles in place, a synchronized restart that sees the
    playing intent at least 200ms after the last one pauses both streams,
    sets both rates to 1 and both positions to 0, stamps the time and waits
    for the two seeks; it schedules and cancels nothing.  One that sees the
    paused intent, or comes earlier, changes nothing at all. *)
Theorem restart_resets_both (w : World) (c : Closure) (l r : elem) :
  leftRef w = Some l -> rightRef w = Some r ->
  let w' := exec (syncRestart c) w in
  (c = true /\ 200 <= clock w - justLoopedAt w ->
     emitted w w' = restartSequence l r /\
     currentTime (videos w' l) = 0 /\ currentTime (videos w' r) = 0 /\
     playbackRate (videos w' l) = 1 /\ playbackRate (videos w' r) = 1 /\
     justLoopedAt w' = clock w /\
     tasks w' = tasks w ++ [RestartAwaitSeek l r false false] /\
     scheduled w' = scheduled w /\ loopHandle w' = loopHandle w /\
     isPlaying w' = isPlaying w /\ updates w' = updates w) /\
  (c = false \/ clock w - justLoopedAt w < 200 -> w' = w).
Proof.
  intros Hl Hr w'. subst w'. open_world w.
  unfold syncRestart, emitted, scheduled. mred. split.
  - intros [-> D]. apply Qltb_false_iff in D. cbn [negb]. rewrite D. mred.
    rewrite <- !app_assoc, skipn_app_exact, !Nat.eqb_refl.
    destruct (Nat.eqb l r); destruct (Nat.eqb r l);
      cbn [currentTime playbackRate]; repeat split.
  - intros [-> | D]; [reflexivity | ].
    apply Qltb_iff in D. destruct c; cbn [negb]; [rewrite D | ]; reflexivity.
Qed.

Lemma restart_resets_both_witness :
  let w := set_clock 1000 nearEndWorld in
  let w' := exec (syncRestart true) w in
  emitted w w' = restartSequence 0%nat 1%nat /\
  currentTime (videos w' 0%nat) = 0 /\ currentTime (videos w' 1%nat) = 0.
Proof.
  destruct (restart_resets_both (set_clock 1000 nearEndWorld) true 0%nat 1%nat
              eq_refl eq_refl) as [P _].
  destruct P as [E [T0 [T1 _]]].
  - split; [reflexivity | vm_compute; discriminate].
  - split; [exact E | split; [exact T0 | exact T1]].
Defined.

Lemma unmoved_map {A : Type} (f : A -> A) (xs : list A) :
  Forall (fun x => f x = x) xs -> map f xs = xs.
Proof.
  intros F. induction F as [|x xs H _ IH]; cbn [map];
    [reflexivity | rewrite H, IH; reflexivity].
Qed.

Lemma waiting_filter (ts : list Task) :
  Forall (fun t => taskReady t = false) ts ->
  filter taskReady ts = [] /\ filter (fun x => negb (taskReady x)) ts = ts.
Proof.
  intros F. induction F as [|x ts H _ [IH1 IH2]]; cbn [filter].
  - split; reflexivity.
  - rewrite H. cbn [negb]. rewrite IH1, IH2. split; reflexivity.
Qed.

(** What the completion of a seek does: the tasks hear of it, and those
    that have everything they waited for continue. *)
Lemma handle_seekDone (w : World) (t : Q) (bySeeked : bool) (e : elem) :
  exec (handle t (seekDone bySeeked e)) w =
  exec (forEach (filter taskReady (map (onSeekDone e) (tasks w))) resume)
       (set_tasks (filter (fun x => negb (taskReady x))
                          (map (onSeekDone e) (tasks w)))
                  (set_clock t w)).
Proof.
  destruct bySeeked; open_world w; unfold handle, seekDone, dispatch, deliver, wake;
    mred; destruct (forEach _ resume _); reflexivity.
Qed.

(** X10. The second half of a restart: [play()] is requested on both streams,
    left first, once both seeks have completed, in whichever order they do
    and whether [seeked] or [timeupdate] reports them; the first completion
    alone makes no call. *)
Theorem restart_replays_once_both_seeked
        (w : World) (l r : elem) (ts : list Task)
        (leftFirst byA byB : bool) (ta tb : Q) :
  tasks w = ts ++ [RestartAwaitSeek l r false false] ->
  Forall (seekBystander l r) ts -> l <> r ->
  let a := if leftFirst then l else r in
  let b := if leftFirst then r else l in
  let w1 := run [(ta, seekDone byA a)] w in
  let w2 := run [(tb, seekDone byB b)] w1 in
  w1 = set_tasks (ts ++ [RestartAwaitSeek l r leftFirst (negb leftFirst)])
                 (set_clock ta w) /\
  emitted w w1 = [] /\
  emitted w1 w2 = [APlay l (playNext w); APlay r (S (playNext w))] /\
  tasks w2 = ts.
Proof.
  intros T F Ne a b w1 w2.
  assert (Elr : Nat.eqb l r = false) by (apply Nat.eqb_neq; exact Ne).
  assert (Erl : Nat.eqb r l = false) by (apply Nat.eqb_neq; congruence).
  assert (W : Forall (fun t => taskReady t = false) ts)
    by (eapply Forall_impl; [ | exact F]; intros t [H _]; exact H).
  destruct (waiting_filter ts W) as [W1 W2].
  assert (Ul : map (onSeekDone l) ts = ts)
    by (apply unmoved_map; eapply Forall_impl; [ | exact F];
        intros t [_ [H _]]; exact H).
  assert (Ur : map (onSeekDone r) ts = ts)
    by (apply unmoved_map; eapply Forall_impl; [ | exact F];
        intros t [_ [_ H]]; exact H).
  assert (E1 : w1 = set_tasks (ts ++ [RestartAwaitSeek l r leftFirst (negb leftFirst)])
                              (set_clock ta w)).
  { subst w1 a. cbn [run]. rewrite handle_seekDone, T, map_app, !filter_app.
    destruct leftFirst; rewrite ?Ul, ?Ur, W1, W2;
      cbn [map onSeekDone filter taskReady orb andb negb app];
      rewrite ?Nat.eqb_refl, ?Elr, ?Erl;
      cbn [map onSeekDone filter taskReady orb andb negb app forEach];
      reflexivity. }
  assert (E2 : w2 = exec (syncRestart_seeked l r) (set_tasks ts (set_clock tb w))).
  { subst w2 b. cbn [run]. rewrite handle_seekDone, E1.
    cbn [tasks set_tasks set_clock]. rewrite map_app, !filter_app.
    destruct leftFirst; rewrite ?Ul, ?Ur, W1, W2;
      cbn [map onSeekDone filter taskReady orb andb negb app];
      rewrite ?Nat.eqb_refl, ?Elr, ?Erl;
      cbn [map onSeekDone filter taskReady orb andb negb app forEach resume];
      rewrite app_nil_r; open_world w; reflexivity. }
  split; [exact E1 | ]. rewrite E2, E1. clear E1 E2 w1 w2.
  open_world w. unfold emitted, syncRestart_seeked. mred.
  rewrite skipn_all, <- app_assoc, skipn_app_exact. repeat split.
Qed.

Lemma restart_replays_once_both_seeked_witness :
  let w := exec (syncRestart true) (set_clock 1000 nearEndWorld) in
  let w1 := run [(1005, Timeupdate 1%nat)] w in
  let w2 := run [(1006, Seeked 0%nat)] w1 in
  emitted w w1 = [] /\
  emitted w1 w2 = [APlay 0%nat 4%nat; APlay 1%nat 5%nat] /\ tasks w2 = [].
Proof.
  destruct (restart_replays_once_both_seeked
              (exec (syncRestart true) (set_clock 1000 nearEndWorld))
              0%nat 1%nat [] false false true 1005 1006)
    as [_ H].
  - reflexivity.
  - constructor.
  - discriminate.
  - exact H.
Defined.

(** The settlement of a [play()] promise that no suspended function waits
    for changes nothing. *)
Lemma settle_unawaited (w : World) (t : Q) (p q : nat) (ok : bool) :
  Forall (bystander p) (tasks w) -> (p <= q)%nat ->
  exec (handle t (PlaySettled q ok)) w = set_clock t w.
Proof.
  intros F L.
  rewrite PairLifecycle.handle_PlaySettled,
    (PairLifecycle.bystanders_unmoved p q ok _ F L).
  destruct (PairLifecycle.bystanders_wait p _ F) as [W1 W2].
  rewrite W1, W2. open_world w. reflexivity.
Qed.

(** X11. The outcome of the two [play()] requests of a restart is ignored:
    whether they resolve or reject, and in whichever order, nothing but the
    clock has changed afterwards; the intent, the pending iterations and
    the queue of state updates are as they were. *)
Theorem replay_outcome_ignored (w : World) (l r : elem) (first : bool)
        (ta tb : Q) (okL okR : bool) :
  Forall (bystander (playNext w)) (tasks w) ->
  let w1 := exec (syncRestart_seeked l r) w in
  let w2 := run (settleBoth first ta tb (playNext w) (S (playNext w)) okL okR) w1 in
  emitted w w1 = [APlay l (playNext w); APlay r (S (playNext w))] /\
  w2 = set_clock tb w1.
Proof.
  intros F w1 w2.
  assert (E1 : w1 = set_log (log w ++ [APlay l (playNext w); APlay r (S (playNext w))])
                      (set_playNext (S (S (playNext w))) w)).
  { subst w1. open_world w. unfold syncRestart_seeked. mred.
    rewrite <- app_assoc. reflexivity. }
  split; [apply emitted_app; rewrite E1; reflexivity | ].
  assert (F1 : forall t, Forall (bystander (playNext w)) (tasks (set_clock t w1)))
    by (intros t; rewrite E1; exact F).
  subst w2. destruct first; unfold settleBoth; cbn [run].
  - rewrite (settle_unawaited w1 ta (playNext w) (playNext w) okL F) by lia.
    rewrite (settle_unawaited _ tb (playNext w) (S (playNext w)) okR (F1 ta)) by lia.
    destruct w1; reflexivity.
  - rewrite (settle_unawaited w1 ta (playNext w) (S (playNext w)) okR F) by lia.
    rewrite (settle_unawaited _ tb (playNext w) (playNext w) okL (F1 ta)) by lia.
    destruct w1; reflexivity.
Qed.

Lemma replay_outcome_ignored_witness :
  let w := run [ (1005, Seeked 0%nat) ]
               (exec (syncRestart true) (set_clock 1000 nearEndWorld)) in
  let w1 := exec (syncRestart_seeked 0%nat 1%nat) w in
  let w2 := run (settleBoth true 1010 1011 (playNext w) (S (playNext w))
                            false false) w1 in
  emitted w w1 = [APlay 0%nat 4%nat; APlay 1%nat 5%nat] /\
  w2 = set_clock 1011 w1.
Proof.
  apply (replay_outcome_ignored
           (run [ (1005, Seeked 0%nat) ]
                (exec (syncRestart true) (set_clock 1000 nearEndWorld)))
           0%nat 1%nat true 1010 1011 false false).
  vm_compute. repeat constructor.
Defined.

End Restart.

(** ** The activation of a pair *)

Module Activation.

(** What [cancelSyncLoop] changes: the one call it makes, and the handle. *)
Lemma cancelSyncLoop_effect (w : World) :
  let w' := exec cancelSyncLoop w in
  log w' = log w ++ cancelCall w /\ loopHandle w' = None /\
  videos w' = videos w /\ tasks w' = tasks w /\
  isPlaying w' = isPlaying w /\ updates w' = updates w.
Proof.
  open_world w. unfold cancelSyncLoop, cancelCall.
  destruct wHandle as [[[|] i]|], wLeft, wVFC; mrun; cbn [kind id];
    rewrite ?app_nil_r; repeat split.
Qed.

(** [loadAndStart] after the cancellation: both streams are reset and
    reloaded, and the function suspends at the ready-gate. *)
Definition reloadBoth (l r : elem) (play_ : bool) (c : Closure) : M unit :=
  forEach [l; r] (fun v =>
    pause v ;;
    setPlaybackRate v 1 ;;
    setCurrentTime v 0 ;;
    load v) ;;
  readyL <- waitReady l ;;
  readyR <- waitReady r ;;
  spawn (LoadAwaitReady l r readyL readyR play_ c).

Lemma loadAndStart_parts (w : World) (play_ : bool) (c : Closure) (l r : elem) :
  leftRef w = Some l -> rightRef w = Some r ->
  exec (loadAndStart play_ c) w =
  exec (reloadBoth l r play_ c) (exec cancelSyncLoop w).
Proof.
  intros Hl Hr. open_world w. unfold loadAndStart. mred.
  destruct (cancelSyncLoop _) as [u w0]. reflexivity.
Qed.

(** X12. The synchronous part of [loadAndStart].  With both media handles in
    place it cancels the iteration it holds a handle of, then pauses each
    stream, sets its rate to 1 and its position to 0 and reloads it, left
    stream first; both streams are then at HAVE_NOTHING, so the activation
    always suspends at the ready-gate with neither side ready, even if both
    streams were ready before.  With a handle missing it does nothing. *)
Theorem activation_resets_and_waits (w : World) (play_ : bool) (c : Closure) :
  let w' := exec (loadAndStart play_ c) w in
  match leftRef w, rightRef w with
  | Some l, Some r =>
      emitted w w' =
        cancelCall w ++
        [ APause l; ASetRate l 1; ASetTime l 0; ALoad l;
          APause r; ASetRate r 1; ASetTime r 0; ALoad r ] /\
      tasks w' = tasks w ++ [LoadAwaitReady l r false false play_ c] /\
      loopHandle w' = None /\
      (forall e, e = l \/ e = r ->
         readyState (videos w' e) = 0%nat /\ currentTime (videos w' e) = 0 /\
         playbackRate (videos w' e) = 1 /\ errored (videos w' e) = false) /\
      (forall e, e <> l -> e <> r -> videos w' e = videos w e) /\
      isPlaying w' = isPlaying w /\ updates w' = updates w
  | _, _ => w' = w
  end.
Proof.
  cbv zeta.
  destruct (leftRef w) as [l|] eqn:Hl;
    [destruct (rightRef w) as [r|] eqn:Hr | ].
  - destruct (cancelSyncLoop_effect w) as [Lc [Hc [Vc [Tc [Pc Uc]]]]].
    rewrite (loadAndStart_parts w play_ c l r Hl Hr).
    revert Lc Hc Vc Tc Pc Uc.
    generalize (exec cancelSyncLoop w) as w0. intros w0 Lc Hc Vc Tc Pc Uc.
    rewrite <- Vc, <- Tc, <- Pc, <- Uc.
    assert (L : log (exec (reloadBoth l r play_ c) w0) =
                log w ++ cancelCall w ++
                [ APause l; ASetRate l 1; ASetTime l 0; ALoad l;
                  APause r; ASetRate r 1; ASetTime r 0; ALoad r ]).
    { rewrite app_assoc, <- Lc. clear. open_world w0.
      unfold reloadBoth, waitReady. mrun. rewrite <- !app_assoc. reflexivity. }
    split; [apply emitted_app, L | ].
    clear L Lc Vc Tc Pc Uc Hl Hr. open_world w0.
    unfold reloadBoth, waitReady. mrun. rewrite ?Nat.eqb_refl.
    destruct (Nat.eqb l r) eqn:Elr;
      cbn [readyState Nat.leb];
      (split; [reflexivity | ]); (split; [reflexivity | ]);
      (split; [ | split; [ | split; reflexivity]]).
    + intros e [-> | ->]; rewrite ?Nat.eqb_refl, ?Elr;
        cbn [readyState currentTime playbackRate errored];
        try (destruct (Nat.eqb r l));
        cbn [readyState currentTime playbackRate errored]; repeat split.
    + intros e Nl Nr; apply Nat.eqb_neq in Nl, Nr; rewrite ?Nl, ?Nr; reflexivity.
    + intros e [-> | ->]; rewrite ?Nat.eqb_refl, ?Elr;
        cbn [readyState currentTime playbackRate errored];
        try (destruct (Nat.eqb r l));
        cbn [readyState currentTime playbackRate errored]; repeat split.
    + intros e Nl Nr; apply Nat.eqb_neq in Nl, Nr; rewrite ?Nl, ?Nr; reflexivity.
  - open_world w. unfold loadAndStart. mred. reflexivity.
  - open_world w. unfold loadAndStart. mred. destruct wRight; reflexivity.
Qed.

(** What a [loadeddata] event of a healthy element does: the element's
    ready state is recorded, the tasks hear of it, and those that have
    everything they waited for continue. *)
Lemma handle_Loadeddata (w : World) (t : Q) (e : elem) (rs : nat) :
  errored (videos w e) = false ->
  exec (handle t (Loadeddata e rs)) w =
  exec (forEach (filter taskReady (map (onLoadeddata e rs) (tasks w))) resume)
       (set_tasks (filter (fun x => negb (taskReady x))
                          (map (onLoadeddata e rs) (tasks w)))
          (set_videos (fun e' => if Nat.eqb e' e
                                 then withReadyState rs (videos w e')
                                 else videos w e')
             (set_clock t w))).
Proof.
  intros He. open_world w. unfold handle, dispatch, deliver, wake. mred.
  rewrite He. mred. destruct (forEach _ resume _). reflexivity.
Qed.

(** X13. The ready-gate is a join.  An activation suspended on both streams
    continues exactly once, when the second of the two [loadeddata] events
    has arrived, in whichever order they come: it then requests [play()] on
    both streams, left first, when it was started with the playing intent,
    and otherwise moves both streams to 1ms and requests nothing.  The first
    event alone makes no call, and neither does an event that finds the
    stream below HAVE_CURRENT_DATA.  No iteration is scheduled on the
    way. *)
Theorem ready_gate_joins (w : World) (l r : elem) (ts : list Task)
        (play_ : bool) (c : Closure) (leftFirst : bool) (ta tb : Q)
        (rsL rsR : nat) :
  tasks w = ts ++ [LoadAwaitReady l r false false play_ c] ->
  Forall (loadBystander l r) ts -> l <> r ->
  errored (videos w l) = false -> errored (videos w r) = false ->
  (2 <= rsL)%nat -> (2 <= rsR)%nat ->
  let evL := Loadeddata l rsL in
  let evR := Loadeddata r rsR in
  let w1 := run [(ta, if leftFirst then evL else evR)] w in
  let w2 := run [(tb, if leftFirst then evR else evL)] w1 in
  emitted w w1 = [] /\
  tasks w1 = ts ++ [LoadAwaitReady l r leftFirst (negb leftFirst) play_ c] /\
  emitted w1 w2 =
    (if play_ then [APlay l (playNext w); APlay r (S (playNext w))]
     else [ASetTime l (double 0.001); ASetTime r (double 0.001)]) /\
  tasks w2 =
    ts ++ (if play_
           then [LoadAwaitPlay (playNext w) (S (playNext w)) None None c]
           else []) /\
  scheduled w2 = scheduled w /\ loopHandle w2 = loopHandle w /\
  (forall t rs, (rs < 2)%nat ->
     let w0 := run [(t, Loadeddata l rs)] w in
     tasks w0 = tasks w /\ emitted w w0 = []).
Proof.
  intros T F Ne El Er Hl Hr evL evR w1 w2.
  assert (Elr : Nat.eqb l r = false) by (apply Nat.eqb_neq; exact Ne).
  assert (Erl : Nat.eqb r l = false) by (apply Nat.eqb_neq; congruence).
  apply Nat.leb_le in Hl, Hr.
  assert (W : Forall (fun t => taskReady t = false) ts)
    by (eapply Forall_impl; [ | exact F]; intros t [H _]; exact H).
  destruct (Restart.waiting_filter ts W) as [W1 W2].
  assert (Ul : forall rs, map (onLoadeddata l rs) ts = ts)
    by (intros rs; apply Restart.unmoved_map; eapply Forall_impl; [ | exact F];
        intros t [_ H]; apply H).
  assert (Ur : forall rs, map (onLoadeddata r rs) ts = ts)
    by (intros rs; apply Restart.unmoved_map; eapply Forall_impl; [ | exact F];
        intros t [_ H]; apply H).
  set (a := if leftFirst then l else r).
  set (rsA := if leftFirst then rsL else rsR).
  set (b := if leftFirst then r else l).
  set (rsB := if leftFirst then rsR else rsL).
  set (va := fun e' => if Nat.eqb e' a then withReadyState rsA (videos w e')
                       else videos w e').
  assert (E1 : w1 = set_tasks (ts ++ [LoadAwaitReady l r leftFirst (negb leftFirst)
                                        play_ c])
                      (set_videos va (set_clock ta w))).
  { subst w1 evL evR va a rsA. cbn [run].
    destruct leftFirst;
      rewrite handle_Loadeddata by assumption;
      rewrite T, map_app, !filter_app, ?Ul, ?Ur, W1, W2;
      cbn [map onLoadeddata filter taskReady orb andb negb app];
      rewrite ?Nat.eqb_refl, ?Elr, ?Erl, ?Hl, ?Hr;
      cbn [map onLoadeddata filter taskReady orb andb negb app forEach];
      reflexivity. }
  assert (Eb : errored (videos w1 b) = false).
  { rewrite E1. subst va a b. cbn [videos set_tasks set_videos set_clock].
    destruct leftFirst; rewrite ?Elr, ?Erl; assumption. }
  assert (E2 : w2 = exec (loadAndStart_ready l r play_ c)
                      (set_tasks ts
                         (set_videos (fun e' => if Nat.eqb e' b
                                                then withReadyState rsB (videos w1 e')
                                                else videos w1 e')
                            (set_clock tb w1)))).
  { assert (T1 : tasks w1 = ts ++ [LoadAwaitReady l r leftFirst (negb leftFirst)
                                      play_ c])
      by (rewrite E1; reflexivity).
    subst w2 evL evR. cbn [run].
    replace (if leftFirst then Loadeddata r rsR else Loadeddata l rsL)
      with (Loadeddata b rsB) by (subst b rsB; destruct leftFirst; reflexivity).
    rewrite handle_Loadeddata by exact Eb.
    rewrite T1, map_app, !filter_app. subst b rsB.
    destruct leftFirst; rewrite ?Ul, ?Ur, W1, W2;
      cbn [map onLoadeddata filter taskReady orb andb negb app];
      rewrite ?Nat.eqb_refl, ?Elr, ?Erl, ?Hl, ?Hr;
      cbn [map onLoadeddata filter taskReady orb andb negb app forEach resume];
      rewrite app_nil_r; unfold exec, bind, ret;
      destruct (loadAndStart_ready l r play_ c _); reflexivity. }
  split; [rewrite E1; unfold emitted; apply skipn_all | ].
  split; [rewrite E1; reflexivity | ].
  assert (P1 : playNext w1 = playNext w /\ log w1 = log w /\
               vfcPending w1 = vfcPending w /\ rafPending w1 = rafPending w /\
               loopHandle w1 = loopHandle w)
    by (rewrite E1; repeat split).
  destruct P1 as [Pn [Pl [Pv [Pr Ph]]]].
  rewrite <- Pn, <- Ph. unfold scheduled. rewrite <- Pv, <- Pr.
  rewrite E2. clear E1 E2 Eb Pn Pl Pv Pr Ph w2.
  generalize (fun e' : elem => if Nat.eqb e' b
                               then withReadyState rsB (videos w1 e')
                               else videos w1 e') as vb.
  intros vb.
  split; [ | split; [ | split; [ | split]]].
  - open_world w1. unfold emitted, loadAndStart_ready.
    destruct play_; cbn [negb]; mred;
      rewrite <- app_assoc, skipn_app_exact; reflexivity.
  - open_world w1. unfold loadAndStart_ready.
    destruct play_; cbn [negb]; mred; rewrite ?app_nil_r; reflexivity.
  - open_world w1. unfold loadAndStart_ready.
    destruct play_; cbn [negb]; mred; reflexivity.
  - open_world w1. unfold loadAndStart_ready.
    destruct play_; cbn [negb]; mred; reflexivity.
  - intros t rs Hrs. cbn [run].
    rewrite handle_Loadeddata by exact El.
    rewrite T, map_app, !filter_app, Ul, W1, W2.
    assert (K : (2 <=? rs)%nat = false) by (apply Nat.leb_gt; assumption).
    cbn [map onLoadeddata filter taskReady orb andb negb app].
    rewrite K, !andb_false_r.
    cbn [map onLoadeddata filter taskReady orb andb negb app forEach].
    split; [reflexivity | unfold emitted; apply skipn_all].
Qed.

Lemma ready_gate_joins_witness :
  let w := mounted 0 true in
  let w1 := run [(10, Loadeddata 1%nat 4%nat)] w in
  let w2 := run [(11, Loadeddata 0%nat 2%nat)] w1 in
  tasks w = [LoadAwaitReady 0%nat 1%nat false false true true] /\
  emitted w w1 = [] /\
  emitted w1 w2 = [APlay 0%nat 2%nat; APlay 1%nat 3%nat] /\
  tasks w2 = [LoadAwaitPlay 2%nat 3%nat None None true].
Proof.
  split; [reflexivity | ].
  destruct (ready_gate_joins (mounted 0 true) 0%nat 1%nat [] true true false
              10 11 2%nat 4%nat)
    as [A [_ [B [C _]]]].
  - reflexivity.
  - constructor.
  - discriminate.
  - reflexivity.
  - reflexivity.
  - lia.
  - lia.
  - split; [exact A | split; [exact B | exact C]].
Defined.

(** X14. The first commit.  The activation resets and reloads both streams and
    waits at the ready-gate; the intent effect, which runs in the same
    commit, does not wait: with both streams still at HAVE_NOTHING it
    requests [play()] on both and schedules the first iteration. *)
Theorem mount_starts_before_ready (active0 : nat) (canVFC : bool) :
  let w := mounted active0 canVFC in
  leftRef w = Some 0%nat /\ rightRef w = Some 1%nat /\
  log w =
    [ APause 0%nat; ASetRate 0%nat 1; ASetTime 0%nat 0; ALoad 0%nat;
      APause 1%nat; ASetRate 1%nat 1; ASetTime 1%nat 0; ALoad 1%nat;
      ASetTime 0%nat 0; ASetTime 1%nat 0; APlay 0%nat 0%nat; APlay 1%nat 1%nat;
      if canVFC then ARequestVFC 0%nat 1%nat else ARequestRAF 1%nat ] /\
  tasks w = [LoadAwaitReady 0%nat 1%nat false false true true] /\
  readyState (videos w 0%nat) = 0%nat /\ readyState (videos w 1%nat) = 0%nat /\
  scheduled w = 1%nat /\ isPlaying w = true /\ active w = active0.
Proof. destruct canVFC; repeat split. Qed.

End Activation.

(** ** Commits of the user's actions *)

Module Commit.

Lemma run_unit (m : M unit) (w : World) : m w = (tt, exec m w).
Proof. unfold exec. destruct (m w) as [[] w']. reflexivity. Qed.

(** The pending video frame and animation frame callbacks once
    [cancelSyncLoop] has run. *)
Definition cancelledVFC (w : World) : list (elem * nat * Closure) :=
  match loopHandle w with
  | Some h =>
      match kind h, leftRef w with
      | vfc, Some l =>
          if supportsVFC w then
            filter (fun p => negb (Nat.eqb (fst (fst p)) l && Nat.eqb (snd (fst p)) (id h)))
                   (vfcPending w)
          else vfcPending w
      | _, _ => vfcPending w
      end
  | None => vfcPending w
  end.

Definition cancelledRAF (w : World) : list (nat * Closure) :=
  match loopHandle w with
  | Some h =>
      match kind h, leftRef w with
      | vfc, Some l =>
          if supportsVFC w then rafPending w
          else filter (fun p => negb (Nat.eqb (fst p) (id h))) (rafPending w)
      | _, _ => filter (fun p => negb (Nat.eqb (fst p) (id h))) (rafPending w)
      end
  | None => rafPending w
  end.

Lemma cancelSyncLoop_eq (w : World) :
  cancelSyncLoop w =
  (tt, mkWorld (active w) (isPlaying w) (updates w) (leftRef w) (rightRef w)
         None (justLoopedAt w) (videos w) (nextElem w) (supportsVFC w)
         (vfcNext w) (cancelledVFC w) (rafNext w) (cancelledRAF w)
         (playNext w) (clock w) (tasks w) (endedL w)
         (log w ++ cancelCall w)).
Proof.
  open_world w. unfold cancelSyncLoop, cancelCall, cancelledVFC, cancelledRAF.
  destruct wHandle as [[[|] i]|], wLeft, wVFC; mrun; cbn [kind id];
    rewrite ?app_nil_r; reflexivity.
Qed.

Lemma cancelSyncLoop_spec (w : World) :
  exists k v q,
    cancelSyncLoop w =
    (tt, mkWorld (active w) (isPlaying w) (updates w) (leftRef w) (rightRef w)
           None (justLoopedAt w) (videos w) (nextElem w) (supportsVFC w)
           (vfcNext w) v (rafNext w) q (playNext w) (clock w) (tasks w)
           (endedL w) (log w ++ k)) /\
    k = cancelCall w /\ v = cancelledVFC w.
Proof.
  eexists; eexists; eexists.
  split; [apply cancelSyncLoop_eq | split; reflexivity].
Qed.

Lemma quiescent_filters (w : World) :
  quiescent w ->
  filter taskReady (tasks w) = [] /\
  filter (fun x => negb (taskReady x)) (tasks w) = tasks w.
Proof. apply Restart.waiting_filter. Qed.

(** Between two events nothing continues at the microtask checkpoint. *)
Lemma wake_quiescent (w : World) : quiescent w -> exec wake w = w.
Proof.
  intros Q. destruct (quiescent_filters w Q) as [W1 W2].
  open_world w. unfold wake. mred. rewrite W1, W2. reflexivity.
Qed.

Lemma handle_ClickToggle (w : World) (t : Q) :
  quiescent w ->
  exec (handle t ClickToggle) w =
  set_updates (updates w ++ [TogglePlaying]) (set_clock t w).
Proof.
  intros Q. destruct (quiescent_filters w Q) as [W1 W2].
  open_world w. unfold handle, dispatch, togglePlay, wake. mred.
  rewrite W1, W2. reflexivity.
Qed.

Lemma handle_ClickThumb (w : World) (t : Q) (i : nat) :
  quiescent w ->
  exec (handle t (ClickThumb i)) w =
  set_updates (updates w ++ [SetActive i]) (set_clock t w).
Proof.
  intros Q. destruct (quiescent_filters w Q) as [W1 W2].
  open_world w. unfold handle, dispatch, wake. mred.
  rewrite W1, W2. reflexivity.
Qed.

(** X15. The user pauses.  The commit of the toggle cancels the iteration the
    component holds a handle of and pauses both streams; it writes no
    position and no rate, reloads nothing, keeps the pair and its elements,
    and leaves no iteration handle. *)
Theorem pause_commit (w : World) (l r : elem) (t t' : Q) :
  isPlaying w = true -> updates w = [] -> quiescent w ->
  leftRef w = Some l -> rightRef w = Some r ->
  let w' := run [(t, ClickToggle); (t', Render)] w in
  isPlaying w' = false /\
  emitted w w' = cancelCall w ++ [APause l; APause r] /\
  videos w' = videos w /\ loopHandle w' = None /\
  leftRef w' = Some l /\ rightRef w' = Some r /\ active w' = active w /\
  tasks w' = tasks w /\ updates w' = [] /\
  endedL w' = [(l, false); (r, false)].
Proof.
  intros P U Q Hl Hr w'. subst w'. cbn [run].
  rewrite (handle_ClickToggle w t Q).
  destruct (quiescent_filters w Q) as [W1 W2].
  assert (C : cancelCall (set_updates [] (set_clock t' w)) = cancelCall w)
    by (destruct w; reflexivity).
  revert C. open_world w. intros C.
  unfold handle, dispatch, render, wake, endedCleanup, intentEffect,
    endedEffect, emitted.
  cbn [set_updates set_clock updates app].
  assert (A : Nat.eqb wActive wActive = true) by apply Nat.eqb_refl.
  mrun. rewrite A. mrun. rewrite cancelSyncLoop_eq. mrun.
  rewrite W1, W2. mrun.
  cbn [set_updates set_clock] in C. rewrite <- C.
  rewrite <- !app_assoc, skipn_app_exact. repeat split.
Qed.

Lemma pause_commit_witness :
  let w' := run [(20, ClickToggle); (21, Render)] playingWorld in
  isPlaying w' = false /\
  emitted playingWorld w' = [ACancelVFC 0%nat 2%nat; APause 0%nat; APause 1%nat] /\
  videos w' = videos playingWorld /\ scheduled w' = 0%nat.
Proof.
  destruct (pause_commit playingWorld 0%nat 1%nat 20 21)
    as [A [B [C _]]]; try reflexivity.
  - vm_compute. constructor.
  - split; [exact A | split; [exact B | split; [exact C | reflexivity]]].
Defined.

Lemma orZero_eq (x : Q) : orZero x == x.
Proof.
  unfold orZero. destruct (Qeq_bool x 0) eqn:E; [ | reflexivity].
  apply Qeq_bool_iff in E. symmetry. exact E.
Qed.

(** X16. The user resumes.  The commit of the toggle first writes to both
    streams the smaller of their two positions, then requests [play()] on
    both, left first, then cancels the iteration it holds a handle of and
    schedules one; it reloads nothing and awaits neither [play()]
    promise. *)
Theorem resume_commit (w : World) (l r : elem) (t t' : Q) :
  isPlaying w = false -> updates w = [] -> quiescent w ->
  leftRef w = Some l -> rightRef w = Some r ->
  let m := Qmin (orZero (currentTime (videos w l)))
                (orZero (currentTime (videos w r))) in
  let w' := run [(t, ClickToggle); (t', Render)] w in
  isPlaying w' = true /\
  (exists a, isRequest a = true /\
     emitted w w' =
       [ ASetTime l m; ASetTime r m;
         APlay l (playNext w); APlay r (S (playNext w)) ] ++
       cancelCall w ++ [a] /\
     loopHandle w' = handleOf a) /\
  currentTime (videos w' l) = m /\ currentTime (videos w' r) = m /\
  m == Qmin (currentTime (videos w l)) (currentTime (videos w r)) /\
  leftRef w' = Some l /\ rightRef w' = Some r /\ active w' = active w /\
  tasks w' = tasks w /\ updates w' = [] /\
  endedL w' = [(l, true); (r, true)].
Proof.
  intros P U Q Hl Hr m w'. subst w'. cbn [run].
  rewrite (handle_ClickToggle w t Q).
  destruct (quiescent_filters w Q) as [W1 W2].
  assert (M : m == Qmin (currentTime (videos w l)) (currentTime (videos w r)))
    by (subst m; rewrite !orZero_eq; reflexivity).
  split; [ | split; [ | split; [ | split; [ | split; [exact M | ]]]]];
    clear M; subst m.
  all: open_world w;
    unfold handle, dispatch, render, wake, endedCleanup, intentEffect,
      endedEffect, startSyncLoop, scheduleStep, emitted, cancelCall;
    cbn [set_updates set_clock updates app];
    assert (A : Nat.eqb wActive wActive = true) by apply Nat.eqb_refl;
    mrun; rewrite A; mrun; rewrite cancelSyncLoop_eq;
    unfold cancelCall; cbn [loopHandle leftRef supportsVFC].
  - destruct wVFC; mrun; rewrite W1, W2; mrun; reflexivity.
  - destruct wVFC; mrun; rewrite W1, W2; mrun; eexists;
      (split;
       [ | split; [rewrite <- !app_assoc, skipn_app_exact; cbn [app];
                   reflexivity | ]]);
      reflexivity.
  - destruct wVFC; mrun; rewrite W1, W2; mrun; rewrite Nat.eqb_refl;
      destruct (Nat.eqb l r); reflexivity.
  - destruct wVFC; mrun; rewrite W1, W2; mrun; rewrite Nat.eqb_refl;
      reflexivity.
  - destruct wVFC; mrun; rewrite W1, W2; mrun; repeat split.
Qed.

Lemma resume_commit_witness :
  let w := run [ (20, ClickToggle); (21, Render);
                 (30, Playback 0%nat 2.0); (30, Playback 1%nat 2.3) ]
               playingWorld in
  let w' := run [(40, ClickToggle); (41, Render)] w in
  isPlaying w = false /\ isPlaying w' = true /\
  currentTime (videos w' 0%nat) == 2.0 /\ currentTime (videos w' 1%nat) == 2.0.
Proof.
  split; [reflexivity | ].
  destruct (resume_commit
              (run [ (20, ClickToggle); (21, Render);
                     (30, Playback 0%nat 2.0); (30, Playback 1%nat 2.3) ]
                   playingWorld) 0%nat 1%nat 40 41)
    as [A [_ [B [C _]]]]; try reflexivity.
  - vm_compute. constructor.
  - split; [exact A | ]. rewrite B, C. vm_compute. split; reflexivity.
Defined.

(** An [ended] event of an element that has no listener of the component
    does nothing. *)
Lemma handle_Ended_elsewhere (w : World) (t : Q) (e : elem) :
  quiescent w ->
  Forall (fun p : nat * Closure => Nat.eqb (fst p) e = false) (endedL w) ->
  exec (handle t (Ended e)) w = set_clock t w.
Proof.
  intros Q F. destruct (quiescent_filters w Q) as [W1 W2].
  assert (N : filter (fun p : nat * Closure => Nat.eqb (fst p) e) (endedL w) = []).
  { revert F. generalize (endedL w) as ls. intros ls F.
    induction F as [|x xs H _ IH]; cbn [filter]; [reflexivity | ].
    rewrite H. exact IH. }
  revert N. open_world w. unfold handle, dispatch, wake. mred.
  intros N. rewrite N. mrun. rewrite W1, W2. reflexivity.
Qed.

(** X17. The [ended] path.  With the listeners of the current effect on both
    streams, an [ended] event of either stream calls [syncRestart] once,
    with the intent that effect saw: it restarts the pair when that intent
    is playing and the last restart is at least 200ms old, and does nothing
    otherwise. *)
Theorem ended_restarts_pair (w : World) (l r e : elem) (c : Closure) (now : Q) :
  leftRef w = Some l -> rightRef w = Some r -> l <> r ->
  endedL w = [(l, c); (r, c)] -> quiescent w -> e = l \/ e = r ->
  let w' := run [(now, Ended e)] w in
  (c = true /\ 200 <= now - justLoopedAt w ->
     emitted w w' = restartSequence l r /\ justLoopedAt w' = now /\
     tasks w' = tasks w ++ [RestartAwaitSeek l r false false]) /\
  (c = false \/ now - justLoopedAt w < 200 -> w' = set_clock now w).
Proof.
  intros Hl Hr Ne L Q He w'. subst w'. cbn [run].
  destruct (quiescent_filters w Q) as [W1 W2].
  assert (Elr : Nat.eqb l r = false) by (apply Nat.eqb_neq; exact Ne).
  assert (Erl : Nat.eqb r l = false) by (apply Nat.eqb_neq; congruence).
  open_world w. unfold handle, dispatch, wake, syncRestart, emitted. mred.
  cbn [filter].
  destruct He as [-> | ->]; rewrite ?Nat.eqb_refl, ?Elr, ?Erl;
    cbn [forEach]; mred; (split; [intros [-> D] | intros [-> | D]]).
  all: try apply Qltb_false_iff in D; try apply Qltb_iff in D;
    try (destruct c); cbn [negb]; rewrite ?D; mrun;
    rewrite ?filter_app, W1, W2;
    cbn [filter taskReady andb negb app forEach]; mrun;
    rewrite <- ?app_assoc, ?skipn_app_exact; repeat split.
Qed.

Lemma ended_restarts_pair_witness :
  let w' := run [(1000, Ended 1%nat)] nearEndWorld in
  emitted nearEndWorld w' = restartSequence 0%nat 1%nat /\
  justLoopedAt w' = 1000.
Proof.
  destruct (ended_restarts_pair nearEndWorld 0%nat 1%nat 1%nat true 1000)
    as [[A [B _]] _]; try reflexivity.
  - discriminate.
  - vm_compute. constructor.
  - right. reflexivity.
  - split; [reflexivity | vm_compute; discriminate].
  - split; [exact A | exact B].
Defined.

(** The world after the commit of a pair switch. *)
Lemma switch_commit (w : World) (i : nat) (t t' : Q) :
  i <> active w -> updates w = [] -> quiescent w ->
  let n := nextElem w in
  let p := isPlaying w in
  let w' := run [(t, ClickThumb i); (t', Render)] w in
  active w' = i /\ isPlaying w' = p /\
  leftRef w' = Some n /\ rightRef w' = Some (S n) /\
  emitted w w' =
    cancelCall (set_leftRef (Some n) w) ++
    [ APause n; ASetRate n 1; ASetTime n 0; ALoad n;
      APause (S n); ASetRate (S n) 1; ASetTime (S n) 0; ALoad (S n) ] /\
  tasks w' = tasks w ++ [LoadAwaitReady n (S n) false false p p] /\
  endedL w' = [(n, p); (S n, p)] /\
  loopHandle w' = None /\ updates w' = [] /\
  (forall e, (e < n)%nat -> videos w' e = videos w e) /\
  vfcPending w' = cancelledVFC (set_leftRef (Some n) w).
Proof.
  intros Ni U Q n p w'.
  subst w' n p. cbn [run]. rewrite (handle_ClickThumb w t i Q).
  destruct (quiescent_filters w Q) as [W1 W2].
  apply Nat.eqb_neq in Ni.
  match goal with
  | |- context [exec ?m ?w0] => remember (exec m w0) as wf eqn:E
  end.
  revert E Ni. open_world w. intros E Ni. revert E.
  assert (E1 : Nat.eqb wNextElem (S wNextElem) = false)
    by (apply Nat.eqb_neq; lia).
  assert (E2 : Nat.eqb (S wNextElem) wNextElem = false)
    by (apply Nat.eqb_neq; lia).
  unfold handle, dispatch, render.
  cbn [set_updates set_clock updates app].
  mred. cbn [fold_left applyUpdate fst snd]. rewrite Ni.
  assert (B : Bool.eqb wPlaying wPlaying = true) by (destruct wPlaying; reflexivity).
  rewrite B. cbn [negb orb]. cbv iota.
  unfold remount. mred.
  unfold activeCleanup.
  match goal with
  | |- context [cancelSyncLoop ?W] =>
      destruct (cancelSyncLoop_spec W) as [k [v [q [Ec [K V]]]]]; rewrite Ec;
      clear Ec
  end.
  unfold cancelCall in K. cbn [loopHandle leftRef supportsVFC] in K.
  unfold cancelledVFC in V.
  cbn [loopHandle leftRef supportsVFC vfcPending] in V.
  unfold endedCleanup, activeEffect, loadAndStart. mred.
  match goal with
  | |- context [cancelSyncLoop ?W] =>
      destruct (cancelSyncLoop_spec W) as [k' [v' [q' [Ec [K' V']]]]];
      rewrite Ec; clear Ec
  end.
  unfold cancelCall in K'. cbn [loopHandle] in K'. subst k'.
  unfold cancelledVFC in V'. cbn [loopHandle vfcPending] in V'. subst v'.
  unfold waitReady. mrun. rewrite ?Nat.eqb_refl, ?E1, ?E2.
  cbn [readyState Nat.leb].
  unfold endedEffect, wake. mrun.
  rewrite !filter_app, W1, W2.
  cbn [filter taskReady andb negb app forEach]. mrun.
  intros ->.
  cbn [active isPlaying leftRef rightRef tasks endedL loopHandle updates
       videos log vfcPending].
  unfold emitted, cancelCall, cancelledVFC.
  cbn [log loopHandle leftRef supportsVFC vfcPending set_leftRef].
  rewrite <- K, <- V, ?app_nil_r, <- ?app_assoc, skipn_app_exact. cbn [app].
  repeat split.
  intros e He.
  assert (X1 : Nat.eqb e wNextElem = false) by (apply Nat.eqb_neq; lia).
  assert (X2 : Nat.eqb e (S wNextElem) = false) by (apply Nat.eqb_neq; lia).
  rewrite X1, X2. reflexivity.
Qed.

(** X18. The user selects another pair.  The commit mounts two new elements and
    points the refs to them before anything else runs: the cancellation of
    the old activation is made with the left ref on the new element; both
    new streams are reset and reloaded, and the new activation waits at the
    ready-gate with the intent unchanged.  The elements of the old pair are
    not touched, not even paused, and their [ended] events do nothing any
    more. *)
Theorem switch_mounts_fresh_pair (w : World) (i : nat) (t t' : Q) :
  i <> active w -> updates w = [] -> quiescent w ->
  let n := nextElem w in
  let p := isPlaying w in
  let w' := run [(t, ClickThumb i); (t', Render)] w in
  active w' = i /\ isPlaying w' = p /\
  leftRef w' = Some n /\ rightRef w' = Some (S n) /\
  emitted w w' =
    cancelCall (set_leftRef (Some n) w) ++
    [ APause n; ASetRate n 1; ASetTime n 0; ALoad n;
      APause (S n); ASetRate (S n) 1; ASetTime (S n) 0; ALoad (S n) ] /\
  tasks w' = tasks w ++ [LoadAwaitReady n (S n) false false p p] /\
  endedL w' = [(n, p); (S n, p)] /\
  loopHandle w' = None /\ updates w' = [] /\
  (forall e, (e < n)%nat -> videos w' e = videos w e) /\
  (forall e t'', (e < n)%nat ->
     exec (handle t'' (Ended e)) w' = set_clock t'' w').
Proof.
  intros Ni U Q n p w'.
  destruct (switch_commit w i t t' Ni U Q) as [A [B [C [D [E [F [G [H [I [J _]]]]]]]]]].
  subst n p w'.
  repeat split; try assumption.
  intros e t'' He. apply handle_Ended_elsewhere.
  - unfold quiescent. rewrite F. apply Forall_app. split; [exact Q | ].
    constructor; [reflexivity | constructor].
  - rewrite G. repeat constructor; cbn [fst]; apply Nat.eqb_neq; lia.
Qed.

Lemma switch_mounts_fresh_pair_witness :
  let w' := run [(14, ClickThumb 1%nat); (15, Render)] playingWorld in
  active w' = 1%nat /\ leftRef w' = Some 2%nat /\ rightRef w' = Some 3%nat /\
  emitted playingWorld w' =
    [ ACancelVFC 2%nat 2%nat;
      APause 2%nat; ASetRate 2%nat 1; ASetTime 2%nat 0; ALoad 2%nat;
      APause 3%nat; ASetRate 3%nat 1; ASetTime 3%nat 0; ALoad 3%nat ].
Proof.
  destruct (switch_mounts_fresh_pair playingWorld 1%nat 14 15)
    as [A [_ [C [D [E _]]]]].
  - vm_compute. discriminate.
  - reflexivity.
  - vm_compute. constructor.
  - split; [exact A | split; [exact C | split; [exact D | exact E]]].
Defined.

(** X29. A pair switch cancels no video frame callback.  The callbacks pending
    at the switch were requested on elements mounted earlier, and the only
    cancellation of the commit is addressed to the new left element: they
    all stay pending, while the component gives up the handle. *)
Theorem switch_cancels_no_video_frame (w : World) (i : nat) (t t' : Q) :
  i <> active w -> updates w = [] -> quiescent w ->
  Forall (fun p : elem * nat * Closure => (fst (fst p) < nextElem w)%nat)
         (vfcPending w) ->
  let w' := run [(t, ClickThumb i); (t', Render)] w in
  vfcPending w' = vfcPending w /\ loopHandle w' = None.
Proof.
  intros Ni U Q Old w'.
  destruct (switch_commit w i t t' Ni U Q) as [_ [_ [_ [_ [_ [_ [_ [H [_ [_ V]]]]]]]]]].
  subst w'. split; [ | exact H].
  rewrite V. clear V H.
  unfold cancelledVFC.
  destruct w as [wActive wPlaying wUpdates wLeft wRight wHandle wLast wVideos
                 wNextElem wVFC wVfcNext wVfcPending wRafNext wRafPending
                 wPlayNext wClock wTasks wEnded wLog].
  cbn [loopHandle leftRef supportsVFC vfcPending nextElem set_leftRef] in *.
  destruct wHandle as [[[|] j]|]; cbn [kind id]; try reflexivity.
  destruct wVFC; [ | reflexivity].
  clear - Old. induction Old as [|[[e0 j0] c0] xs Hx _ IH]; cbn [filter fst snd];
    [reflexivity | ].
  cbn [fst] in Hx.
  assert (X : Nat.eqb e0 wNextElem = false) by (apply Nat.eqb_neq; lia).
  rewrite X. cbn [andb negb]. rewrite IH. reflexivity.
Qed.

Lemma switch_cancels_no_video_frame_witness :
  let w' := run [(14, ClickThumb 1%nat); (15, Render)] playingWorld in
  vfcPending playingWorld = [(0%nat, 2%nat, true)] /\
  loopHandle playingWorld = Some (mkHandle vfc 2) /\
  vfcPending w' = vfcPending playingWorld /\ loopHandle w' = None.
Proof.
  split; [reflexivity | split; [reflexivity | ]].
  apply (switch_cancels_no_video_frame playingWorld 1%nat 14 15).
  - vm_compute. discriminate.
  - reflexivity.
  - vm_compute. constructor.
  - vm_compute. repeat constructor.
Defined.

(** X30. The unmount cancels no video frame callback either.  Its cleanup runs
    with the refs cleared, so whatever handle is held is passed to
    [cancelAnimationFrame]; the video frame callbacks all stay pending, and
    the component is left without refs, listeners and handle. *)
Theorem unmount_cancels_no_video_frame (w : World) (t : Q) :
  quiescent w ->
  let w' := run [(t, Unmount)] w in
  vfcPending w' = vfcPending w /\
  emitted w w' =
    match loopHandle w with
    | Some h => [ACancelRAF (id h)]
    | None => []
    end /\
  leftRef w' = None /\ rightRef w' = None /\
  loopHandle w' = None /\ endedL w' = [] /\ videos w' = videos w.
Proof.
  intros Q w'. subst w'. cbn [run].
  destruct (quiescent_filters w Q) as [W1 W2].
  open_world w.
  unfold handle, dispatch, unmount, activeCleanup, endedCleanup, wake, emitted.
  mred. rewrite cancelSyncLoop_eq.
  unfold cancelCall, cancelledVFC, cancelledRAF.
  cbn [loopHandle leftRef supportsVFC vfcPending rafPending log].
  destruct wHandle as [[[|] j]|]; cbn [kind id]; mrun; rewrite W1, W2; mrun;
    rewrite ?app_nil_r, ?skipn_all, ?skipn_app_exact; repeat split.
Qed.

Lemma unmount_cancels_no_video_frame_witness :
  let w' := run [(100, Unmount)] playingWorld in
  vfcPending w' = [(0%nat, 2%nat, true)] /\
  emitted playingWorld w' = [ACancelRAF 2%nat] /\ leftRef w' = None.
Proof.
  destruct (unmount_cancels_no_video_frame playingWorld 100)
    as [A [B [C _]]].
  - vm_compute. constructor.
  - split; [rewrite A; reflexivity | split; [exact B | exact C]].
Defined.

(** X19. A click on the thumbnail of the active pair changes nothing: the
    commit finds the state as it was and runs no effect, so no stream is
    paused, moved or reloaded and the loop goes on. *)
Theorem reselect_is_noop (w : World) (t t' : Q) :
  updates w = [] -> quiescent w ->
  run [(t, ClickThumb (active w)); (t', Render)] w = set_clock t' w.
Proof.
  intros U Q. cbn [run]. rewrite (handle_ClickThumb w t _ Q).
  destruct (quiescent_filters w Q) as [W1 W2].
  open_world w. unfold handle, dispatch, render, wake.
  cbn [set_updates set_clock updates app active].
  mrun. rewrite Nat.eqb_refl. destruct wPlaying; mrun; rewrite W1, W2;
    reflexivity.
Qed.

Lemma reselect_is_noop_witness :
  run [(14, ClickThumb (active playingWorld)); (15, Render)] playingWorld =
  set_clock 15 playingWorld.
Proof.
  apply (reselect_is_noop playingWorld 14 15).
  - reflexivity.
  - vm_compute. constructor.
Defined.

Lemma forEach_unit {A : Type} (xs : list A) (f : A -> M unit) (w : World) :
  (forall x, f x w = (tt, w)) -> forEach xs f w = (tt, w).
Proof.
  intros H. induction xs as [|x xs IH]; cbn [forEach]; [reflexivity | ].
  unfold bind. rewrite H. exact IH.
Qed.

Lemma step_without_handles (c : Closure) (w : World) :
  leftRef w = None \/ rightRef w = None -> step c w = (tt, w).
Proof.
  intros H. open_world w. unfold step. mred.
  destruct H as [-> | ->]; [reflexivity | destruct wLeft; reflexivity].
Qed.

(** X20. An iteration that the browser runs once a media handle is gone (after
    the unmount, say) leaves the queue and is not replaced: no call is
    made, nothing is scheduled, and the rest of the world is as before. *)
Theorem orphan_iteration_stops (w : World) (t : Q) (e : elem) (i : nat) :
  leftRef w = None \/ rightRef w = None -> quiescent w ->
  let mine := fun p : elem * nat * Closure =>
                Nat.eqb (fst (fst p)) e && Nat.eqb (snd (fst p)) i in
  run [(t, FrameVFC e i)] w =
    set_vfcPending (filter (fun p => negb (mine p)) (vfcPending w))
                   (set_clock t w) /\
  run [(t, FrameRAF i)] w =
    set_rafPending (filter (fun p => negb (Nat.eqb (fst p) i)) (rafPending w))
                   (set_clock t w).
Proof.
  intros H Q mine. subst mine.
  destruct (quiescent_filters w Q) as [W1 W2]. cbn [run].
  split.
  - revert H. open_world w. intros H. unfold handle, dispatch, wake. mred.
    rewrite forEach_unit by (intros x; apply step_without_handles; exact H).
    mred. rewrite W1, W2. reflexivity.
  - revert H. open_world w. intros H. unfold handle, dispatch, wake. mred.
    rewrite forEach_unit by (intros x; apply step_without_handles; exact H).
    mred. rewrite W1, W2. reflexivity.
Qed.

Lemma orphan_iteration_stops_witness :
  let w := run [(100, Unmount)] playingWorld in
  let w' := run [(110, FrameVFC 0%nat 2%nat)] w in
  scheduled w = 1%nat /\ scheduled w' = 0%nat /\ emitted w w' = [].
Proof.
  split; [reflexivity | ].
  destruct (orphan_iteration_stops (run [(100, Unmount)] playingWorld) 110
              0%nat 2%nat) as [V _].
  - left. reflexivity.
  - vm_compute. constructor.
  - rewrite V. vm_compute. split; reflexivity.
Defined.

End Commit.

(** ** The loop on a pair that stays selected *)

Module FixedPair.

(** A queued state update that leaves pair [a] selected. *)
Definition keepsPair (a : nat) (u : Update) : Prop :=
  match u with
  | SetActive i => i = a
  | _ => True
  end.

(** Pair [a] is selected and stays so, its left element is [l], and the
    browser has video frame callbacks. *)
Definition onPair (a : nat) (l : elem) (w : World) : Prop :=
  supportsVFC w = true /\ rafPending w = [] /\ leftRef w = Some l /\
  active w = a /\ Forall (keepsPair a) (updates w).

(** No iteration is scheduled. *)
Definition pairQuiet (a : nat) (l : elem) (w : World) : Prop :=
  onPair a l w /\ vfcPending w = [].

(** At most one iteration is scheduled, on [l], and [loopHandle] holds it. *)
Definition pairTracked (a : nat) (l : elem) (w : World) : Prop :=
  onPair a l w /\
  (vfcPending w = [] \/
   exists i c, vfcPending w = [(l, i, c)] /\ loopHandle w = Some (mkHandle vfc i)).

Definition pairInv (a : nat) (l : elem) (busy : bool) : World -> Prop :=
  if busy then pairTracked a l else pairQuiet a l.

Section OnePair.

Variable a : nat.
Variable l : elem.

Lemma quiet_is_tracked (w : World) : pairQuiet a l w -> pairTracked a l w.
Proof. intros [R P]. split; [exact R | left; exact P]. Qed.

Lemma pairInv_frame (busy : bool) (f : World -> World) :
(forall w, supportsVFC (f w) = supportsVFC w /\
           rafPending (f w) = rafPending w /\
           leftRef (f w) = leftRef w /\
           active (f w) = active w /\
           updates (f w) = updates w /\
           vfcPending (f w) = vfcPending w /\
           loopHandle (f w) = loopHandle w) ->
keeps (pairInv a l busy) (modify f).
Proof.
  intros F. apply keeps_modify. intros w H.
  destruct (F w) as [F1 [F2 [F3 [F4 [F5 [F6 F7]]]]]].
  destruct busy; unfold pairInv, pairTracked, pairQuiet, onPair in *;
    rewrite F1, F2, F3, F4, F5, F6, ?F7; exact H.
Qed.

Lemma pairInv_updates (busy : bool) (us : World -> list Update) :
(forall w, Forall (keepsPair a) (updates w) -> Forall (keepsPair a) (us w)) ->
keeps (pairInv a l busy) (modify (fun w => set_updates (us w) w)).
Proof.
  intros U. apply keeps_modify. intros w H.
  destruct busy; unfold pairInv, pairTracked, pairQuiet, onPair in *;
    destruct H as [[V [R [L [A F]]]] T]; specialize (U w F);
    destruct w; cbn in *; repeat split; assumption.
Qed.

Lemma pairInv_set_active (busy : bool) :
keeps (pairInv a l busy) (modify (set_active a)).
Proof.
  apply keeps_modify. intros w H.
  destruct busy; unfold pairInv, pairTracked, pairQuiet, onPair in *;
    destruct H as [[V [R [L [A F]]]] T];
    destruct w; cbn in *; repeat split; assumption.
Qed.

Lemma cancel_quiets_pair : hoare (pairTracked a l) cancelSyncLoop (pairQuiet a l).
Proof.
  intros w [[V [R [L [A F]]]] T]. unfold pairQuiet, onPair. open_world w.
  unfold cancelSyncLoop.
  destruct T as [T | [i [c [T H]]]]; subst.
  - destruct wHandle as [[[|] i]|]; mrun; repeat split; assumption.
  - mrun. rewrite !Nat.eqb_refl. mrun. repeat split; assumption.
Qed.

Lemma schedule_tracks_pair (c : Closure) :
hoare (pairQuiet a l) (scheduleStep c) (pairTracked a l).
Proof.
  intros w [[V [R [L [A F]]]] T]. unfold pairTracked, onPair. open_world w.
  unfold scheduleStep. mrun.
  (split; [repeat split; assumption | ]).
  right. eexists; eexists; split; reflexivity.
Qed.

Lemma start_tracks_pair (c : Closure) : keeps (pairTracked a l) (startSyncLoop c).
Proof.
  unfold startSyncLoop.
  apply (hoare_bind (pairTracked a l) (pairQuiet a l) (pairTracked a l));
    [apply cancel_quiets_pair | intros _; apply schedule_tracks_pair].
Qed.

Lemma cancel_keeps_pair (busy : bool) : keeps (pairInv a l busy) cancelSyncLoop.
Proof.
  destruct busy; unfold pairInv.
  - apply (hoare_weaken (pairTracked a l) (pairTracked a l) (pairQuiet a l) (pairTracked a l));
      [auto | apply quiet_is_tracked | apply cancel_quiets_pair].
  - apply (hoare_weaken (pairTracked a l) (pairQuiet a l) (pairQuiet a l) (pairQuiet a l));
      [apply quiet_is_tracked | auto | apply cancel_quiets_pair].
Qed.

Lemma enqueue_keeps (busy : bool) (u : Update) :
keepsPair a u -> keeps (pairInv a l busy) (enqueue u).
Proof.
  intros K. unfold enqueue.
  apply (pairInv_updates busy (fun w => updates w ++ [u])).
  intros w F. apply Forall_app. split; [exact F | constructor; [exact K | constructor]].
Qed.

Ltac pair_leaf :=
  idtac;
  match goal with
  | |- keeps _ cancelSyncLoop => apply cancel_keeps_pair
  | |- keeps (pairInv _ _ true) (startSyncLoop _) => apply start_tracks_pair
  | |- keeps _ (enqueue (SetIsPlaying _)) => apply enqueue_keeps; exact I
  | |- keeps _ (modify (set_active a)) => apply pairInv_set_active
  | |- keeps _ (modify (set_updates [])) =>
      apply (pairInv_updates _ (fun _ => [])); intros ? ?; constructor
  | |- keeps _ (modify _) => apply pairInv_frame; intros ?; repeat split
  end.

Ltac pair_open :=
  progress unfold
    emit, video, updVideo, pause, setPlaybackRate, setCurrentTime, load,
    play, spawn, deliver, seekTo, syncRestart_seeked, syncRestart,
    correctDrift, waitReady, loadAndStart_settled, loadAndStart_ready,
    intentEffect, endedEffect, endedCleanup, resume, wake.

Ltac pair_walk := keeps_walk pair_leaf pair_open.

(** One iteration, run once its callback has left the queue, schedules the
    next one and no other. *)
Lemma step_tracks_pair (c : Closure) : hoare (pairQuiet a l) (step c) (pairTracked a l).
Proof.
  assert (K : forall m : M unit, keeps (pairInv a l false) m ->
                hoare (pairQuiet a l) (m ;; scheduleStep c) (pairTracked a l)).
  { intros m Hm. apply (hoare_bind (pairQuiet a l) (pairQuiet a l) (pairTracked a l));
      [exact Hm | intros _; apply schedule_tracks_pair]. }
  assert (I : hoare (pairQuiet a l) (ret tt) (pairTracked a l))
    by (intros w H; apply quiet_is_tracked, H).
  unfold step.
  apply (hoare_bind (pairQuiet a l) (pairQuiet a l));
    [apply (keeps_gets (pairInv a l false)) | intros [x|]];
    (apply (hoare_bind (pairQuiet a l) (pairQuiet a l));
       [apply (keeps_gets (pairInv a l false)) | intros [r|]]);
    try exact I.
  apply (hoare_bind (pairQuiet a l) (pairQuiet a l));
    [apply (keeps_gets (pairInv a l false)) | intros v].
  destruct (nearEnd v); apply K; pair_walk.
Qed.

(** The browser runs video frame callback [i] of [e]: if it is the
    scheduled iteration, the iteration leaves the queue and runs. *)
Lemma frameVFC_tracks_pair (e : elem) (i : nat) :
keeps (pairTracked a l) (dispatch (FrameVFC e i)).
Proof.
  intros w [[V [R [L [A F]]]] T]. unfold pairTracked, onPair.
  destruct T as [T | [i0 [c [T H]]]]; open_world w; unfold dispatch.
  - mrun. repeat split; try assumption. left. reflexivity.
  - mred. cbn [filter fst snd].
    destruct (Nat.eqb l e && Nat.eqb i0 i); cbn [negb]; mrun.
    + match goal with
      | |- context [step c ?W] => pose proof (step_tracks_pair c W) as S
      end.
      destruct (step c _) as [u w']. apply S. repeat split; assumption.
    + repeat split; try assumption. right. exists i0, c. split; reflexivity.
Qed.

Lemma frameRAF_tracks_pair (i : nat) : keeps (pairTracked a l) (dispatch (FrameRAF i)).
Proof.
  intros w [[V [R [L [A F]]]] T]. unfold pairTracked, onPair. open_world w.
  unfold dispatch. mrun. repeat split; try assumption.
Qed.

Lemma fold_keepsPair (us : list Update) (p : bool) :
Forall (keepsPair a) us -> fst (fold_left applyUpdate us (a, p)) = a.
Proof.
  intros F. revert p. induction F as [|u us K _ IH]; intros p; cbn [fold_left].
  - reflexivity.
  - destruct u as [i | b | ]; cbn [applyUpdate fst snd];
      [cbn in K; subst i | | ]; apply IH.
Qed.

(** A commit that leaves the pair selected mounts nothing. *)
Lemma render_keeps_pair : keeps (pairInv a l true) render.
Proof.
  unfold render.
  apply keeps_bind_gets. intros w0 [[_ [_ [_ [A0 _]]]] _].
  apply keeps_bind_gets. intros w1 _.
  apply keeps_bind_gets. intros w2 [[_ [_ [_ [_ F2]]]] _].
  apply keeps_bind; [pair_walk | intros _ ]. cbv zeta.
  rewrite A0, (fold_keepsPair (updates w2) (isPlaying w1) F2), Nat.eqb_refl.
  cbn [negb orb].
  destruct (negb (Bool.eqb (snd (fold_left applyUpdate (updates w2)
                                            (a, isPlaying w1)))
                           (isPlaying w1)));
    pair_walk.
Qed.

Lemma pair_kept_by_dispatch (ev : Event) :
staysOnPair a ev -> keeps (pairInv a l true) (dispatch ev).
Proof.
  destruct ev as [ i | | | | | | | | | | | | e i | i ]; intros S;
    try apply frameVFC_tracks_pair; try apply frameRAF_tracks_pair;
    try apply render_keeps_pair; try (destruct S; fail);
    unfold dispatch, togglePlay;
    try (apply enqueue_keeps; cbn in *; auto; fail);
    pair_walk.
Qed.

Lemma pair_kept_by_handle (now : Q) (ev : Event) :
staysOnPair a ev -> keeps (pairInv a l true) (handle now ev).
Proof.
  intros S. unfold handle.
  apply keeps_bind; [pair_walk | intros _ ].
  apply keeps_bind; [apply pair_kept_by_dispatch, S | intros _; pair_walk].
Qed.

Lemma run_on_pair (evs : list (Q * Event)) (w : World) :
Forall (fun te => staysOnPair a (snd te)) evs ->
pairTracked a l w -> pairTracked a l (run evs w).
Proof.
  revert w. induction evs as [|[t ev] evs IH]; intros w S H; cbn [run].
  - exact H.
  - inversion S as [|? ? S1 S2]; subst. cbn [snd] in S1.
    apply IH; [exact S2 | ]. apply (pair_kept_by_handle t ev S1), H.
Qed.

End OnePair.

Lemma mounted_on_pair (a : nat) : pairTracked a 0%nat (mounted a true).
Proof.
  split; [repeat split; constructor | ].
  right. exists 1%nat, true. split; reflexivity.
Qed.

(** X21. As long as the selected pair stays selected and the gallery mounted,
    at most one sync-loop iteration is scheduled at any time, also in a
    browser with video frame callbacks: whatever toggles, commits, frames,
    media events and promise settlements come, and in whichever order. *)
Theorem one_iteration_while_pair_stays (a : nat) (evs : list (Q * Event)) :
  Forall (fun te => staysOnPair a (snd te)) evs ->
  (scheduled (run evs (mounted a true)) <= 1)%nat.
Proof.
  intros S.
  destruct (run_on_pair a 0%nat evs (mounted a true) S (mounted_on_pair a))
    as [[_ [R _]] [T | [i [c [T _]]]]];
    unfold scheduled; rewrite R, T; cbn; lia.
Qed.

Lemma one_iteration_while_pair_stays_witness :
  let evs := [ (10, Loadeddata 0%nat 4%nat); (11, Loadeddata 1%nat 4%nat);
               (12, PlaySettled 2%nat true); (13, PlaySettled 3%nat true);
               (20, FrameVFC 0%nat 2%nat); (30, ClickToggle); (31, Render);
               (40, ClickThumb 0%nat); (41, ClickToggle); (42, Render);
               (50, FrameVFC 0%nat 3%nat); (60, Ended 1%nat) ] in
  (scheduled (run evs (mounted 0 true)) <= 1)%nat.
Proof.
  apply (one_iteration_while_pair_stays 0).
  repeat constructor.
Defined.

End FixedPair.
